(** * Sileo-Vue: notification store, viewport scheduler, toast geometry

    A shallow embedding of [store.ts] (the process-wide toast registry and
    the [sileo] API), of the script of [SileoToaster.vue] (the viewport
    that owns the auto-dismiss timers) and of the derived geometry of
    [SileoToast.vue], followed by the properties of the toast lifecycle.

    Conventions of the embedding:
    - JavaScript numbers that denote milliseconds or pixels are integers
      ([Z]); the constants [DEFAULT_DURATION * 0.1], [DEFAULT_DURATION * 0.025]
      and [HEIGHT * 2.25] are exact in double precision (600, 150, 90);
    - an object property is a [field]: absent, present and [undefined], or
      present with a value, so that object spread is modelled key by key;
    - module-level and component-level mutable state is threaded explicitly
      through a [World] record, together with the pending [setTimeout]
      callbacks of the event loop and a clock;
    - [setTimeout] reads its delay as a signed 32-bit integer, as the
      event loop of a browser does. *)

From Stdlib Require Import ZArith Lia.
From Stdlib Require QArith Qminmax Lqa.
From stdpp Require Import base option list strings gmap fin_maps.

Open Scope Z_scope.

(** ** Object fields, spread and nullish coalescing *)

Inductive field (A : Type) : Type :=
  | Absent
  | Undef
  | Val (a : A).
Arguments Absent {A}.
Arguments Undef {A}.
Arguments Val {A} a.

(** [o.f]: a missing property reads as [undefined]. *)
Definition read {A} (f : field A) : option A :=
  match f with Val a => Some a | _ => None end.

(** [o.f] for a property of type [A | null]: [None] is nullish. *)
Definition read_nullable {A} (f : field (option A)) : option A :=
  match f with Val (Some a) => Some a | _ => None end.

(** One key of [{ ...a, ...b }]: an own property of [b] wins, even when
    it holds [undefined]. *)
Definition spread {A} (a b : field A) : field A :=
  match b with Absent => a | _ => b end.

(** [a ?? b]. *)
Definition nullish {A} (a : option A) (b : A) : A :=
  match a with Some x => x | None => b end.

(** ** types.ts *)

Inductive SileoState := Success | Loading | Error | Warning | Info | Action.

Inductive SileoPosition :=
  | top_left | top_center | top_right
  | bottom_left | bottom_center | bottom_right.

#[global] Instance SileoPosition_eq_dec : EqDecision SileoPosition.
Proof. solve_decision. Defined.

#[global] Instance SileoState_eq_dec : EqDecision SileoState.
Proof. solve_decision. Defined.

Record SileoStyles := mkStyles {
  st_title : field string;
  st_description : field string;
  st_badge : field string;
  st_button : field string }.

(** [onClick] is an opaque handler, named by a tag. *)
Record SileoButton := mkButton {
  btn_title : string;
  onClick : nat }.

(** [boolean | { expand?: number; collapse?: number }]. *)
Inductive Autopilot :=
  | AutoBool (b : bool)
  | AutoCfg (expand collapse : option Z).

(** [InternalSileoOptions]: [SileoOptions] with the optional [id] and
    [state].  [description] and [icon] are opaque renderable payloads. *)
Record InternalSileoOptions := mkOptions {
  opt_id : field string;
  opt_state : field SileoState;
  title : field string;
  description : field string;
  opt_position : field SileoPosition;
  duration : field (option Z);
  icon : field (option string);
  styles : field SileoStyles;
  fill : field string;
  roundness : field Z;
  autopilot : field Autopilot;
  button : field SileoButton }.

Definition no_styles : SileoStyles := mkStyles Absent Absent Absent Absent.

Definition no_options : InternalSileoOptions :=
  mkOptions Absent Absent Absent Absent Absent Absent Absent Absent Absent
            Absent Absent Absent.

(** ** store.ts: constants *)

Definition DEFAULT_DURATION : Z := 6000.
(** [DEFAULT_DURATION * 0.1] *)
Definition EXIT_DURATION : Z := DEFAULT_DURATION * 1 / 10.
(** [DEFAULT_DURATION * 0.025] *)
Definition AUTO_EXPAND_DELAY : Z := DEFAULT_DURATION * 25 / 1000.
Definition AUTO_COLLAPSE_DELAY : Z := DEFAULT_DURATION - 2000.

(** ** store.ts: records of the registry *)

(** [`${++idCounter}-${Date.now().toString(36)}-${Math.random()...}`]:
    the counter, the clock and the random suffix. *)
Definition InstanceId : Type := nat * Z * nat.

(** [SileoItem].  [merged] holds the properties copied by [...merged];
    [id] and [position] are the ones written after the spread. *)
Record SileoItem := mkItem {
  merged : InternalSileoOptions;
  id : string;
  instanceId : InstanceId;
  position : SileoPosition;
  autoExpandDelayMs : option Z;
  autoCollapseDelayMs : option Z;
  exiting : bool }.

(** [item.state] and [item.duration]. *)
Definition state (t : SileoItem) : option SileoState := read (opt_state (merged t)).
Definition item_duration (t : SileoItem) : option Z :=
  read_nullable (duration (merged t)).

(** [{ ...t, exiting: true }] *)
Definition mark_exiting (t : SileoItem) : SileoItem :=
  mkItem (merged t) (id t) (instanceId t) (position t)
         (autoExpandDelayMs t) (autoCollapseDelayMs t) true.

(** [timeoutKey]: the pair stands for [`${t.id}:${t.instanceId}`]. *)
Definition Key : Type := string * InstanceId.
Definition timeoutKey (t : SileoItem) : Key := (id t, instanceId t).

(** ** store.ts: the toast builder *)

Record AutoDelays := mkDelays {
  expandDelayMs : option Z;
  collapseDelayMs : option Z }.

(** [Math.min(duration, Math.max(0, v))] *)
Definition clamp (duration v : Z) : Z := Z.min duration (Z.max 0 v).

Definition resolveAutopilot (opts : InternalSileoOptions) (dur : option Z) : AutoDelays :=
  match read (autopilot opts), dur with
  | Some (AutoBool false), _ => mkDelays None None
  | _, None => mkDelays None None
  | ap, Some d =>
      if bool_decide (d = 0) || bool_decide (d <= 0) then mkDelays None None
      else
        let cfg := match ap with
                   | Some (AutoCfg e c) => Some (e, c)
                   | _ => None
                   end in
        mkDelays
          (Some (clamp d (nullish (cfg ≫= fst) AUTO_EXPAND_DELAY)))
          (Some (clamp d (nullish (cfg ≫= snd) AUTO_COLLAPSE_DELAY)))
  end.

Definition merge_styles (a b : option SileoStyles) : SileoStyles :=
  let a := nullish a no_styles in
  let b := nullish b no_styles in
  mkStyles (spread (st_title a) (st_title b))
           (spread (st_description a) (st_description b))
           (spread (st_badge a) (st_badge b))
           (spread (st_button a) (st_button b)).

(** [mergeOptions], with [store.options] as an argument. *)
Definition mergeOptions (defaults : option InternalSileoOptions)
    (options : InternalSileoOptions) : InternalSileoOptions :=
  let base := nullish defaults no_options in
  mkOptions
    (spread (opt_id base) (opt_id options))
    (spread (opt_state base) (opt_state options))
    (spread (title base) (title options))
    (spread (description base) (description options))
    (spread (opt_position base) (opt_position options))
    (spread (duration base) (duration options))
    (spread (icon base) (icon options))
    (Val (merge_styles (defaults ≫= (λ o, read (styles o))) (read (styles options))))
    (spread (fill base) (fill options))
    (spread (roundness base) (roundness options))
    (spread (autopilot base) (autopilot options))
    (spread (button base) (button options)).

(** [buildSileoItem], with the result of [generateId()] and
    [store.position] as arguments. *)
Definition buildSileoItem (m : InternalSileoOptions) (tid : string)
    (fallbackPosition : option SileoPosition)
    (fresh : InstanceId) (storePosition : SileoPosition) : SileoItem :=
  let dur := nullish (read_nullable (duration m)) DEFAULT_DURATION in
  let auto := resolveAutopilot m (Some dur) in
  mkItem m tid fresh
    (nullish (read (opt_position m)) (nullish fallbackPosition storePosition))
    (expandDelayMs auto) (collapseDelayMs auto) false.

(** ** The world: store module state, one viewport instance, the event loop *)

(** The world holds the store module and one [SileoToaster] instance:
    [listeners] says whether the listener of that instance is in
    [store.listeners], [timers] is the table of that instance, and
    [pending] holds the callbacks that the store and that instance have
    set.  The properties of the viewport are about one instance. *)

(** What a pending [setTimeout] callback will do: the closure of
    [schedule] calls [dismissToast(item.id)]; the closure of
    [dismissToast] filters the records with that id out of the store. *)
Inductive Callback :=
  | AutoDismiss (tid : string)
  | RemoveExited (tid : string).

Record Timer := mkTimer {
  due : Z;
  callback : Callback }.

(** Life cycle of the [SileoToaster] component instance. *)
Inductive Phase := NotCreated | Created | Mounted | Unmounted.

#[global] Instance Phase_eq_dec : EqDecision Phase.
Proof. solve_decision. Defined.

Record World := mkWorld {
  (* store.ts *)
  toasts : list SileoItem;                 (* store.toasts *)
  listeners : bool;                        (* the viewport's listener is in store.listeners *)
  store_position : SileoPosition;          (* store.position *)
  store_options : option InternalSileoOptions;  (* store.options *)
  idCounter : nat;
  (* SileoToaster.vue *)
  phase : Phase;
  props_position : SileoPosition;
  props_options : option InternalSileoOptions;
  vtoasts : list SileoItem;                (* toasts.value *)
  activeId : option string;
  hovered : bool;
  timers : gmap Key nat;
  (* event loop *)
  now : Z;
  pending : gmap nat Timer;
  nextHandle : nat }.

Definition initial : World :=
  mkWorld [] false top_right None 0 NotCreated top_right None [] None false ∅ 0 ∅ 1.

Definition set_toasts (l : list SileoItem) (w : World) : World :=
  mkWorld l (listeners w) (store_position w) (store_options w) (idCounter w)
    (phase w) (props_position w) (props_options w) (vtoasts w) (activeId w)
    (hovered w) (timers w) (now w) (pending w) (nextHandle w).

Definition set_idCounter (n : nat) (w : World) : World :=
  mkWorld (toasts w) (listeners w) (store_position w) (store_options w) n
    (phase w) (props_position w) (props_options w) (vtoasts w) (activeId w)
    (hovered w) (timers w) (now w) (pending w) (nextHandle w).

Definition set_vtoasts (l : list SileoItem) (w : World) : World :=
  mkWorld (toasts w) (listeners w) (store_position w) (store_options w) (idCounter w)
    (phase w) (props_position w) (props_options w) l (activeId w)
    (hovered w) (timers w) (now w) (pending w) (nextHandle w).

Definition set_activeId (a : option string) (w : World) : World :=
  mkWorld (toasts w) (listeners w) (store_position w) (store_options w) (idCounter w)
    (phase w) (props_position w) (props_options w) (vtoasts w) a
    (hovered w) (timers w) (now w) (pending w) (nextHandle w).

Definition set_hovered (b : bool) (w : World) : World :=
  mkWorld (toasts w) (listeners w) (store_position w) (store_options w) (idCounter w)
    (phase w) (props_position w) (props_options w) (vtoasts w) (activeId w)
    b (timers w) (now w) (pending w) (nextHandle w).

Definition set_timers (m : gmap Key nat) (w : World) : World :=
  mkWorld (toasts w) (listeners w) (store_position w) (store_options w) (idCounter w)
    (phase w) (props_position w) (props_options w) (vtoasts w) (activeId w)
    (hovered w) m (now w) (pending w) (nextHandle w).

Definition set_pending (p : gmap nat Timer) (w : World) : World :=
  mkWorld (toasts w) (listeners w) (store_position w) (store_options w) (idCounter w)
    (phase w) (props_position w) (props_options w) (vtoasts w) (activeId w)
    (hovered w) (timers w) (now w) p (nextHandle w).

Definition set_now (t : Z) (w : World) : World :=
  mkWorld (toasts w) (listeners w) (store_position w) (store_options w) (idCounter w)
    (phase w) (props_position w) (props_options w) (vtoasts w) (activeId w)
    (hovered w) (timers w) t (pending w) (nextHandle w).

(** ** Event loop primitives *)

(** The delay of a timer is a WebIDL [long]: the number is reduced
    modulo 2^32 into the signed 32-bit range. *)
Definition ToInt32 (z : Z) : Z := (z + 2 ^ 31) `mod` 2 ^ 32 - 2 ^ 31.

(** The delay that the event loop gives to [setTimeout(cb, delay)]: the
    converted delay, and 0 if that is negative.  A delay from 0 to
    2^31 - 1 is kept; 2^31 becomes 0. *)
Definition timer_delay (delay : Z) : Z := Z.max 0 (ToInt32 delay).
Arguments timer_delay : simpl never.

(** [setTimeout(cb, delay)]: a fresh handle, due [timer_delay delay] ms
    from now. *)
Definition setTimeout (cb : Callback) (delay : Z) (w : World) : nat * World :=
  let h := nextHandle w in
  (h, mkWorld (toasts w) (listeners w) (store_position w) (store_options w)
        (idCounter w) (phase w) (props_position w) (props_options w)
        (vtoasts w) (activeId w) (hovered w) (timers w) (now w)
        (<[h := mkTimer (now w + timer_delay delay) cb]> (pending w)) (S h)).

(** [clearTimeout(h)] for each handle of a list. *)
Definition clearTimeouts (hs : list nat) (p : gmap nat Timer) : gmap nat Timer :=
  foldr delete p hs.

Definition handles (m : gmap Key nat) : list nat := (map_to_list m).*2.

(** ** SileoToaster.vue: timer management *)

Definition clearAllTimers (w : World) : World :=
  set_timers ∅ (set_pending (clearTimeouts (handles (timers w)) (pending w)) w).

(** The body of the loop of [schedule], for one item. *)
Definition schedule_item (w : World) (item : SileoItem) : World :=
  if exiting item then w
  else
    let key := timeoutKey item in
    if bool_decide (is_Some (timers w !! key)) then w
    else
      let dur := nullish (item_duration item) DEFAULT_DURATION in
      if bool_decide (dur <= 0) then w
      else
        let '(h, w1) := setTimeout (AutoDismiss (id item)) dur w in
        set_timers (<[key := h]> (timers w1)) w1.

Definition schedule (items : list SileoItem) (w : World) : World :=
  if hovered w then w else foldl schedule_item w items.

(** [latest]: the id of the last record that is not exiting. *)
Definition latest (l : list SileoItem) : option string :=
  id <$> List.find (λ t, negb (exiting t)) (reverse l).

(** The store listener of the viewport.  ([handlersCache] only memoises
    closures that depend on the toast id and is left out.) *)
Definition listener (next : list SileoItem) (w : World) : World :=
  let w1 := set_vtoasts next w in
  let toastKeys := timeoutKey <$> next in
  let stale := filter (λ kh, kh.1 ∉ toastKeys) (timers w1) in
  let w2 := set_timers (filter (λ kh, kh.1 ∈ toastKeys) (timers w1))
              (set_pending (clearTimeouts (handles stale) (pending w1)) w1) in
  let w3 := set_activeId (latest (vtoasts w2)) w2 in
  schedule next w3.

(** ** store.ts: [store.emit] and [store.update] *)

Definition emit (w : World) : World :=
  if listeners w then listener (toasts w) w else w.

Definition update (fn : list SileoItem → list SileoItem) (w : World) : World :=
  emit (set_toasts (fn (toasts w)) w).

Definition find_id (tid : string) (l : list SileoItem) : option SileoItem :=
  List.find (λ t, bool_decide (id t = tid)) l.

(** ** store.ts: the toast API *)

(** [dismissToast] (the copy in [SileoToaster.vue] is the same code). *)
Definition dismissToast (tid : string) (w : World) : World :=
  match find_id tid (toasts w) with
  | None => w
  | Some item =>
      if exiting item then w
      else
        let w1 := update (λ prev,
                    (λ t, if bool_decide (id t = tid) then mark_exiting t else t) <$> prev) w in
        (setTimeout (RemoveExited tid) EXIT_DURATION w1).2
  end.

(** [generateId()]: increments the counter and reads the clock. *)
Definition generateId (rnd : nat) (w : World) : InstanceId * World :=
  let n := S (idCounter w) in
  ((n, now w, rnd), set_idCounter n w).

Definition replace_id (tid : string) (item : SileoItem) (l : list SileoItem)
    : list SileoItem :=
  (λ t, if bool_decide (id t = tid) then item else t) <$> l.

Definition createToast (options : InternalSileoOptions) (rnd : nat) (w : World)
    : (string * Z) * World :=
  let live := filter (λ t, exiting t = false) (toasts w) in
  let m := mergeOptions (store_options w) options in
  let tid := nullish (read (opt_id m)) "sileo-default"%string in
  let prev := find_id tid live in
  let '(fresh, w1) := generateId rnd w in
  let item := buildSileoItem m tid (position <$> prev) fresh (store_position w1) in
  let w2 :=
    match prev with
    | Some _ => update (replace_id tid item) w1
    | None => update (λ p, filter (λ t, id t ≠ tid) p ++ [item]) w1
    end in
  ((tid, nullish (read_nullable (duration m)) DEFAULT_DURATION), w2).

Definition updateToast (tid : string) (options : InternalSileoOptions) (rnd : nat)
    (w : World) : World :=
  match find_id tid (toasts w) with
  | None => w
  | Some existing =>
      let '(fresh, w1) := generateId rnd w in
      let item := buildSileoItem (mergeOptions (store_options w1) options) tid
                    (Some (position existing)) fresh (store_position w1) in
      update (replace_id tid item) w1
  end.


(** [{ ...opts, state: s, id }] *)
Definition with_state_id (s : SileoState) (tid : string) (o : InternalSileoOptions)
    : InternalSileoOptions :=
  mkOptions (Val tid) (Val s) (title o) (description o) (opt_position o)
    (duration o) (icon o) (styles o) (fill o) (roundness o) (autopilot o) (button o).

Module sileo.


Definition dismiss : string → World → World := dismissToast.

Definition clear (pos : option SileoPosition) (w : World) : World :=
  update (λ prev,
    match pos with
    | Some p => filter (λ t, position t ≠ p) prev
    | None => []
    end) w.

End sileo.

(** ** store.ts: the promise adapter *)

Section Promise.

(** [T] is the type of the operation's result, [E] the type of thrown
    values and rejection reasons ([unknown] in the source). *)
Variables T E : Type.

Inductive Completion (A : Type) : Type :=
  | Normal (a : A)
  | Throw (e : E).

(** [SileoOptions | ((x: X) => SileoOptions)]; calling the function may
    throw. *)
Inductive Resolver (X : Type) : Type :=
  | Static (o : InternalSileoOptions)
  | Dynamic (f : X → Completion InternalSileoOptions).

Record SileoPromiseOptions := mkPromiseOptions {
  p_loading : InternalSileoOptions;
  p_success : Resolver T;
  p_error : Resolver E;
  p_action : option (Resolver T);
  p_position : option SileoPosition }.

(** A promise is represented by the outcome it settles with. *)
Inductive Outcome : Type :=
  | Fulfilled (data : T)
  | Rejected (err : E).

(** [Promise<T> | (() => Promise<T>)] *)
Inductive Operation : Type :=
  | Started (p : Outcome)
  | Factory (f : unit → Outcome).

Inductive Branch := BSuccess | BAction | BError.

(** [typeof r === "function" ? r(x) : r] *)
Definition resolve {X} (r : Resolver X) (x : X) : Completion InternalSileoOptions :=
  match r with
  | Static _ o => Normal _ o
  | Dynamic _ f => f x
  end.

(** [{ ...opts.loading, state: "loading", duration: null, position: opts.position }] *)
Definition loading_options (opts : SileoPromiseOptions) : InternalSileoOptions :=
  let l := p_loading opts in
  mkOptions (opt_id l) (Val Loading) (title l) (description l)
    (match p_position opts with Some p => Val p | None => Undef end)
    (Val None) (icon l) (styles l) (fill l) (roundness l) (autopilot l) (button l).

(** The synchronous part of [sileo.promise]: the loading toast is
    created, the operation is started, its promise is returned.  The
    toast id is returned as well, for the reactions. *)
Definition promise (operation : Operation) (opts : SileoPromiseOptions)
    (rnd : nat) (w : World) : Outcome * string * World :=
  let '(r, w1) := createToast (loading_options opts) rnd w in
  let p := match operation with Started p => p | Factory f => f () end in
  (p, r.1, w1).

(** The callback given to [p.then]. *)
Definition onFulfilled (opts : SileoPromiseOptions) (tid : string) (data : T)
    (rnd : nat) (w : World) : Branch * Completion World :=
  match p_action opts with
  | Some a =>
      (BAction,
       match resolve a data with
       | Normal _ actionOpts =>
           Normal _ (updateToast tid (with_state_id Action tid actionOpts) rnd w)
       | Throw _ e => Throw _ e
       end)
  | None =>
      (BSuccess,
       match resolve (p_success opts) data with
       | Normal _ successOpts =>
           Normal _ (updateToast tid (with_state_id Success tid successOpts) rnd w)
       | Throw _ e => Throw _ e
       end)
  end.

(** The callback given to [.catch]. *)
Definition onRejected (opts : SileoPromiseOptions) (tid : string) (err : E)
    (rnd : nat) (w : World) : Completion World :=
  match resolve (p_error opts) err with
  | Normal _ errorOpts =>
      Normal _ (updateToast tid (with_state_id Error tid errorOpts) rnd w)
  | Throw _ e => Throw _ e
  end.

(** [p.then(onFulfilled).catch(onRejected)] when [p] settles: the
    branches entered, in order, and the resulting world.  A rejection
    of [p] skips [then]; an exception of [onFulfilled] rejects the
    derived promise and reaches [catch]. *)
Definition settle (opts : SileoPromiseOptions) (tid : string) (p : Outcome)
    (rnd : nat) (w : World) : list Branch * World :=
  match p with
  | Fulfilled data =>
      match onFulfilled opts tid data rnd w with
      | (b, Normal _ w') => ([b], w')
      | (b, Throw _ e) =>
          match onRejected opts tid e rnd w with
          | Normal _ w' => ([b; BError], w')
          | Throw _ _ => ([b; BError], w)
          end
      end
  | Rejected err =>
      match onRejected opts tid err rnd w with
      | Normal _ w' => ([BError], w')
      | Throw _ _ => ([BError], w)
      end
  end.

End Promise.

Arguments Normal {E A} a.
Arguments Throw {E A} e.
Arguments Static {E X} o.
Arguments Dynamic {E X} f.
Arguments Fulfilled {T E} data.
Arguments Rejected {T E} err.
Arguments Started {T E} p.
Arguments Factory {T E} f.
Arguments mkPromiseOptions {T E}.
Arguments p_loading {T E}.
Arguments p_success {T E}.
Arguments p_error {T E}.
Arguments p_action {T E}.
Arguments p_position {T E}.
Arguments promise {T E}.
Arguments settle {T E}.
Arguments onFulfilled {T E}.
Arguments onRejected {T E}.
Arguments loading_options {T E}.
Arguments resolve {E X} r x.

(** ** SileoToaster.vue: handlers and life cycle *)

Definition syncConfig (w : World) : World :=
  mkWorld (toasts w) (listeners w) (props_position w) (props_options w) (idCounter w)
    (phase w) (props_position w) (props_options w) (vtoasts w) (activeId w)
    (hovered w) (timers w) (now w) (pending w) (nextHandle w).

Definition set_props (pos : SileoPosition) (o : option InternalSileoOptions)
    (w : World) : World :=
  mkWorld (toasts w) (listeners w) (store_position w) (store_options w) (idCounter w)
    (phase w) pos o (vtoasts w) (activeId w)
    (hovered w) (timers w) (now w) (pending w) (nextHandle w).

Definition set_phase (ph : Phase) (subscribed : bool) (w : World) : World :=
  mkWorld (toasts w) subscribed (store_position w) (store_options w) (idCounter w)
    ph (props_position w) (props_options w) (vtoasts w) (activeId w)
    (hovered w) (timers w) (now w) (pending w) (nextHandle w).

(** [<script setup>]: the refs are initialised; [toasts] starts as
    [store.toasts]. *)
Definition setup (pos : SileoPosition) (o : option InternalSileoOptions)
    (w : World) : World :=
  set_phase Created (listeners w)
    (set_timers ∅ (set_hovered false (set_activeId None
      (set_vtoasts (toasts w) (set_props pos o w))))).

Definition onMounted (w : World) : World :=
  set_phase Mounted true (syncConfig w).

Definition onUnmounted (w : World) : World :=
  clearAllTimers (set_phase Unmounted false w).

(** [syncConfig] run by another [SileoToaster] instance, with the props
    of that instance: it writes the same two fields of the store. *)
Definition syncOther (pos : SileoPosition) (o : option InternalSileoOptions)
    (w : World) : World :=
  mkWorld (toasts w) (listeners w) pos o (idCounter w)
    (phase w) (props_position w) (props_options w) (vtoasts w) (activeId w)
    (hovered w) (timers w) (now w) (pending w) (nextHandle w).

(** [getHandlers(toastId).enter] *)
Definition enter (toastId : string) (w : World) : World :=
  let w1 := set_activeId (Some toastId) w in
  if hovered w1 then w1 else clearAllTimers (set_hovered true w1).

(** [getHandlers(toastId).leave] *)
Definition leave (toastId : string) (w : World) : World :=
  let w1 := set_activeId (latest (vtoasts w)) w in
  if hovered w1 then schedule (vtoasts w1) (set_hovered false w1) else w1.

(** ** The transition system *)

Inductive Event :=
  | ECreate (o : InternalSileoOptions) (rnd : nat)   (* show, success, ..., the loading toast of promise *)
  | EUpdate (tid : string) (o : InternalSileoOptions) (rnd : nat)  (* a reaction of promise *)
  | EDismiss (tid : string)                          (* sileo.dismiss *)
  | EClear (pos : option SileoPosition)              (* sileo.clear *)
  | ESetup (pos : SileoPosition) (o : option InternalSileoOptions)
  | EMount
  | EUnmount
  | EProps (pos : SileoPosition) (o : option InternalSileoOptions)
  | EEnter (toastId : string)                        (* mouseenter on a toast *)
  | ELeave (toastId : string)                        (* mouseleave on a toast *)
  | ESwipe (toastId : string)                        (* the toast emits dismiss *)
  | EFire (h : nat)                                  (* a due timer runs *)
  | EAdvance (dt : Z)                                (* time passes *)
  | ESyncOther (pos : SileoPosition) (o : option InternalSileoOptions).
      (* another SileoToaster syncs its config *)

(** What a timer callback does when it runs. *)
Definition run_callback (cb : Callback) (w : World) : World :=
  match cb with
  | AutoDismiss tid => dismissToast tid w
  | RemoveExited tid => update (λ prev, filter (λ t, id t ≠ tid) prev) w
  end.

(** One step.  Timers run exactly when they are due: time does not
    advance past a pending timer.  Pointer events reach the viewport
    only while it is mounted.  Other [SileoToaster] instances show
    through what they do to the store: a dismissal from one of them, by
    its timer or by a swipe, is the code of [EDismiss], and its
    [syncConfig] is [ESyncOther]; their listeners write only their own
    refs and timer tables. *)
Definition step (w : World) (e : Event) : option World :=
  match e with
  | ECreate o rnd => Some (createToast o rnd w).2
  | EUpdate tid o rnd => Some (updateToast tid o rnd w)
  | EDismiss tid => Some (sileo.dismiss tid w)
  | EClear pos => Some (sileo.clear pos w)
  | ESetup pos o =>
      if bool_decide (phase w = NotCreated) then Some (setup pos o w) else None
  | EMount =>
      if bool_decide (phase w = Created) then Some (onMounted w) else None
  | EUnmount =>
      if bool_decide (phase w = Mounted) then Some (onUnmounted w) else None
  | EProps pos o =>
      if bool_decide (phase w = Created ∨ phase w = Mounted)
      then Some (syncConfig (set_props pos o w)) else None
  | EEnter tid =>
      if bool_decide (phase w = Mounted) then Some (enter tid w) else None
  | ELeave tid =>
      if bool_decide (phase w = Mounted) then Some (leave tid w) else None
  | ESwipe tid =>
      if bool_decide (phase w = Mounted) then Some (dismissToast tid w) else None
  | EFire h =>
      match pending w !! h with
      | Some t =>
          if bool_decide (due t <= now w)
          then Some (run_callback (callback t) (set_pending (delete h (pending w)) w))
          else None
      | None => None
      end
  | EAdvance dt =>
      if bool_decide (0 <= dt ∧ map_Forall (λ _ t, now w + dt <= due t) (pending w))
      then Some (set_now (now w + dt) w) else None
  | ESyncOther pos o => Some (syncOther pos o w)
  end.

Fixpoint run (w : World) (es : list Event) : option World :=
  match es with
  | [] => Some w
  | e :: es' => match step w e with Some w' => run w' es' | None => None end
  end.

Inductive reachable : World → Prop :=
  | reachable_initial : reachable initial
  | reachable_step w e w' : reachable w → step w e = Some w' → reachable w'.

(** ** SileoToast.vue: derived geometry *)

Module Toast.
Import QArith Qminmax.

Definition HEIGHT : Q := 40.
Definition MIN_EXPAND_RATIO : Q := 225 # 100.
Definition minExpanded : Q := HEIGHT * MIN_EXPAND_RATIO.

(** [rawExpanded], as a function of [hasDesc] and of the measured
    [contentHeight] ([scrollHeight], an integer). *)
Definition rawExpanded (hasDesc : bool) (contentHeight : Z) : Q :=
  if hasDesc then Qmax minExpanded (HEIGHT + inject_Z contentHeight)
  else minExpanded.

End Toast.

(** * Specification vocabulary

    Predicates, invariants and example inputs used by the properties
    below. *)

(** Everything but the timer table, the pending callbacks and the next
    handle. *)
Definition same_base (w w' : World) : Prop :=
  toasts w' = toasts w ∧ listeners w' = listeners w ∧
  store_position w' = store_position w ∧ store_options w' = store_options w ∧
  idCounter w' = idCounter w ∧ phase w' = phase w ∧
  props_position w' = props_position w ∧ props_options w' = props_options w ∧
  hovered w' = hovered w ∧ now w' = now w ∧
  vtoasts w' = vtoasts w ∧ activeId w' = activeId w.

(** As [same_base], but the viewport's own copy of the list and its
    active id may differ too. *)
Definition same_store (w w' : World) : Prop :=
  toasts w' = toasts w ∧ listeners w' = listeners w ∧
  store_position w' = store_position w ∧ store_options w' = store_options w ∧
  idCounter w' = idCounter w ∧ phase w' = phase w ∧
  props_position w' = props_position w ∧ props_options w' = props_options w ∧
  hovered w' = hovered w ∧ now w' = now w.

Definition mark_id (tid : string) (l : list SileoItem) : list SileoItem :=
  (λ t, if bool_decide (id t = tid) then mark_exiting t else t) <$> l.

(** The id that [createToast] resolves for its options. *)
Definition resolved_id (defaults : option InternalSileoOptions)
    (o : InternalSileoOptions) : string :=
  nullish (read (opt_id (mergeOptions defaults o))) "sileo-default"%string.

Definition live (l : list SileoItem) : list SileoItem :=
  filter (λ t, exiting t = false) l.

(** The record that [createToast] builds. *)
Definition created_item (o : InternalSileoOptions) (rnd : nat) (w : World) : SileoItem :=
  let m := mergeOptions (store_options w) o in
  let tid := resolved_id (store_options w) o in
  buildSileoItem m tid (position <$> find_id tid (live (toasts w)))
    (S (idCounter w), now w, rnd) (store_position w).

Definition updated_item (tid : string) (o : InternalSileoOptions) (rnd : nat)
    (existing : SileoItem) (w : World) : SileoItem :=
  buildSileoItem (mergeOptions (store_options w) o) tid (Some (position existing))
    (S (idCounter w), now w, rnd) (store_position w).

Definition unique_ids (w : World) : Prop := NoDup (id <$> toasts w).

(** Handles are fresh, a pending auto-dismiss timer is always recorded in
    the viewport's table, a pending removal timer never is, and no
    pending timer is overdue. *)
Record timers_ok (w : World) : Prop := mk_timers_ok {
  pending_fresh : ∀ h t, pending w !! h = Some t → (h < nextHandle w)%nat;
  timers_fresh : ∀ k h, timers w !! k = Some h → (h < nextHandle w)%nat;
  auto_recorded : ∀ h t tid, pending w !! h = Some t → callback t = AutoDismiss tid →
                    ∃ k, timers w !! k = Some h;
  removal_unrecorded : ∀ h t tid k, pending w !! h = Some t →
                    callback t = RemoveExited tid → timers w !! k ≠ Some h;
  not_overdue : ∀ h t, pending w !! h = Some t → now w <= due t }.

(** The viewport schedules only while mounted and not hovered. *)
Record gate_ok (w : World) : Prop := mk_gate_ok {
  hovered_empty : hovered w = true → timers w = ∅;
  unmounted_empty : phase w ≠ Mounted → timers w = ∅;
  listening_mounted : listeners w = true ↔ phase w = Mounted }.

(** After [clearAllTimers] no auto-dismiss timer is pending. *)
Definition no_auto_pending (w : World) : Prop :=
  ∀ h t, pending w !! h = Some t → ∃ tid, callback t = RemoveExited tid.

(** The invariant of the viewport and of the event loop. *)
Definition Inv (w : World) : Prop := timers_ok w ∧ gate_ok w.







Definition autopilot_expand (m : InternalSileoOptions) : option Z :=
  match read (autopilot m) with Some (AutoCfg e _) => e | _ => None end.
Definition autopilot_collapse (m : InternalSileoOptions) : option Z :=
  match read (autopilot m) with Some (AutoCfg _ c) => c | _ => None end.
Definition resolved_duration (m : InternalSileoOptions) : Z :=
  nullish (read_nullable (duration m)) DEFAULT_DURATION.

(** The duration that options give as a number, and the default when
    they give none; [None] when they give [null]. *)
Definition given_duration (m : InternalSileoOptions) : option Z :=
  match duration m with
  | Val (Some d) => Some d
  | Val None => None
  | _ => Some DEFAULT_DURATION
  end.

Definition with_duration (d : option Z) : InternalSileoOptions :=
  mkOptions Absent Absent Absent Absent Absent (Val d) Absent Absent Absent
            Absent Absent Absent.
Definition long_toast : SileoItem :=
  buildSileoItem (with_duration (Some 10000)) "t" None (1%nat, 0, 0%nat) top_right.


(** [item.duration ?? DEFAULT_DURATION] *)
Definition nominal (r : SileoItem) : Z := nullish (item_duration r) DEFAULT_DURATION.

(** The record has a pending auto-dismiss timer, registered under its
    key, that was set at time [t0] with the record's nominal duration
    as its delay: it is due [timer_delay (nominal r)] after [t0], which
    is the nominal duration when that is below 2^31. *)
Definition scheduled (w : World) (r : SileoItem) (t0 : Z) : Prop :=
  ∃ h, timers w !! timeoutKey r = Some h ∧
       pending w !! h
         = Some (mkTimer (t0 + timer_delay (nominal r)) (AutoDismiss (id r))).

(** As [scheduled], with the timer due a full nominal duration after
    [t0]. *)
Definition scheduled_full (w : World) (r : SileoItem) (t0 : Z) : Prop :=
  ∃ h, timers w !! timeoutKey r = Some h ∧
       pending w !! h = Some (mkTimer (t0 + nominal r) (AutoDismiss (id r))).


(** Every pending removal timer of [w] is still pending in [w']. *)
Definition removal_kept (w w' : World) : Prop :=
  ∀ h t tid, pending w !! h = Some t → callback t = RemoveExited tid →
    pending w' !! h = Some t.


Definition with_id (tid : string) : InternalSileoOptions :=
  mkOptions (Val tid) Absent Absent Absent Absent Absent Absent Absent Absent
            Absent Absent Absent.


Definition after (es : list Event) : World := default initial (run initial es).

Definition swipe_then_unmount : list Event :=
  [ESetup top_right None; EMount; ECreate (with_id "x") 1%nat; ESwipe "x";
   EUnmount; EAdvance 600].

Definition shown : list Event := [ECreate (with_id "x") 1%nat].

Definition mounted_shown : list Event :=
  [ESetup top_right None; EMount; ECreate (with_id "x") 1%nat].

Definition hovering : list Event :=
  [ESetup top_right None; EMount; ECreate (with_id "x") 1%nat; EAdvance 1000;
   EEnter "x"; EAdvance 9000].

(** A toast is shown before the viewport is set up and another one
    between its setup and its mount; then the pointer enters the first. *)
Definition created_before_mount : list Event :=
  [ECreate (with_id "a") 1%nat; ESetup top_right None; ECreate (with_id "b") 2%nat;
   EMount; EEnter "a"].

Definition with_id_duration (tid : string) (d : Z) : InternalSileoOptions :=
  mkOptions (Val tid) Absent Absent Absent Absent (Val (Some d)) Absent Absent Absent
            Absent Absent Absent.

(** A toast with a duration of 2^31 ms is shown and the pointer enters it. *)
Definition overlong_hovered : list Event :=
  [ESetup top_right None; EMount; ECreate (with_id_duration "x" (2 ^ 31)) 1%nat;
   EEnter "x"].


Definition shown_dismissed : list Event :=
  [ECreate (with_id "x") 1%nat; EAdvance 100; EDismiss "x"; EAdvance 100].

Definition recreated_during_exit : list Event :=
  [ECreate (with_id "x") 1%nat; EAdvance 100; EDismiss "x"; EAdvance 100;
   ECreate (with_id "x") 2%nat; EAdvance 500].


Definition static_promise : SileoPromiseOptions unit unit :=
  mkPromiseOptions no_options (Static no_options) (Static no_options) None None.

(** The loading toast of [static_promise] is shown, then [clear()] runs
    before the promise settles. *)
Definition loading_cleared : World :=
  sileo.clear None (promise (Started (Fulfilled ())) static_promise 1%nat initial).2.

Definition throwing_promise : SileoPromiseOptions unit unit :=
  mkPromiseOptions no_options (Dynamic (λ _, Throw ())) (Static no_options) None None.

Definition loading_shown : World :=
  (promise (Started (Fulfilled ())) throwing_promise 1%nat initial).2.

(** The branch and the state that [onFulfilled] selects. *)
Definition fulfilled_branch {T E} (opts : SileoPromiseOptions T E) : Branch * SileoState :=
  match p_action opts with Some _ => (BAction, Action) | None => (BSuccess, Success) end.

Definition fulfilled_resolver {T E} (opts : SileoPromiseOptions T E) : Resolver E T :=
  match p_action opts with Some a => a | None => p_success opts end.


(** * Further vocabulary: the pure functions of the viewport and of the toast *)

(** The counter part of an instance id. *)
Definition counter (i : InstanceId) : nat := fst (fst i).

(** Every key of the timer table is the key of a record of the
    viewport's list, and every pending auto-dismiss timer is recorded
    under a key with the id it will dismiss. *)
Record table_ok (w : World) : Prop := mk_table_ok {
  keys_listed : ∀ k h, timers w !! k = Some h → k ∈ timeoutKey <$> vtoasts w;
  auto_keyed : ∀ h t tid, pending w !! h = Some t → callback t = AutoDismiss tid →
                 ∃ k, timers w !! k = Some h ∧ k.1 = tid;
  handles_inj : ∀ k1 k2 h, timers w !! k1 = Some h → timers w !! k2 = Some h → k1 = k2 }.

(** The strings of [SILEO_POSITIONS]. *)
Definition position_name (pos : SileoPosition) : string :=
  match pos with
  | top_left => "top-left"
  | top_center => "top-center"
  | top_right => "top-right"
  | bottom_left => "bottom-left"
  | bottom_center => "bottom-center"
  | bottom_right => "bottom-right"
  end.

Definition SILEO_POSITIONS : list SileoPosition :=
  [top_left; top_center; top_right; bottom_left; bottom_center; bottom_right].

(** [s.startsWith(p)] *)
Definition startsWith (s p : string) : bool := String.prefix p s.

(** [s.includes(p)] *)
Fixpoint includes (s p : string) : bool :=
  String.prefix p s ||
  match s with
  | EmptyString => false
  | String _ s' => includes s' p
  end.

(** [s.endsWith(p)] *)
Fixpoint endsWith (s p : string) : bool :=
  String.eqb s p ||
  match s with
  | EmptyString => false
  | String _ s' => endsWith s' p
  end.

Inductive PillAlign := AlignLeft | AlignCenter | AlignRight.

Inductive ExpandDir := ExpandTop | ExpandBottom.

Definition pillAlign (pos : SileoPosition) : PillAlign :=
  if includes (position_name pos) "right" then AlignRight
  else if includes (position_name pos) "center" then AlignCenter
  else AlignLeft.

Definition expandDir (pos : SileoPosition) : ExpandDir :=
  if startsWith (position_name pos) "top" then ExpandBottom else ExpandTop.

(** [SileoOffsetValue]: [number | string]. *)
Inductive SileoOffsetValue :=
  | OffsetNumber (n : Z)
  | OffsetString (s : string).

(** [SileoOffsetConfig] *)
Record SileoOffsetConfig := mkOffsetConfig {
  off_top : option SileoOffsetValue;
  off_right : option SileoOffsetValue;
  off_bottom : option SileoOffsetValue;
  off_left : option SileoOffsetValue }.

(** A CSS length written by [px]: [Px n] stands for the string
    [`${n}px`], [Raw s] for a string passed through. *)
Inductive CssLength :=
  | Px (n : Z)
  | Raw (s : string).

Record ViewportStyle := mkViewportStyle {
  css_top : option CssLength;
  css_right : option CssLength;
  css_bottom : option CssLength;
  css_left : option CssLength }.

(** [typeof v === "number" ? `${v}px` : v] *)
Definition px (v : SileoOffsetValue) : CssLength :=
  match v with
  | OffsetNumber n => Px n
  | OffsetString s => Raw s
  end.

(** Truthiness of [o.edge]: [undefined], [0] and the empty string are
    falsy. *)
Definition truthy_offset (v : option SileoOffsetValue) : option SileoOffsetValue :=
  match v with
  | Some (OffsetNumber 0) => None
  | Some (OffsetString EmptyString) => None
  | _ => v
  end.

(** One [if (cond && o.edge) s.edge = px(o.edge)]. *)
Definition inset (cond : bool) (v : option SileoOffsetValue) : option CssLength :=
  if cond then px <$> truthy_offset v else None.

Definition getViewportStyle (offset : option (SileoOffsetValue + SileoOffsetConfig))
    (pos : SileoPosition) : option ViewportStyle :=
  match offset with
  | None => None
  | Some off =>
      let o := match off with
               | inr cfg => cfg
               | inl v => mkOffsetConfig (Some v) (Some v) (Some v) (Some v)
               end in
      let name := position_name pos in
      Some (mkViewportStyle
              (inset (startsWith name "top") (off_top o))
              (inset (endsWith name "right") (off_right o))
              (inset (startsWith name "bottom") (off_bottom o))
              (inset (endsWith name "left") (off_left o)))
  end.

(** The object [map] of [byPosition]: a property per position. *)
Definition PositionMap : Type := SileoPosition → option (list SileoItem).

(** The body of the loop of [byPosition] ([t.position] is always set on
    a built record, so the fallback to [props.position] is not taken). *)
Definition byPosition_step (map : PositionMap) (t : SileoItem) : PositionMap :=
  let pos := position t in
  match map pos with
  | Some arr => λ p, if decide (p = pos) then Some (arr ++ [t]) else map p
  | None => λ p, if decide (p = pos) then Some [t] else map p
  end.

Definition byPosition (l : list SileoItem) : PositionMap :=
  foldl byPosition_step (λ _, None) l.

(** [v-if="byPosition[pos]?.length"] *)
Definition section_rendered (l : list SileoItem) (pos : SileoPosition) : bool :=
  match byPosition l pos with
  | Some (_ :: _) => true
  | _ => false
  end.

(** [:can-expand="activeId === undefined || activeId === item.id"] *)
Definition canExpand (w : World) (item : SileoItem) : bool :=
  match activeId w with
  | None => true
  | Some a => bool_decide (a = id item)
  end.

Definition bucket_of (l : list SileoItem) (pos : SileoPosition) : option (list SileoItem) :=
  match filter (λ t, position t = pos) l with
  | [] => None
  | b => Some b
  end.

Definition SWIPE_DISMISS : Z := 30.
Definition SWIPE_MAX : Z := 20.

(** [onPointerDown]: [pointerStart] after the event.  [onButton] is
    [target.closest("[data-sileo-button]")]. *)
Definition onPointerDown (exiting onButton : bool) (clientY : Z)
    (pointerStart : option Z) : option Z :=
  if exiting then pointerStart
  else if onButton then pointerStart
  else Some clientY.

(** [onPointerMove]: the offset written to [translateY], if any. *)
Definition onPointerMove (clientY : Z) (pointerStart : option Z) : option Z :=
  match pointerStart with
  | None => None
  | Some start =>
      let dy := clientY - start in
      let sign := if bool_decide (dy > 0) then 1 else -1 in
      Some (Z.min (Z.abs dy) SWIPE_MAX * sign)
  end.

(** [onPointerUp]: [pointerStart] after the event, and whether
    [dismiss] is emitted. *)
Definition onPointerUp (clientY : Z) (pointerStart : option Z) : option Z * bool :=
  match pointerStart with
  | None => (None, false)
  | Some start =>
      let dy := clientY - start in
      (None, bool_decide (Z.abs dy > SWIPE_DISMISS))
  end.

(** [View]: the payload shown by a toast. *)
Record View := mkView {
  v_title : option string;
  v_description : option string;
  v_state : SileoState;
  v_icon : option string;
  v_styles : option SileoStyles;
  v_button : option SileoButton;
  v_fill : option string }.

(** The refs and variables of the refresh logic. *)
Record Refresh := mkRefresh {
  view : View;
  applied : option string;
  isExpanded : bool;
  lastRefreshKey : option string;
  swap_pending : option (string * View);       (* [pending] *)
  swapTimer : bool }.                           (* a swap timeout is set *)

(** [Boolean(description)]: the empty string is falsy. *)
Definition hasDesc (v : View) : bool :=
  match v_description v with
  | Some (String _ _) => true
  | _ => match v_button v with Some _ => true | None => false end
  end.

Definition isLoading (v : View) : bool := bool_decide (v_state v = Loading).

(** [open] *)
Definition is_open (s : Refresh) : bool :=
  hasDesc (view s) && isExpanded s && negb (isLoading (view s)).

(** The callback of [watch([refreshKey, open], ...)], with [rk] the
    current [props.refreshKey] and [next] the result of [makeView()]. *)
Definition on_refresh (rk : option string) (next : View) (s : Refresh) : Refresh :=
  match rk with
  | None => mkRefresh next None (isExpanded s) None None (swapTimer s)
  | Some k =>
      if bool_decide (lastRefreshKey s = Some k) then s
      else if is_open s
      then mkRefresh (view s) (applied s) false (Some k) (Some (k, next)) true
      else mkRefresh next (Some k) (isExpanded s) (Some k) None false
  end.

(** The swap timeout, [SWAP_COLLAPSE_MS] after it was set. *)
Definition on_swap_timeout (s : Refresh) : Refresh :=
  match swap_pending s with
  | None => mkRefresh (view s) (applied s) (isExpanded s) (lastRefreshKey s) None false
  | Some (k, payload) =>
      mkRefresh payload (Some k) (isExpanded s) (lastRefreshKey s) None false
  end.

(** [handleTransitionEnd]; [relevant] is
    [propertyName === "height" || propertyName === "transform"]. *)
Definition handleTransitionEnd (relevant : bool) (s : Refresh) : Refresh :=
  if negb relevant then s
  else if is_open s then s
  else match swap_pending s with
       | None => s
       | Some (k, payload) =>
           mkRefresh payload (Some k) (isExpanded s) (lastRefreshKey s) None false
       end.

(** [handleEnter] and [handleLeave], as far as they touch the refs above. *)
Definition handleEnter (s : Refresh) : Refresh :=
  if hasDesc (view s)
  then mkRefresh (view s) (applied s) true (lastRefreshKey s) (swap_pending s) (swapTimer s)
  else s.

Definition handleLeave (s : Refresh) : Refresh :=
  mkRefresh (view s) (applied s) false (lastRefreshKey s) (swap_pending s) (swapTimer s).

Inductive RefreshEvent :=
  | RWatch (rk : option string) (next : View)
  | RSwapTimeout
  | RTransitionEnd (relevant : bool)
  | REnter
  | RLeave
  | RAuto (expand : bool).   (* the auto expand / collapse logic sets [isExpanded] *)

(** The swap timeout runs only if it is set. *)
Definition refresh_step (s : Refresh) (e : RefreshEvent) : option Refresh :=
  match e with
  | RWatch rk next => Some (on_refresh rk next s)
  | RSwapTimeout => if swapTimer s then Some (on_swap_timeout s) else None
  | RTransitionEnd relevant => Some (handleTransitionEnd relevant s)
  | REnter => Some (handleEnter s)
  | RLeave => Some (handleLeave s)
  | RAuto b =>
      Some (mkRefresh (view s) (applied s) b (lastRefreshKey s) (swap_pending s)
              (swapTimer s))
  end.

(** The state after [setup]: the first view is shown, nothing is held back. *)
Definition refresh_initial (rk : option string) (v : View) : Refresh :=
  mkRefresh v rk false rk None false.

Inductive refresh_reachable (rk0 : option string) (v0 : View) : Refresh → Prop :=
  | refresh_start : refresh_reachable rk0 v0 (refresh_initial rk0 v0)
  | refresh_next s e s' :
      refresh_reachable rk0 v0 s → refresh_step s e = Some s' →
      refresh_reachable rk0 v0 s'.

(** A payload that is held back has its timeout set, and carries the
    last refresh key. *)
Definition held_back_ok (s : Refresh) : Prop :=
  ∀ k payload, swap_pending s = Some (k, payload) →
    swapTimer s = true ∧ lastRefreshKey s = Some k.

Definition mounted_only : list Event := [ESetup top_right None; EMount].

Definition shown_item : SileoItem := created_item (with_id "x") 1%nat (after mounted_only).

Definition at_bottom : InternalSileoOptions :=
  mkOptions (Val "x") Absent Absent Absent (Val bottom_left) Absent Absent Absent Absent
            Absent Absent Absent.

Definition shown_at_bottom : list Event := [ECreate at_bottom 1%nat].

Definition plain_view : View :=
  mkView (Some "Saved") (Some "All changes are stored") Success None None None None.

Definition open_toast : Refresh := mkRefresh plain_view (Some "1") true (Some "1") None false.

Definition holding_toast : Refresh := on_refresh (Some "2") plain_view open_toast.

(** ** SileoToast.vue: layout *)

Module ToastLayout.
Import QArith Qminmax.
Definition WIDTH : Q := 350.
Definition PILL_PADDING : Q := 10.
(** [measurePill]: the new [pillWidth]; [refs] is [None] when an element
    is not mounted, else [el.scrollWidth] and the header's horizontal
    padding. *)
Definition measurePill (refs : option (Q * Q)) (pillWidth : Q) : Q :=
  match refs with
  | None => pillWidth
  | Some (scrollWidth, pad) =>
      let w := scrollWidth + pad + PILL_PADDING in
      if Qlt_le_dec PILL_PADDING w
      then (if Qeq_bool pillWidth w then pillWidth else w)
      else pillWidth
  end.
(** The watcher of [frozenExpanded]. *)
Definition freeze (open : bool) (rawExpanded frozenExpanded : Q) : Q :=
  if open then rawExpanded else frozenExpanded.
(** [frozenExpanded] after a sequence of changes of [open], [hasDesc]
    and the measured content height; it starts as [rawExpanded], with
    content height 0. *)
Definition frozen_after (hasDesc0 : bool) (changes : list (bool * bool * Z)) : Q :=
  foldl (λ frozen '(open, hasDesc, contentHeight),
           freeze open (Toast.rawExpanded hasDesc contentHeight) frozen)
        (Toast.rawExpanded hasDesc0 0) changes.
Definition expanded (open : bool) (rawExpanded frozenExpanded : Q) : Q :=
  if open then rawExpanded else frozenExpanded.
Definition svgHeight (hasDesc : bool) (expanded : Q) : Q :=
  if hasDesc then Qmax expanded Toast.minExpanded else Toast.HEIGHT.
Definition expandedContent (expanded : Q) : Q := Qmax 0 (expanded - Toast.HEIGHT).
(** [Math.max(pillWidth || HEIGHT, HEIGHT)] *)
Definition resolvedPillWidth (pillWidth : Q) : Q :=
  Qmax (if Qeq_bool pillWidth 0 then Toast.HEIGHT else pillWidth) Toast.HEIGHT.
Definition pillX (position : PillAlign) (resolvedPillWidth : Q) : Q :=
  match position with
  | AlignRight => WIDTH - resolvedPillWidth
  | AlignCenter => (WIDTH - resolvedPillWidth) / 2
  | AlignLeft => 0
  end.
(** [--_sy] when the toast is closed: [HEIGHT / expanded]. *)
Definition closed_scale (expanded : Q) : Q := Toast.HEIGHT / expanded.
End ToastLayout.

(** ** SileoToast.vue: the timers of a toast *)

Definition SWAP_COLLAPSE_MS : Z := 200.
Definition HEADER_EXIT_MS : Z := 150.

(** What a pending [setTimeout] callback of a toast will do: drop the
    previous header layer, set [isExpanded] to [true] or to [false], or
    show the content that was held back. *)
Inductive ToastCallback := HeaderExit | AutoExpand | AutoCollapse | SwapContent.

#[global] Instance ToastCallback_eq_dec : EqDecision ToastCallback.
Proof. solve_decision. Defined.

Record ToastTimer := mkToastTimer {
  tt_delay : Z;
  tt_action : ToastCallback }.

(** The props that the auto expand / collapse logic reads. *)
Record ToastProps := mkToastProps {
  p_id : string;
  p_exiting : bool;
  p_canExpand : option bool;
  p_interruptKey : option string;
  p_autoExpandDelayMs : option Z;
  p_autoCollapseDelayMs : option Z }.

(** One [SileoToast] instance: the refs of the refresh logic, the four
    timer variables ([swapTimerId] is the variable [swapTimer]), the
    callbacks this instance has pending in the event loop, and the next
    timer handle.  Handles are positive integers. *)
Record ToastComp := mkToastComp {
  logic : Refresh;
  headerExitTimer : option nat;
  autoExpandTimer : option nat;
  autoCollapseTimer : option nat;
  swapTimerId : option nat;
  callbacks : gmap nat ToastTimer;
  nextTimer : nat;
  disposed : bool }.

Definition with_logic (r : Refresh) (s : ToastComp) : ToastComp :=
  mkToastComp r (headerExitTimer s) (autoExpandTimer s) (autoCollapseTimer s)
    (swapTimerId s) (callbacks s) (nextTimer s) (disposed s).

Definition with_callbacks (q : gmap nat ToastTimer) (s : ToastComp) : ToastComp :=
  mkToastComp (logic s) (headerExitTimer s) (autoExpandTimer s) (autoCollapseTimer s)
    (swapTimerId s) q (nextTimer s) (disposed s).

Definition with_headerExitTimer (h : option nat) (s : ToastComp) : ToastComp :=
  mkToastComp (logic s) h (autoExpandTimer s) (autoCollapseTimer s)
    (swapTimerId s) (callbacks s) (nextTimer s) (disposed s).

Definition with_autoExpandTimer (h : option nat) (s : ToastComp) : ToastComp :=
  mkToastComp (logic s) (headerExitTimer s) h (autoCollapseTimer s)
    (swapTimerId s) (callbacks s) (nextTimer s) (disposed s).

Definition with_autoCollapseTimer (h : option nat) (s : ToastComp) : ToastComp :=
  mkToastComp (logic s) (headerExitTimer s) (autoExpandTimer s) h
    (swapTimerId s) (callbacks s) (nextTimer s) (disposed s).

Definition with_swapTimerId (h : option nat) (s : ToastComp) : ToastComp :=
  mkToastComp (logic s) (headerExitTimer s) (autoExpandTimer s) (autoCollapseTimer s)
    h (callbacks s) (nextTimer s) (disposed s).

(** [isExpanded.value = b] *)
Definition set_isExpanded (b : bool) (s : ToastComp) : ToastComp :=
  with_logic (mkRefresh (view (logic s)) (applied (logic s)) b
                (lastRefreshKey (logic s)) (swap_pending (logic s))
                (swapTimer (logic s))) s.

(** [window.setTimeout(cb, delay)] called by the toast. *)
Definition toast_setTimeout (cb : ToastCallback) (delay : Z) (s : ToastComp)
    : nat * ToastComp :=
  let h := nextTimer s in
  (h, mkToastComp (logic s) (headerExitTimer s) (autoExpandTimer s)
        (autoCollapseTimer s) (swapTimerId s)
        (<[h := mkToastTimer (timer_delay delay) cb]> (callbacks s)) (S h)
        (disposed s)).

(** [if (timer) clearTimeout(timer)]: [null] and the handle 0 are falsy. *)
Definition clear_if_set (timer : option nat) (s : ToastComp) : ToastComp :=
  match timer with
  | Some (S n) => with_callbacks (delete (S n) (callbacks s)) s
  | _ => s
  end.

(** The watcher of [headerLayer.value.prev]; [prev_set] says whether the
    new value is not [null]. *)
Definition watch_prev (prev_set : bool) (s : ToastComp) : ToastComp :=
  if negb prev_set then s
  else
    let s1 := clear_if_set (headerExitTimer s) s in
    let '(h, s2) := toast_setTimeout HeaderExit HEADER_EXIT_MS s1 in
    with_headerExitTimer (Some h) s2.

(** [allowExpand] *)
Definition allowExpand (props : ToastProps) (v : View) : bool :=
  if isLoading v then false
  else
    match p_canExpand props with
    | Some b => b
    | None =>
        match p_interruptKey props with
        | None | Some EmptyString => true
        | Some k => bool_decide (k = p_id props)
        end
    end.

(** The watcher of the auto expand / collapse logic. *)
Definition watch_auto (props : ToastProps) (s : ToastComp) : ToastComp :=
  if negb (hasDesc (view (logic s))) then s
  else
    let s1 := clear_if_set (autoCollapseTimer s) (clear_if_set (autoExpandTimer s) s) in
    if p_exiting props || negb (allowExpand props (view (logic s)))
    then set_isExpanded false s1
    else
      match p_autoExpandDelayMs props, p_autoCollapseDelayMs props with
      | None, None => s1
      | e, c =>
          let expandDelay := nullish e 0 in
          let collapseDelay := nullish c 0 in
          let s2 :=
            if bool_decide (expandDelay > 0)
            then let '(h, s') := toast_setTimeout AutoExpand expandDelay s1 in
                 with_autoExpandTimer (Some h) s'
            else set_isExpanded true s1 in
          if bool_decide (collapseDelay > 0)
          then let '(h, s') := toast_setTimeout AutoCollapse collapseDelay s2 in
               with_autoCollapseTimer (Some h) s'
          else s2
      end.

(** [if (swapTimer) { clearTimeout(swapTimer); swapTimer = null; }] *)
Definition clear_swapTimer (s : ToastComp) : ToastComp :=
  match swapTimerId s with
  | Some (S n) => with_swapTimerId None (with_callbacks (delete (S n) (callbacks s)) s)
  | _ => s
  end.

(** The watcher of the refresh logic: [on_refresh] on the refs, and the
    swap timer. *)
Definition watch_refresh (rk : option string) (next : View) (s : ToastComp) : ToastComp :=
  match rk with
  | None => with_logic (on_refresh None next (logic s)) s
  | Some k =>
      if bool_decide (lastRefreshKey (logic s) = Some k) then s
      else
        let s1 := clear_swapTimer s in
        if is_open (logic s)
        then
          let '(h, s2) := toast_setTimeout SwapContent SWAP_COLLAPSE_MS s1 in
          with_swapTimerId (Some h) (with_logic (on_refresh rk next (logic s)) s2)
        else with_logic (on_refresh rk next (logic s)) s1
  end.

(** [handleTransitionEnd], with the swap timer. *)
Definition toast_transitionEnd (relevant : bool) (s : ToastComp) : ToastComp :=
  if negb relevant then s
  else if is_open (logic s) then s
  else match swap_pending (logic s) with
       | None => s
       | Some _ =>
           with_logic (handleTransitionEnd relevant (logic s)) (clear_swapTimer s)
       end.

(** A pending callback runs. *)
Definition run_toast_callback (cb : ToastCallback) (s : ToastComp) : ToastComp :=
  match cb with
  | HeaderExit => with_headerExitTimer None s
  | AutoExpand => set_isExpanded true s
  | AutoCollapse => set_isExpanded false s
  | SwapContent => with_logic (on_swap_timeout (logic s)) (with_swapTimerId None s)
  end.

(** [onUnmounted] of the toast. *)
Definition toast_onUnmounted (s : ToastComp) : ToastComp :=
  let s1 := clear_if_set (swapTimerId s)
              (clear_if_set (autoCollapseTimer s)
                (clear_if_set (autoExpandTimer s)
                  (clear_if_set (headerExitTimer s) s))) in
  mkToastComp (logic s1) (headerExitTimer s1) (autoExpandTimer s1) (autoCollapseTimer s1)
    (swapTimerId s1) (callbacks s1) (nextTimer s1) true.

Inductive ToastEvent :=
  | TPrev (prev_set : bool)
  | TAuto (props : ToastProps)
  | TRefresh (rk : option string) (next : View)
  | TTransitionEnd (relevant : bool)
  | TEnter
  | TLeave
  | TFire (h : nat)
  | TUnmount.

(** One step of a toast.  After [onUnmounted] its watchers are stopped
    and its element is gone: nothing of the above runs any more, except
    a callback that is still pending. *)
Definition toast_step (s : ToastComp) (e : ToastEvent) : option ToastComp :=
  match e with
  | TFire h =>
      match callbacks s !! h with
      | Some t => Some (run_toast_callback (tt_action t)
                          (with_callbacks (delete h (callbacks s)) s))
      | None => None
      end
  | _ =>
      if disposed s then None
      else
        match e with
        | TPrev prev_set => Some (watch_prev prev_set s)
        | TAuto props => Some (watch_auto props s)
        | TRefresh rk next => Some (watch_refresh rk next s)
        | TTransitionEnd relevant => Some (toast_transitionEnd relevant s)
        | TEnter => Some (with_logic (handleEnter (logic s)) s)
        | TLeave => Some (with_logic (handleLeave (logic s)) s)
        | TFire _ => None
        | TUnmount => Some (toast_onUnmounted s)
        end
  end.

(** The state after [setup], before the immediate run of the watchers. *)
Definition toast_initial (rk : option string) (v : View) : ToastComp :=
  mkToastComp (refresh_initial rk v) None None None None ∅ 1 false.

Inductive toast_reachable (rk0 : option string) (v0 : View) : ToastComp → Prop :=
  | toast_start : toast_reachable rk0 v0 (toast_initial rk0 v0)
  | toast_next s e s' :
      toast_reachable rk0 v0 s → toast_step s e = Some s' →
      toast_reachable rk0 v0 s'.

(** The variable that holds the handle of a callback of each kind. *)
Definition timer_variable (cb : ToastCallback) (s : ToastComp) : option nat :=
  match cb with
  | HeaderExit => headerExitTimer s
  | AutoExpand => autoExpandTimer s
  | AutoCollapse => autoCollapseTimer s
  | SwapContent => swapTimerId s
  end.

(** Writing the variable of a kind. *)
Definition store_handle (cb : ToastCallback) (h : option nat) (s : ToastComp) : ToastComp :=
  match cb with
  | HeaderExit => with_headerExitTimer h s
  | AutoExpand => with_autoExpandTimer h s
  | AutoCollapse => with_autoCollapseTimer h s
  | SwapContent => with_swapTimerId h s
  end.

(** Every pending callback of the toast has a positive handle, which is
    held in the variable of its kind; handles are fresh, and no two
    variables hold the same handle. *)
Record toast_timers_ok (s : ToastComp) : Prop := mk_toast_timers_ok {
  next_positive : (1 <= nextTimer s)%nat;
  callbacks_tracked : ∀ h t, callbacks s !! h = Some t →
      (1 <= h)%nat ∧ timer_variable (tt_action t) s = Some h;
  variables_fresh : ∀ cb h, timer_variable cb s = Some h → (h < nextTimer s)%nat;
  variables_distinct : ∀ cb1 cb2 h,
      timer_variable cb1 s = Some h → timer_variable cb2 s = Some h → cb1 = cb2 }.

(** The swap timer is pending. *)
Definition swap_live (s : ToastComp) : Prop :=
  ∃ h, swapTimerId s = Some h ∧ is_Some (callbacks s !! h).

(** The flag of the refresh logic says whether the swap timer is pending. *)
Definition swap_agrees (s : ToastComp) : Prop :=
  swapTimer (logic s) = true ↔ swap_live s.

(** A toast with a description and the default autopilot delays, after
    the auto expand / collapse logic and the header watcher have run:
    three callbacks are pending. *)
Definition autopilot_props : ToastProps :=
  mkToastProps "x" false (Some true) None (Some 150) (Some 4000).

Definition busy_toast : ToastComp :=
  watch_prev true (watch_auto autopilot_props (toast_initial (Some "1") plain_view)).

(** * Properties *)

(** ** Frames: which parts of the world an operation leaves alone *)

Lemma same_base_refl w : same_base w w.
Proof. by repeat split. Qed.

Lemma same_base_trans w1 w2 w3 : same_base w1 w2 → same_base w2 w3 → same_base w1 w3.
Proof. unfold same_base. intuition congruence. Qed.

Lemma same_store_refl w : same_store w w.
Proof. by repeat split. Qed.

Lemma same_store_trans w1 w2 w3 : same_store w1 w2 → same_store w2 w3 → same_store w1 w3.
Proof. unfold same_store. intuition congruence. Qed.

Lemma same_base_store w w' : same_base w w' → same_store w w'.
Proof. unfold same_base, same_store. intuition. Qed.

Lemma schedule_item_base w x : same_base w (schedule_item w x).
Proof.
  unfold schedule_item. destruct (exiting x); [apply same_base_refl|].
  repeat (case_bool_decide; [apply same_base_refl|]).
  by repeat split.
Qed.

Lemma foldl_schedule_base l w : same_base w (foldl schedule_item w l).
Proof.
  revert w. induction l as [|x l IH]; intros w; simpl; [apply same_base_refl|].
  eapply same_base_trans; [apply schedule_item_base | apply IH].
Qed.

Lemma schedule_base l w : same_base w (schedule l w).
Proof.
  unfold schedule. destruct (hovered w);
    [apply same_base_refl | apply foldl_schedule_base].
Qed.

Lemma clearAllTimers_base w : same_base w (clearAllTimers w).
Proof. by repeat split. Qed.

Lemma listener_store next w : same_store w (listener next w).
Proof.
  unfold listener.
  eapply same_store_trans; [|apply same_base_store, schedule_base].
  by repeat split.
Qed.

Lemma emit_store w : same_store w (emit w).
Proof.
  unfold emit. destruct (listeners w);
    [apply listener_store | apply same_store_refl].
Qed.

Lemma toasts_update fn w : toasts (update fn w) = fn (toasts w).
Proof. unfold update. by destruct (emit_store (set_toasts (fn (toasts w)) w)) as [-> _]. Qed.

(** [update] changes the store's list and nothing else of the store. *)
Lemma update_store fn w : same_store (set_toasts (fn (toasts w)) w) (update fn w).
Proof. apply emit_store. Qed.

Lemma toasts_dismissToast tid w :
  toasts (dismissToast tid w) =
    match find_id tid (toasts w) with
    | Some item => if exiting item then toasts w else mark_id tid (toasts w)
    | None => toasts w
    end.
Proof.
  unfold dismissToast. destruct (find_id tid (toasts w)) as [item|]; [|done].
  destruct (exiting item); [done|]. simpl. apply toasts_update.
Qed.

Lemma createToast_id o rnd w : fst (fst (createToast o rnd w)) = resolved_id (store_options w) o.
Proof. reflexivity. Qed.

Lemma toasts_createToast o rnd w :
  toasts (createToast o rnd w).2 =
    let tid := resolved_id (store_options w) o in
    match find_id tid (live (toasts w)) with
    | Some _ => replace_id tid (created_item o rnd w) (toasts w)
    | None => filter (λ t, id t ≠ tid) (toasts w) ++ [created_item o rnd w]
    end.
Proof.
  unfold createToast, created_item, resolved_id, live. simpl.
  destruct (find_id _ _); simpl; by rewrite toasts_update.
Qed.

Lemma toasts_updateToast tid o rnd w :
  toasts (updateToast tid o rnd w) =
    match find_id tid (toasts w) with
    | Some existing => replace_id tid (updated_item tid o rnd existing w) (toasts w)
    | None => toasts w
    end.
Proof.
  unfold updateToast, updated_item. destruct (find_id _ _); [|done].
  simpl. by rewrite toasts_update.
Qed.

Lemma toasts_clear pos w :
  toasts (sileo.clear pos w) =
    match pos with
    | Some p => filter (λ t, position t ≠ p) (toasts w)
    | None => []
    end.
Proof. unfold sileo.clear. by rewrite toasts_update. Qed.

Lemma toasts_run_callback cb w :
  toasts (run_callback cb w) =
    match cb with
    | AutoDismiss tid => toasts (dismissToast tid w)
    | RemoveExited tid => filter (λ t, id t ≠ tid) (toasts w)
    end.
Proof. destruct cb; simpl; [done | by rewrite toasts_update]. Qed.

(** ** Finding records by id *)

Lemma find_id_Some tid l t : find_id tid l = Some t → t ∈ l ∧ id t = tid.
Proof.
  unfold find_id. intros H. apply find_some in H as [Hin Hb].
  apply bool_decide_eq_true in Hb. by rewrite list_elem_of_In.
Qed.

Lemma find_id_None tid l : find_id tid l = None ↔ tid ∉ id <$> l.
Proof.
  unfold find_id. split.
  - intros H [t [-> Hin]]%list_elem_of_fmap. apply list_elem_of_In in Hin.
    pose proof (find_none _ _ H _ Hin) as Hb. simpl in Hb.
    by apply bool_decide_eq_false in Hb.
  - intros H. destruct (List.find _ l) as [t|] eqn:Hf; [|done].
    apply find_some in Hf as [Hin Hb]. apply bool_decide_eq_true in Hb.
    exfalso. apply H. apply list_elem_of_fmap. exists t. by rewrite list_elem_of_In.
Qed.

Lemma find_id_is_Some tid l : is_Some (find_id tid l) ↔ tid ∈ id <$> l.
Proof.
  destruct (find_id tid l) eqn:H.
  - split; [|by eauto]. intros _. apply find_id_Some in H as [? <-].
    by apply list_elem_of_fmap_2.
  - apply find_id_None in H. split; [by intros [? [=]] | done].
Qed.

(** ** Ids of the registry *)

Lemma ids_replace_id tid item l :
  id item = tid → id <$> replace_id tid item l = id <$> l.
Proof.
  intros Hid. unfold replace_id. rewrite <- list_fmap_compose.
  apply list_fmap_ext. intros i t _. simpl. by case_bool_decide; [congruence|].
Qed.

Lemma ids_mark_id tid l : id <$> mark_id tid l = id <$> l.
Proof.
  unfold mark_id. rewrite <- list_fmap_compose.
  apply list_fmap_ext. intros i t _. simpl. by case_bool_decide.
Qed.

Lemma id_created_item o rnd w : id (created_item o rnd w) = resolved_id (store_options w) o.
Proof. done. Qed.

Lemma exiting_created_item o rnd w : exiting (created_item o rnd w) = false.
Proof. done. Qed.

Lemma NoDup_ids_filter (P : SileoItem → Prop) `{∀ t, Decision (P t)} l :
  NoDup (id <$> l) → NoDup (id <$> filter P l).
Proof.
  intros Hnd. eapply sublist_NoDup; [exact Hnd | apply fmap_sublist, sublist_filter].
Qed.

Lemma unique_ids_dismissToast tid w : unique_ids w → unique_ids (dismissToast tid w).
Proof.
  unfold unique_ids. rewrite toasts_dismissToast.
  destruct (find_id _ _) as [item|]; [|done].
  destruct (exiting item); [done|]. by rewrite ids_mark_id.
Qed.

Lemma unique_ids_createToast o rnd w : unique_ids w → unique_ids (createToast o rnd w).2.
Proof.
  unfold unique_ids. rewrite toasts_createToast. simpl.
  destruct (find_id _ _).
  - by rewrite ids_replace_id.
  - intros Hnd. rewrite fmap_app. apply NoDup_app. split_and!.
    + by apply NoDup_ids_filter.
    + intros x [t [-> [Ht _]%list_elem_of_filter]]%list_elem_of_fmap.
      simpl. rewrite list_elem_of_singleton. done.
    + simpl. apply NoDup_singleton.
Qed.

Lemma unique_ids_updateToast tid o rnd w : unique_ids w → unique_ids (updateToast tid o rnd w).
Proof.
  unfold unique_ids. rewrite toasts_updateToast.
  destruct (find_id _ _); [|done]. by rewrite ids_replace_id.
Qed.

Lemma unique_ids_clear pos w : unique_ids w → unique_ids (sileo.clear pos w).
Proof.
  unfold unique_ids. rewrite toasts_clear. destruct pos.
  - by apply NoDup_ids_filter.
  - intros _. by apply NoDup_nil.
Qed.

Lemma unique_ids_run_callback cb w : unique_ids w → unique_ids (run_callback cb w).
Proof.
  destruct cb; simpl; [apply unique_ids_dismissToast|].
  unfold unique_ids. rewrite toasts_update. by apply NoDup_ids_filter.
Qed.

Lemma unique_ids_step w e w' : step w e = Some w' → unique_ids w → unique_ids w'.
Proof.
  destruct e; simpl; intros Hs Hu; repeat case_bool_decide; simplify_eq;
    try done.
  - by apply unique_ids_createToast.
  - by apply unique_ids_updateToast.
  - by apply unique_ids_dismissToast.
  - by apply unique_ids_clear.
  - unfold enter. simpl. by destruct (hovered w).
  - unfold leave. simpl. destruct (hovered w); [|done].
    unfold unique_ids.
    by destruct (schedule_base (vtoasts w) (set_hovered false (set_activeId (latest (vtoasts w)) w))) as [-> _].
  - by apply unique_ids_dismissToast.
  - destruct (pending w !! h) as [t|]; [|done]. case_bool_decide; simplify_eq.
    by apply unique_ids_run_callback.
Qed.

Lemma reachable_unique_ids w : reachable w → unique_ids w.
Proof.
  induction 1 as [|w e w' _ IH Hs]; [by apply NoDup_nil | by eapply unique_ids_step].
Qed.

(** A run from the initial world ends in a reachable world. *)
Lemma run_reachable es w : run initial es = Some w → reachable w.
Proof.
  assert (∀ w0, reachable w0 → run w0 es = Some w → reachable w) as H.
  { induction es as [|e es IH]; intros w0 Hr; simpl.
    - by intros [= <-].
    - destruct (step w0 e) as [w1|] eqn:Hs; [|done].
      apply IH. by eapply reachable_step. }
  apply H, reachable_initial.
Qed.



(** ** The timer discipline *)

Lemma timer_delay_nonneg d : 0 <= timer_delay d.
Proof. unfold timer_delay. lia. Qed.

(** Delays in the range of a 32-bit signed integer are kept. *)
Lemma timer_delay_in_range d : 0 <= d < 2 ^ 31 → timer_delay d = d.
Proof.
  intros Hd. unfold timer_delay, ToInt32.
  rewrite Z.mod_small by lia. lia.
Qed.

(** The first delay that is out of range gives a timer that is due at once. *)
Lemma timer_delay_wraps : timer_delay (2 ^ 31) = 0.
Proof. reflexivity. Qed.

Lemma lookup_clearTimeouts hs (p : gmap nat Timer) h t :
  clearTimeouts hs p !! h = Some t ↔ p !! h = Some t ∧ h ∉ hs.
Proof.
  unfold clearTimeouts. induction hs as [|x hs IH]; simpl.
  - split; [intros H; split; [done | by intros ?%elem_of_nil] | by intros [? _]].
  - rewrite lookup_delete_Some, IH, not_elem_of_cons. intuition congruence.
Qed.

Lemma elem_of_handles (m : gmap Key nat) h : h ∈ handles m ↔ ∃ k, m !! k = Some h.
Proof.
  unfold handles. rewrite list_elem_of_fmap. split.
  - intros [[k h'] [-> Hin]]. exists k. by apply elem_of_map_to_list.
  - intros [k Hk]. exists (k, h). split; [done | by apply elem_of_map_to_list].
Qed.

Lemma timers_ok_schedule_item w x : timers_ok w → timers_ok (schedule_item w x).
Proof.
  intros [H1 H2 H3 H4 H5]. unfold schedule_item.
  destruct (exiting x); [done|].
  case_bool_decide as Hk; [done|].
  case_bool_decide as Hd; [done|].
  simpl. split; simpl.
  - intros h t [[-> <-]|[? Hp]]%lookup_insert_Some; [lia|]. apply H1 in Hp. lia.
  - intros k h [[<- <-]|[? Hp]]%lookup_insert_Some; [lia|]. apply H2 in Hp. lia.
  - intros h t tid [[<- <-]|[Hne Hp]]%lookup_insert_Some Hc.
    + exists (timeoutKey x). by rewrite lookup_insert_eq.
    + destruct (H3 _ _ _ Hp Hc) as [k Hk']. exists k.
      rewrite lookup_insert_ne; [done|]. intros <-. apply Hk. by eexists.
  - intros h t tid k [[<- <-]|[Hne Hp]]%lookup_insert_Some Hc; [done|].
    intros [[_ ?]|[_ Ht]]%lookup_insert_Some; [done|]. by eapply H4.
  - intros h t [[<- <-]|[Hne Hp]]%lookup_insert_Some; simpl; [| by eapply H5].
    pose proof (timer_delay_nonneg (nullish (item_duration x) DEFAULT_DURATION)). lia.
Qed.

Lemma timers_ok_foldl_schedule l w : timers_ok w → timers_ok (foldl schedule_item w l).
Proof.
  revert w. induction l as [|x l IH]; intros w Hw; simpl; [done|].
  by apply IH, timers_ok_schedule_item.
Qed.

Lemma timers_ok_schedule l w : timers_ok w → timers_ok (schedule l w).
Proof.
  unfold schedule. destruct (hovered w); [done | apply timers_ok_foldl_schedule].
Qed.

(** Removing table entries together with their timers. *)
Lemma timers_ok_prune (P : Key * nat → Prop) `{∀ x, Decision (P x)} w :
  timers_ok w →
  timers_ok (set_timers (filter P (timers w))
              (set_pending (clearTimeouts (handles (filter (λ kh, ¬ P kh) (timers w)))
                             (pending w)) w)).
Proof.
  intros [H1 H2 H3 H4 H5]. split; simpl.
  - intros h t [Hp _]%lookup_clearTimeouts. by eapply H1.
  - intros k h [Hk _]%map_lookup_filter_Some. by eapply H2.
  - intros h t tid [Hp Hn]%lookup_clearTimeouts Hc.
    destruct (H3 _ _ _ Hp Hc) as [k Hk]. exists k.
    apply map_lookup_filter_Some. split; [done|].
    destruct (decide (P (k, h))) as [|HnP]; [done|].
    exfalso. apply Hn, elem_of_handles. exists k.
    by apply map_lookup_filter_Some.
  - intros h t tid k [Hp _]%lookup_clearTimeouts Hc [Hk _]%map_lookup_filter_Some.
    by eapply H4.
  - intros h t [Hp _]%lookup_clearTimeouts. by eapply H5.
Qed.

Lemma timers_ok_clearAllTimers w : timers_ok w → timers_ok (clearAllTimers w).
Proof.
  intros [H1 H2 H3 H4 H5]. unfold clearAllTimers. split; simpl.
  - intros h t [Hp _]%lookup_clearTimeouts. by eapply H1.
  - intros k h. by rewrite lookup_empty.
  - intros h t tid [Hp Hn]%lookup_clearTimeouts Hc.
    destruct (H3 _ _ _ Hp Hc) as [k Hk]. exfalso. apply Hn, elem_of_handles. eauto.
  - intros h t tid k _ _. by rewrite lookup_empty.
  - intros h t [Hp _]%lookup_clearTimeouts. by eapply H5.
Qed.

Lemma timers_empty_no_auto w : timers_ok w → timers w = ∅ → no_auto_pending w.
Proof.
  intros Hok He h t Hp. destruct (callback t) as [tid|tid] eqn:Hc; [|by eauto].
  destruct (auto_recorded _ Hok _ _ _ Hp Hc) as [k Hk].
  rewrite He, lookup_empty in Hk. done.
Qed.

(** Fields that the timer discipline reads. *)
Lemma timers_ok_ext w w' :
  pending w' = pending w → timers w' = timers w → nextHandle w' = nextHandle w →
  now w' = now w → timers_ok w → timers_ok w'.
Proof.
  intros Hp Ht Hn Hnow [H1 H2 H3 H4 H5].
  split; rewrite ?Hp, ?Ht, ?Hn, ?Hnow; eauto.
Qed.

Lemma timers_ok_listener next w : timers_ok w → timers_ok (listener next w).
Proof.
  intros Hok. unfold listener. apply timers_ok_schedule.
  eapply timers_ok_ext; [..| apply (timers_ok_prune (λ kh, kh.1 ∈ timeoutKey <$> next) w Hok)];
    try done.
Qed.

Lemma timers_ok_emit w : timers_ok w → timers_ok (emit w).
Proof. unfold emit. destruct (listeners w); [apply timers_ok_listener | done]. Qed.

Lemma timers_ok_update fn w : timers_ok w → timers_ok (update fn w).
Proof.
  intros Hok. unfold update. apply timers_ok_emit.
  by eapply timers_ok_ext; [..|exact Hok].
Qed.

(** A removal timer gets a fresh handle, which the table does not hold. *)
Lemma timers_ok_setTimeout_removal tid delay w :
  0 <= delay → timers_ok w → timers_ok (setTimeout (RemoveExited tid) delay w).2.
Proof.
  intros Hd [H1 H2 H3 H4 H5]. split; simpl.
  - intros h t [[<- <-]|[? Hp]]%lookup_insert_Some; [lia|]. apply H1 in Hp. lia.
  - intros k h Hk. apply H2 in Hk. lia.
  - intros h t tid' [[<- <-]|[Hne Hp]]%lookup_insert_Some Hc; [done | by eapply H3].
  - intros h t tid' k [[<- <-]|[Hne Hp]]%lookup_insert_Some Hc.
    + intros Hk. apply H2 in Hk. lia.
    + by eapply H4.
  - intros h t [[<- <-]|[Hne Hp]]%lookup_insert_Some; simpl; [| by eapply H5].
    pose proof (timer_delay_nonneg delay). lia.
Qed.

Lemma EXIT_DURATION_600 : EXIT_DURATION = 600.
Proof. reflexivity. Qed.

Lemma timers_ok_dismissToast tid w : timers_ok w → timers_ok (dismissToast tid w).
Proof.
  intros Hok. unfold dismissToast. destruct (find_id _ _) as [item|]; [|done].
  destruct (exiting item); [done|].
  apply timers_ok_setTimeout_removal; [by rewrite EXIT_DURATION_600 | by apply timers_ok_update].
Qed.

Lemma timers_ok_createToast o rnd w : timers_ok w → timers_ok (createToast o rnd w).2.
Proof.
  intros Hok. unfold createToast. simpl.
  destruct (find_id _ _); apply timers_ok_update;
    by eapply timers_ok_ext; [..|exact Hok].
Qed.

Lemma timers_ok_updateToast tid o rnd w : timers_ok w → timers_ok (updateToast tid o rnd w).
Proof.
  intros Hok. unfold updateToast. destruct (find_id _ _); [|done]. simpl.
  apply timers_ok_update. by eapply timers_ok_ext; [..|exact Hok].
Qed.

Lemma timers_ok_run_callback cb w : timers_ok w → timers_ok (run_callback cb w).
Proof. destruct cb; [apply timers_ok_dismissToast | apply timers_ok_update]. Qed.

Lemma timers_ok_fired h w : timers_ok w → timers_ok (set_pending (delete h (pending w)) w).
Proof.
  intros [H1 H2 H3 H4 H5]. split; simpl.
  - intros h' t [_ Hp]%lookup_delete_Some. by eapply H1.
  - done.
  - intros h' t tid [_ Hp]%lookup_delete_Some. by eapply H3.
  - intros h' t tid k [_ Hp]%lookup_delete_Some. by eapply H4.
  - intros h' t [_ Hp]%lookup_delete_Some. by eapply H5.
Qed.

Lemma gate_ok_ext w w' :
  hovered w' = hovered w → phase w' = phase w → listeners w' = listeners w →
  timers w' = timers w → gate_ok w → gate_ok w'.
Proof.
  intros Hh Hp Hl Ht [H1 H2 H3]. split; rewrite ?Hh, ?Hp, ?Hl, ?Ht; eauto.
Qed.

Lemma gate_ok_same_store w w' :
  same_store w w' → timers w' = timers w → gate_ok w → gate_ok w'.
Proof. intros (_ & Hl & _ & _ & _ & Hp & _ & _ & Hh & _) Ht. by apply gate_ok_ext. Qed.

Lemma gate_ok_schedule l w : phase w = Mounted → gate_ok w → gate_ok (schedule l w).
Proof.
  intros Hm Hg. pose proof (schedule_base l w) as Hb.
  destruct Hb as (_ & Hl & _ & _ & _ & Hp & _ & _ & Hh & _).
  unfold schedule in *. destruct (hovered w) eqn:Hhov; [done|].
  split.
  - rewrite Hh. done.
  - rewrite Hp, Hm. done.
  - rewrite Hl, Hp. apply (listening_mounted _ Hg).
Qed.

Lemma gate_ok_listener next w : phase w = Mounted → gate_ok w → gate_ok (listener next w).
Proof.
  intros Hm [H1 H2 H3]. unfold listener. apply gate_ok_schedule; [done|].
  split; simpl.
  - intros Hh. rewrite (H1 Hh). apply map_filter_empty.
  - by rewrite Hm.
  - done.
Qed.

Lemma gate_ok_emit w : gate_ok w → gate_ok (emit w).
Proof.
  intros Hg. unfold emit. destruct (listeners w) eqn:Hl; [|done].
  apply gate_ok_listener; [by apply (listening_mounted _ Hg) | done].
Qed.

Lemma gate_ok_update fn w : gate_ok w → gate_ok (update fn w).
Proof. intros Hg. unfold update. apply gate_ok_emit. by eapply gate_ok_ext; [..|exact Hg]. Qed.

Lemma gate_ok_dismissToast tid w : gate_ok w → gate_ok (dismissToast tid w).
Proof.
  intros Hg. unfold dismissToast. destruct (find_id _ _) as [item|]; [|done].
  destruct (exiting item); [done|].
  eapply gate_ok_ext; [..|eapply gate_ok_update, Hg]; done.
Qed.

Lemma gate_ok_createToast o rnd w : gate_ok w → gate_ok (createToast o rnd w).2.
Proof.
  intros Hg. unfold createToast. simpl.
  destruct (find_id _ _); apply gate_ok_update; by eapply gate_ok_ext; [..|exact Hg].
Qed.

Lemma gate_ok_updateToast tid o rnd w : gate_ok w → gate_ok (updateToast tid o rnd w).
Proof.
  intros Hg. unfold updateToast. destruct (find_id _ _); [|done]. simpl.
  apply gate_ok_update. by eapply gate_ok_ext; [..|exact Hg].
Qed.

Lemma gate_ok_run_callback cb w : gate_ok w → gate_ok (run_callback cb w).
Proof. destruct cb; [apply gate_ok_dismissToast | apply gate_ok_update]. Qed.

Lemma gate_ok_clearAllTimers w : gate_ok w → gate_ok (clearAllTimers w).
Proof. intros [H1 H2 H3]. by split. Qed.

Lemma Inv_initial : Inv initial.
Proof.
  by split; split.
Qed.

Lemma Inv_step w e w' : step w e = Some w' → Inv w → Inv w'.
Proof.
  destruct e; simpl; intros Hs [Hok Hg]; repeat case_bool_decide; simplify_eq.
  - split; [by apply timers_ok_createToast | by apply gate_ok_createToast].
  - split; [by apply timers_ok_updateToast | by apply gate_ok_updateToast].
  - split; [by apply timers_ok_dismissToast | by apply gate_ok_dismissToast].
  - split; [by apply timers_ok_update | by apply gate_ok_update].
  - assert (timers w = ∅) as He by (apply (unmounted_empty _ Hg); congruence).
    split.
    + by eapply timers_ok_ext; [..|exact Hok].
    + destruct Hg as [H1 H2 H3]. split; simpl; [done..|].
      rewrite H3. split; intros; congruence.
  - assert (timers w = ∅) as He by (apply (unmounted_empty _ Hg); congruence).
    split.
    + by eapply timers_ok_ext; [..|exact Hok].
    + by split.
  - split.
    + apply timers_ok_clearAllTimers. by eapply timers_ok_ext; [..|exact Hok].
    + by split.
  - split.
    + by eapply timers_ok_ext; [..|exact Hok].
    + by eapply gate_ok_ext; [..|exact Hg].
  - unfold enter. simpl. destruct (hovered w) eqn:Hh.
    + split; [by eapply timers_ok_ext; [..|exact Hok]|].
      eapply gate_ok_ext; [..|exact Hg]; done.
    + split.
      * apply timers_ok_clearAllTimers. by eapply timers_ok_ext; [..|exact Hok].
      * destruct Hg as [H1 H2 H3]. by split.
  - unfold leave. simpl. destruct (hovered w) eqn:Hh.
    + split.
      * apply timers_ok_schedule. by eapply timers_ok_ext; [..|exact Hok].
      * apply gate_ok_schedule; [done|].
        destruct Hg as [H1 H2 H3]. split; simpl; [done | by rewrite H | done].
    + split; [by eapply timers_ok_ext; [..|exact Hok]|].
      eapply gate_ok_ext; [..|exact Hg]; done.
  - split; [by apply timers_ok_dismissToast | by apply gate_ok_dismissToast].
  - destruct (pending w !! h) as [t|]; [|done]. case_bool_decide; simplify_eq.
    split.
    + by apply timers_ok_run_callback, timers_ok_fired.
    + apply gate_ok_run_callback. by eapply gate_ok_ext; [..|exact Hg].
  - split.
    + destruct Hok as [H1 H2 H3 H4 H5]. split; simpl; try done.
      intros h t Hp. destruct H as [_ Hall]. by apply (Hall h t).
    + by eapply gate_ok_ext; [..|exact Hg].
  - split.
    + by eapply timers_ok_ext; [..|exact Hok].
    + by eapply gate_ok_ext; [..|exact Hg].
Qed.

Lemma reachable_Inv w : reachable w → Inv w.
Proof. induction 1; [apply Inv_initial | by eapply Inv_step]. Qed.


(** C9: for a toast with describable content the expanded height is the
    maximum of 90 and 40 plus the measured content height, where 90 is
    the collapsed height times 2.25; it is never below that floor. *)
Theorem rawExpanded_floor (h : Z) :
  QArith_base.Qeq Toast.minExpanded (QArith_base.inject_Z 90) ∧
  QArith_base.Qeq (Toast.rawExpanded true h)
    (Qminmax.Qmax (QArith_base.inject_Z 90) (QArith_base.Qplus (QArith_base.inject_Z 40) (QArith_base.inject_Z h))) ∧
  QArith_base.Qle (QArith_base.Qmult Toast.MIN_EXPAND_RATIO Toast.HEIGHT) (Toast.rawExpanded true h).
Proof.
  assert (QArith_base.Qeq Toast.minExpanded (QArith_base.inject_Z 90)) as Hm by reflexivity.
  split_and!; [done| |].
  - unfold Toast.rawExpanded. apply Qminmax.Q.max_compat; [exact Hm | reflexivity].
  - unfold Toast.rawExpanded.
    eapply QArith_base.Qle_trans; [|apply Qminmax.Q.le_max_l].
    unfold Toast.minExpanded. rewrite QArith_base.Qmult_comm. apply QArith_base.Qle_refl.
Qed.

Lemma resolveAutopilot_off m d :
  read (autopilot m) = Some (AutoBool false) ∨ d <= 0 →
  resolveAutopilot m (Some d) = mkDelays None None.
Proof.
  unfold resolveAutopilot. intros [->|Hd]; [done|].
  destruct (read (autopilot m)) as [[[]|]|]; try done;
    repeat case_bool_decide; simpl; try done; lia.
Qed.

Lemma resolveAutopilot_on m d :
  read (autopilot m) ≠ Some (AutoBool false) → 0 < d →
  resolveAutopilot m (Some d) =
    mkDelays (Some (clamp d (nullish (autopilot_expand m) AUTO_EXPAND_DELAY)))
             (Some (clamp d (nullish (autopilot_collapse m) AUTO_COLLAPSE_DELAY))).
Proof.
  unfold resolveAutopilot, autopilot_expand, autopilot_collapse. intros Hap Hd.
  destruct (read (autopilot m)) as [[[]|]|]; try done;
    repeat case_bool_decide; simpl; try done; lia.
Qed.

Lemma clamp_bounds d v : 0 <= d → 0 <= clamp d v <= d.
Proof. unfold clamp. lia. Qed.

(** C4 (amended): [resolveAutopilot(opts, duration)] leaves both
    delays unset when [autopilot] is [false] or the duration is null or
    not positive; otherwise the expand delay is [autopilot.expand], by
    default 150, and the collapse delay is [autopilot.collapse], by
    default the constant 4000, each clamped into [0, duration]; with
    duration 6000 and no configuration they are 150 and 4000.  A record
    built from options that give a number as duration, or no duration
    and so take the default 6000, carries the delays of that duration. *)
Theorem autopilot_delays m dur tid fb fresh sp :
  let a := resolveAutopilot m dur in
  (read (autopilot m) = Some (AutoBool false) ∨ dur = None ∨
   (∃ d, dur = Some d ∧ d <= 0) →
     expandDelayMs a = None ∧ collapseDelayMs a = None) ∧
  (∀ d, dur = Some d → read (autopilot m) ≠ Some (AutoBool false) → 0 < d →
     ∃ e c, expandDelayMs a = Some e ∧ collapseDelayMs a = Some c ∧
       e = clamp d (nullish (autopilot_expand m) 150) ∧
       c = clamp d (nullish (autopilot_collapse m) 4000) ∧
       0 <= e <= d ∧ 0 <= c <= d) ∧
  (dur = Some 6000 →
   read (autopilot m) = None ∨ read (autopilot m) = Some (AutoBool true) →
     expandDelayMs a = Some 150 ∧ collapseDelayMs a = Some 4000) ∧
  (∀ d, given_duration m = Some d →
     let item := buildSileoItem m tid fb fresh sp in
     autoExpandDelayMs item = expandDelayMs (resolveAutopilot m (Some d)) ∧
     autoCollapseDelayMs item = collapseDelayMs (resolveAutopilot m (Some d))).
Proof.
  cbv zeta. split_and!.
  - intros [Hoff | [-> | (d & -> & Hd)]].
    + unfold resolveAutopilot. rewrite Hoff. by destruct dur.
    + unfold resolveAutopilot. by destruct (read (autopilot m)) as [[[]|]|].
    + rewrite resolveAutopilot_off; [done | by right].
  - intros d -> Hap Hd. rewrite (resolveAutopilot_on _ _ Hap Hd). simpl.
    eexists _, _. split_and!; try reflexivity; apply clamp_bounds; lia.
  - intros -> Hap. rewrite resolveAutopilot_on; [|destruct Hap as [->| ->]; done | lia].
    unfold autopilot_expand, autopilot_collapse.
    by destruct Hap as [->| ->].
  - intros d Hd. unfold buildSileoItem. simpl.
    assert (nullish (read_nullable (duration m)) DEFAULT_DURATION = d) as ->; [|done].
    unfold given_duration in Hd. by destruct (duration m) as [| |[]]; simplify_eq.
Qed.

(** C4, as stated, fails: with duration 10000 and no configuration the
    collapse delay is 4000, not 10000 - 2000. *)
Lemma collapse_default_ignores_duration :
  autoCollapseDelayMs long_toast = Some 4000 ∧
  resolved_duration (merged long_toast) = 10000 ∧
  autoCollapseDelayMs long_toast ≠ Some (clamp 10000 (10000 - 2000)).
Proof. by split_and!. Qed.



Lemma filter_none {A} (P : A → Prop) `{∀ x, Decision (P x)} (l : list A) :
  (∀ x, x ∈ l → ¬ P x) → filter P l = [].
Proof.
  induction l as [|x l IH]; intros Hall; [done|].
  rewrite filter_cons_False by (apply Hall; left).
  apply IH. intros y Hy. apply Hall. by right.
Qed.


Lemma elem_of_live t l : t ∈ live l ↔ exiting t = false ∧ t ∈ l.
Proof. unfold live. by rewrite list_elem_of_filter. Qed.

Lemma created_item_in o rnd w : created_item o rnd w ∈ toasts (createToast o rnd w).2.
Proof.
  rewrite toasts_createToast. simpl.
  destruct (find_id _ _) as [p|] eqn:Hf.
  - apply find_id_Some in Hf as [[_ Hin]%elem_of_live Hid].
    unfold replace_id. apply list_elem_of_fmap. exists p. split; [|done].
    by rewrite bool_decide_eq_true_2.
  - apply elem_of_app. right. by apply list_elem_of_singleton.
Qed.




Lemma reachable_createToast o rnd w : reachable w → reachable (createToast o rnd w).2.
Proof. intros Hr. by apply (reachable_step w (ECreate o rnd)). Qed.













Lemma find_replace_live tid item (r : list SileoItem) :
  id item = tid → exiting item = false →
  (∀ t, t ∈ r → id t = tid → exiting t = false) →
  id <$> List.find (λ t, negb (exiting t)) (replace_id tid item r)
  = id <$> List.find (λ t, negb (exiting t)) r.
Proof.
  intros Hid Hex. induction r as [|x r IH]; intros Hall; [done|].
  unfold replace_id in *. rewrite fmap_cons. simpl.
  case_bool_decide as Hx.
  - rewrite Hex, (Hall x) by (done || left). simpl. congruence.
  - destruct (exiting x); simpl; [|done]. apply IH. intros t Ht. apply Hall. by right.
Qed.

Lemma latest_replace_id tid item l :
  id item = tid → exiting item = false →
  (∀ t, t ∈ l → id t = tid → exiting t = false) →
  latest (replace_id tid item l) = latest l.
Proof.
  intros Hid Hex Hall. unfold latest.
  assert (reverse (replace_id tid item l) = replace_id tid item (reverse l)) as ->.
  { unfold replace_id. by rewrite fmap_reverse. }
  apply find_replace_live; [done..|].
  intros t Ht. apply Hall. by apply elem_of_reverse.
Qed.

(** With unique ids, two records of the list with one id are one record. *)
Lemma unique_ids_eq (l : list SileoItem) t1 t2 :
  NoDup (id <$> l) → t1 ∈ l → t2 ∈ l → id t1 = id t2 → t1 = t2.
Proof.
  intros Hnd [i Hi]%list_elem_of_lookup [j Hj]%list_elem_of_lookup Hid.
  assert (i = j) as ->.
  { eapply NoDup_lookup; [exact Hnd | |].
    - rewrite list_lookup_fmap, Hi. done.
    - rewrite list_lookup_fmap, Hj. simpl. by rewrite Hid. }
  congruence.
Qed.

Lemma vtoasts_listener next w : vtoasts (listener next w) = next.
Proof.
  unfold listener.
  match goal with |- vtoasts (schedule _ ?x) = _ =>
    by destruct (schedule_base next x) as (_&_&_&_&_&_&_&_&_&_&->&_) end.
Qed.

Lemma activeId_listener next w : activeId (listener next w) = latest next.
Proof.
  unfold listener.
  match goal with |- activeId (schedule _ ?x) = _ =>
    by destruct (schedule_base next x) as (_&_&_&_&_&_&_&_&_&_&_&->) end.
Qed.

Lemma activeId_update_generateId rnd w fn :
  listeners w = true →
  activeId (update fn (generateId rnd w).2) = latest (fn (toasts w)).
Proof. intros Hl. unfold update, emit. simpl. rewrite Hl. by rewrite activeId_listener. Qed.

(** [createToast], with its local bindings named. *)
Lemma createToast_world o rnd w :
  (createToast o rnd w).2 =
    let tid := resolved_id (store_options w) o in
    let item := created_item o rnd w in
    match find_id tid (live (toasts w)) with
    | Some _ => update (replace_id tid item) (generateId rnd w).2
    | None => update (λ p, filter (λ t, id t ≠ tid) p ++ [item]) (generateId rnd w).2
    end.
Proof. reflexivity. Qed.

(** C10: when [createToast] resolves to the id of a record that is not
    exiting, the new record is written at the index of the record it
    replaces, every other index and the order of the ids are unchanged,
    the list keeps its length, and [latest] (hence the viewport's active
    id) is the same as before. *)
Theorem createToast_replaces_in_place (w : World) (o : InternalSileoOptions) (rnd : nat) (prev : SileoItem) :
  reachable w →
  find_id (resolved_id (store_options w) o) (live (toasts w)) = Some prev →
  let w' := (createToast o rnd w).2 in
  (∃ i, toasts w !! i = Some prev ∧
        toasts w' !! i = Some (created_item o rnd w) ∧
        ∀ j, j ≠ i → toasts w' !! j = toasts w !! j) ∧
  length (toasts w') = length (toasts w) ∧
  id <$> toasts w' = id <$> toasts w ∧
  latest (toasts w') = latest (toasts w) ∧
  (listeners w = true → activeId w' = latest (toasts w)).
Proof.
  intros Hr Hf. cbv zeta.
  pose proof (reachable_unique_ids _ Hr) as Hnd. unfold unique_ids in Hnd.
  pose proof (toasts_createToast o rnd w) as Ht. cbv zeta in Ht. rewrite Hf in Ht.
  pose proof Hf as Hf'.
  apply find_id_Some in Hf' as [[Hlive Hin]%elem_of_live Hid].
  assert (latest (replace_id (resolved_id (store_options w) o) (created_item o rnd w)
                    (toasts w)) = latest (toasts w)) as Hlat.
  { apply latest_replace_id; [done..|]. intros t Ht' Hidt.
    by rewrite (unique_ids_eq _ t prev Hnd Ht' Hin) by congruence. }
  rewrite Ht. split_and!.
  - apply list_elem_of_lookup in Hin as [i Hi]. exists i. split_and!; [done| |].
    + unfold replace_id. rewrite list_lookup_fmap, Hi. simpl.
      by rewrite bool_decide_eq_true_2.
    + intros j Hj. unfold replace_id. rewrite list_lookup_fmap.
      destruct (toasts w !! j) as [t|] eqn:Hjt; [|done]. simpl.
      rewrite bool_decide_eq_false_2; [done|]. intros Hidt. apply Hj.
      eapply NoDup_lookup; [exact Hnd | |].
      * rewrite list_lookup_fmap, Hjt. simpl. by rewrite Hidt.
      * rewrite list_lookup_fmap, Hi. simpl. by rewrite Hid.
  - unfold replace_id. by rewrite length_fmap.
  - by apply ids_replace_id.
  - done.
  - intros Hl. rewrite <- Hlat.
    rewrite createToast_world. cbv zeta. rewrite Hf.
    by rewrite (activeId_update_generateId _ _ _ Hl).
Qed.

Lemma createToast_replaces_in_place_witness :
  length (toasts (createToast (with_id "x") 2%nat (after shown)).2)
  = length (toasts (after shown)).
Proof.
  refine (proj1 (proj2 (createToast_replaces_in_place (after shown) (with_id "x") 2%nat
                   (created_item (with_id "x") 1%nat initial) _ _))).
  - apply (run_reachable shown). vm_compute. reflexivity.
  - vm_compute. reflexivity.
Defined.



Lemma vtoasts_update fn w :
  vtoasts (update fn w) = if listeners w then fn (toasts w) else vtoasts w.
Proof.
  unfold update, emit. simpl. destruct (listeners w); [|done].
  by rewrite vtoasts_listener.
Qed.

Lemma vtoasts_setTimeout cb d w : vtoasts (setTimeout cb d w).2 = vtoasts w.
Proof. done. Qed.

Lemma vtoasts_dismissToast tid w :
  vtoasts (dismissToast tid w) = vtoasts w ∨
  vtoasts (dismissToast tid w) = toasts (dismissToast tid w).
Proof.
  rewrite toasts_dismissToast. unfold dismissToast.
  destruct (find_id _ _) as [item|]; [|by left].
  destruct (exiting item); [by left|].
  rewrite vtoasts_setTimeout, vtoasts_update. fold (mark_id tid (toasts w)).
  destruct (listeners w); [by right | by left].
Qed.

Lemma vtoasts_createToast o rnd w :
  vtoasts (createToast o rnd w).2 = vtoasts w ∨
  vtoasts (createToast o rnd w).2 = toasts (createToast o rnd w).2.
Proof.
  rewrite createToast_world. cbv zeta.
  destruct (find_id _ _); rewrite vtoasts_update, toasts_update; simpl;
    destruct (listeners w); auto.
Qed.

Lemma vtoasts_updateToast tid o rnd w :
  vtoasts (updateToast tid o rnd w) = vtoasts w ∨
  vtoasts (updateToast tid o rnd w) = toasts (updateToast tid o rnd w).
Proof.
  unfold updateToast. destruct (find_id _ _); [|by left].
  simpl. rewrite vtoasts_update, toasts_update. simpl.
  destruct (listeners w); auto.
Qed.

Lemma vtoasts_run_callback cb w :
  vtoasts (run_callback cb w) = vtoasts w ∨
  vtoasts (run_callback cb w) = toasts (run_callback cb w).
Proof.
  destruct cb; simpl; [apply vtoasts_dismissToast|].
  rewrite vtoasts_update, toasts_update. destruct (listeners w); auto.
Qed.

Lemma vtoasts_step w e w' :
  step w e = Some w' → vtoasts w' = vtoasts w ∨ vtoasts w' = toasts w'.
Proof.
  destruct e; simpl; intros Hs; repeat case_bool_decide; simplify_eq; auto.
  - apply vtoasts_createToast.
  - apply vtoasts_updateToast.
  - apply vtoasts_dismissToast.
  - unfold sileo.clear. rewrite vtoasts_update, toasts_update.
    destruct (listeners w); auto.
  - unfold enter. simpl. destruct (hovered w); auto.
  - unfold leave. simpl. destruct (hovered w); [|auto]. left.
    match goal with |- vtoasts (schedule _ ?x) = _ =>
      by destruct (schedule_base (vtoasts w) x) as (_&_&_&_&_&_&_&_&_&_&->&_) end.
  - apply vtoasts_dismissToast.
  - destruct (pending w !! h) as [t|]; [|done]. case_bool_decide; simplify_eq.
    apply (vtoasts_run_callback (callback t) (set_pending (delete h (pending w)) w)).
Qed.

Lemma reachable_unique_vtoasts w : reachable w → NoDup (id <$> vtoasts w).
Proof.
  induction 1 as [|w e w' Hr IH Hs]; [by apply NoDup_nil|].
  destruct (vtoasts_step _ _ _ Hs) as [-> | ->]; [done|].
  apply (reachable_unique_ids w'). by eapply reachable_step.
Qed.

Lemma NoDup_timeoutKey (l : list SileoItem) : NoDup (id <$> l) → NoDup (timeoutKey <$> l).
Proof.
  intros Hnd. apply (NoDup_fmap_1 fst). rewrite <- list_fmap_compose.
  by rewrite (list_fmap_ext (fst ∘ timeoutKey) id l) by done.
Qed.

Lemma scheduled_schedule_item w x r t0 :
  timers_ok w → scheduled w r t0 → scheduled (schedule_item w x) r t0.
Proof.
  intros Hok (h & Hk & Hp). unfold schedule_item.
  destruct (exiting x); [by exists h|].
  case_bool_decide as Hx; [by exists h|].
  case_bool_decide; [by exists h|].
  exists h. simpl. split.
  - rewrite lookup_insert_ne; [done|]. intros Heq. apply Hx. rewrite Heq. by eexists.
  - rewrite lookup_insert_ne; [done|].
    pose proof (timers_fresh _ Hok _ _ Hk). lia.
Qed.

Lemma scheduled_foldl l w r t0 :
  timers_ok w → scheduled w r t0 → scheduled (foldl schedule_item w l) r t0.
Proof.
  revert w. induction l as [|x l IH]; intros w Hok Hs; [done|].
  simpl. apply IH; [by apply timers_ok_schedule_item | by apply scheduled_schedule_item].
Qed.

Lemma schedule_item_new w r :
  timers w !! timeoutKey r = None → exiting r = false → 0 < nominal r →
  scheduled (schedule_item w r) r (now w).
Proof.
  intros Hk Hex Hd. unfold schedule_item. rewrite Hex.
  rewrite bool_decide_eq_false_2 by (rewrite Hk; by intros [? ?]).
  fold (nominal r). rewrite bool_decide_eq_false_2 by lia.
  exists (nextHandle w). simpl. by rewrite !lookup_insert_eq.
Qed.

Lemma timers_schedule_item_None w x k :
  timers w !! k = None → k ≠ timeoutKey x → timers (schedule_item w x) !! k = None.
Proof.
  intros Hk Hne. unfold schedule_item. destruct (exiting x); [done|].
  repeat (case_bool_decide; [done|]). simpl. by rewrite lookup_insert_ne.
Qed.

Lemma foldl_schedule_spec l w r :
  timers_ok w → NoDup (timeoutKey <$> l) →
  (∀ x, x ∈ l → timers w !! timeoutKey x = None) →
  r ∈ l → exiting r = false → 0 < nominal r →
  scheduled (foldl schedule_item w l) r (now w).
Proof.
  revert w. induction l as [|x l IH]; intros w Hok Hnd Hnone Hin Hex Hd;
    [by apply elem_of_nil in Hin|].
  rewrite fmap_cons in Hnd. apply NoDup_cons in Hnd as [Hx Hnd]. simpl.
  apply elem_of_cons in Hin as [->|Hin].
  - apply scheduled_foldl; [by apply timers_ok_schedule_item|].
    apply schedule_item_new; [apply Hnone; left | done..].
  - destruct (schedule_item_base w x) as (_&_&_&_&_&_&_&_&_&Hnow&_).
    rewrite <- Hnow. apply IH; try done.
    + by apply timers_ok_schedule_item.
    + intros y Hy. apply timers_schedule_item_None; [apply Hnone; by right|].
      intros Heq. apply Hx. rewrite <- Heq. by apply list_elem_of_fmap_2.
Qed.

Lemma scheduled_in_range w r t0 :
  scheduled w r t0 → 0 <= nominal r < 2 ^ 31 → scheduled_full w r t0.
Proof.
  intros (h & Hk & Hp) Hd. exists h. split; [done|].
  by rewrite <- (timer_delay_in_range (nominal r)).
Qed.

(** C7 (amended): in a mounted viewport, entering a toast cancels every
    pending auto-dismiss timer; while hovered no auto-dismiss timer is
    pending, so none runs however much time passes; leaving gives every
    record of the viewport's own list that is not exiting and has a
    positive nominal duration a timer set at the time of leaving with
    that duration as its delay, and the timer is due a full nominal
    duration later when the duration is below 2^31 ms. *)
Theorem hover_pause_fresh_timers (w : World) :
  reachable w → phase w = Mounted →
  (* entering a toast cancels every pending dismiss timer *)
  (∀ toastId, hovered (enter toastId w) = true ∧ timers (enter toastId w) = ∅ ∧
              no_auto_pending (enter toastId w)) ∧
  (* while hovered, no dismiss timer is pending, so none can run *)
  (hovered w = true →
     timers w = ∅ ∧ no_auto_pending w ∧
     ∀ h w', step w (EFire h) = Some w' →
       ∃ t tid, pending w !! h = Some t ∧ callback t = RemoveExited tid) ∧
  (* leaving schedules every live record of the list afresh *)
  (hovered w = true → ∀ toastId r,
     r ∈ vtoasts w → exiting r = false → 0 < nominal r →
     hovered (leave toastId w) = false ∧
     scheduled (leave toastId w) r (now w) ∧
     (nominal r < 2 ^ 31 → scheduled_full (leave toastId w) r (now w))).
Proof.
  intros Hr Hm. destruct (reachable_Inv _ Hr) as [Hok Hg]. split_and!.
  - intros toastId.
    assert (Inv (enter toastId w)) as [Hok' Hg'].
    { apply (Inv_step w (EEnter toastId)); [|done]. simpl. by rewrite bool_decide_eq_true_2. }
    assert (hovered (enter toastId w) = true) as Hh.
    { unfold enter. simpl. by destruct (hovered w) eqn:?. }
    split_and!; [done | by apply Hg' |]. apply timers_empty_no_auto; [done|]. by apply Hg'.
  - intros Hh.
    assert (no_auto_pending w) as Hno.
    { apply timers_empty_no_auto; [done|]. by apply Hg. }
    split_and!; [by apply Hg | done |]. intros h w' Hs. simpl in Hs.
    destruct (pending w !! h) as [t|] eqn:Hp; [|done].
    destruct (Hno _ _ Hp) as [tid Hc]. by exists t, tid.
  - intros Hh toastId r Hin Hex Hd.
    assert (scheduled (leave toastId w) r (now w)) as Hsch.
    { unfold leave. simpl. rewrite Hh. unfold schedule. simpl.
      apply (foldl_schedule_spec (vtoasts w)
        (set_hovered false (set_activeId (latest (vtoasts w)) w)) r); try done.
      * by eapply timers_ok_ext; [..|exact Hok].
      * by apply NoDup_timeoutKey, reachable_unique_vtoasts.
      * intros x _. simpl. rewrite (hovered_empty _ Hg Hh). apply lookup_empty. }
    split_and!; [|done|].
    + unfold leave. simpl. rewrite Hh. unfold schedule. simpl.
      by destruct (foldl_schedule_base (vtoasts w)
        (set_hovered false (set_activeId (latest (vtoasts w)) w))) as (_&_&_&_&_&_&_&_&->&_).
    + intros Hlt. apply scheduled_in_range; [done | lia].
Qed.

Lemma hover_pause_fresh_timers_witness :
  no_auto_pending (after hovering) ∧
  ∃ r, r ∈ vtoasts (after hovering) ∧
       scheduled_full (leave "x" (after hovering)) r (now (after hovering)).
Proof.
  assert (reachable (after hovering)) as Hr
    by (apply (run_reachable hovering); vm_compute; reflexivity).
  assert (phase (after hovering) = Mounted) as Hm by (vm_compute; reflexivity).
  assert (hovered (after hovering) = true) as Hh by (vm_compute; reflexivity).
  destruct (hover_pause_fresh_timers (after hovering) Hr Hm) as (_ & H2 & H3).
  split; [apply (H2 Hh)|].
  exists (created_item (with_id "x") 1%nat (after [ESetup top_right None; EMount])).
  split; [vm_compute; left|].
  apply (H3 Hh); [vm_compute; left | reflexivity | reflexivity | reflexivity].
Defined.

Lemma run_created_before_mount :
  run initial created_before_mount = Some (after created_before_mount).
Proof. vm_compute. reflexivity. Qed.

Lemma run_overlong_hovered :
  run initial overlong_hovered = Some (after overlong_hovered).
Proof. vm_compute. reflexivity. Qed.

(** C7, as stated, fails in two ways.  A record that was created between
    the setup and the mount of the viewport is in the registry, not
    exiting, with the default duration, but not in the viewport's list:
    it has no timer after the pointer leaves.  And a record with a
    duration of 2^31 ms gets a timer that is due at the time of leaving,
    not 2^31 ms later. *)
Lemma leave_skips_unlisted_and_overlong :
  (reachable (after created_before_mount) ∧
   phase (after created_before_mount) = Mounted ∧
   hovered (after created_before_mount) = true ∧
   ∃ r, r ∈ toasts (after created_before_mount) ∧ id r = "b"%string ∧
        exiting r = false ∧ nominal r = 6000 ∧
        (r ∉ vtoasts (after created_before_mount)) ∧
        timers (leave "a" (after created_before_mount)) !! timeoutKey r = None ∧
        ∀ t0, ¬ scheduled (leave "a" (after created_before_mount)) r t0) ∧
  (reachable (after overlong_hovered) ∧
   phase (after overlong_hovered) = Mounted ∧
   hovered (after overlong_hovered) = true ∧
   ∃ r, r ∈ vtoasts (after overlong_hovered) ∧ exiting r = false ∧
        nominal r = 2 ^ 31 ∧
        (∃ h, timers (leave "x" (after overlong_hovered)) !! timeoutKey r = Some h ∧
              pending (leave "x" (after overlong_hovered)) !! h
                = Some (mkTimer (now (after overlong_hovered)) (AutoDismiss "x"))) ∧
        ¬ scheduled_full (leave "x" (after overlong_hovered)) r
            (now (after overlong_hovered))).
Proof.
  split.
  - split_and!.
    + apply (run_reachable created_before_mount), run_created_before_mount.
    + vm_compute. reflexivity.
    + vm_compute. reflexivity.
    + exists (created_item (with_id "b") 2%nat
                (after [ECreate (with_id "a") 1%nat; ESetup top_right None])).
      assert (timers (leave "a" (after created_before_mount))
                !! timeoutKey (created_item (with_id "b") 2%nat
                     (after [ECreate (with_id "a") 1%nat; ESetup top_right None]))
              = None) as Hnone by (vm_compute; reflexivity).
      split_and!.
      * vm_compute. right. left.
      * reflexivity.
      * reflexivity.
      * reflexivity.
      * vm_compute.
        intros [Heq|Hin]%elem_of_cons; [discriminate | by apply elem_of_nil in Hin].
      * exact Hnone.
      * intros t0 (h & Hk & _). by rewrite Hnone in Hk.
  - split_and!.
    + apply (run_reachable overlong_hovered), run_overlong_hovered.
    + vm_compute. reflexivity.
    + vm_compute. reflexivity.
    + exists (created_item (with_id_duration "x" (2 ^ 31)) 1%nat (after mounted_only)).
      assert (timers (leave "x" (after overlong_hovered))
                !! timeoutKey (created_item (with_id_duration "x" (2 ^ 31)) 1%nat
                     (after mounted_only))
              = Some 2%nat) as Hk by (vm_compute; reflexivity).
      assert (pending (leave "x" (after overlong_hovered)) !! 2%nat
              = Some (mkTimer 0 (AutoDismiss "x"))) as Hp by (vm_compute; reflexivity).
      split; [|split; [|split; [|split]]].
      * vm_compute. left.
      * reflexivity.
      * reflexivity.
      * exists 2%nat. split; [exact Hk | exact Hp].
      * intros (h & Hk' & Hp'). rewrite Hk in Hk'. injection Hk' as <-.
        rewrite Hp in Hp'. vm_compute in Hp'. discriminate.
Qed.



Lemma removal_kept_refl w : removal_kept w w.
Proof. by intros h t tid Hp _. Qed.

Lemma removal_kept_trans w1 w2 w3 :
  removal_kept w1 w2 → removal_kept w2 w3 → removal_kept w1 w3.
Proof. intros H12 H23 h t tid Hp Hc. eapply H23; [|done]. by eapply H12. Qed.

Lemma removal_kept_ext w w' : pending w' = pending w → removal_kept w w'.
Proof. intros He h t tid Hp _. by rewrite He. Qed.

Lemma removal_kept_insert_fresh w w' t' :
  timers_ok w → pending w' = <[nextHandle w := t']> (pending w) → removal_kept w w'.
Proof.
  intros Hok He h t tid Hp _. rewrite He, lookup_insert_ne; [done|].
  pose proof (pending_fresh _ Hok _ _ Hp). lia.
Qed.

Lemma removal_kept_schedule_item w x : timers_ok w → removal_kept w (schedule_item w x).
Proof.
  intros Hok. unfold schedule_item. destruct (exiting x); [apply removal_kept_refl|].
  repeat (case_bool_decide; [apply removal_kept_refl|]).
  by eapply removal_kept_insert_fresh.
Qed.

Lemma removal_kept_foldl l w : timers_ok w → removal_kept w (foldl schedule_item w l).
Proof.
  revert w. induction l as [|x l IH]; intros w Hok; [apply removal_kept_refl|].
  simpl. eapply removal_kept_trans; [by apply removal_kept_schedule_item|].
  by apply IH, timers_ok_schedule_item.
Qed.

Lemma removal_kept_schedule l w : timers_ok w → removal_kept w (schedule l w).
Proof.
  intros Hok. unfold schedule.
  destruct (hovered w); [apply removal_kept_refl | by apply removal_kept_foldl].
Qed.

(** Clearing handles of the table does not touch removal timers. *)
Lemma removal_kept_clear (m : gmap Key nat) w w' :
  timers_ok w → (∀ k h, m !! k = Some h → timers w !! k = Some h) →
  pending w' = clearTimeouts (handles m) (pending w) → removal_kept w w'.
Proof.
  intros Hok Hsub He h t tid Hp Hc. rewrite He. apply lookup_clearTimeouts.
  split; [done|]. intros [k Hk]%elem_of_handles.
  by apply (removal_unrecorded _ Hok _ _ _ k Hp Hc), Hsub.
Qed.

Lemma removal_kept_clearAllTimers w : timers_ok w → removal_kept w (clearAllTimers w).
Proof. intros Hok. by apply (removal_kept_clear (timers w)). Qed.

Lemma removal_kept_listener next w : timers_ok w → removal_kept w (listener next w).
Proof.
  intros Hok. unfold listener.
  eapply removal_kept_trans; [|apply removal_kept_schedule].
  - eapply (removal_kept_clear (filter (λ kh, kh.1 ∉ timeoutKey <$> next) (timers w)));
      [done| |done].
    by intros k h [? _]%map_lookup_filter_Some.
  - eapply timers_ok_ext;
      [..|apply (timers_ok_prune (λ kh, kh.1 ∈ timeoutKey <$> next) w Hok)]; done.
Qed.

Lemma removal_kept_update fn w : timers_ok w → removal_kept w (update fn w).
Proof.
  intros Hok. unfold update, emit. simpl. destruct (listeners w).
  - eapply removal_kept_trans; [|apply removal_kept_listener].
    + by apply removal_kept_ext.
    + by eapply timers_ok_ext; [..|exact Hok].
  - by apply removal_kept_ext.
Qed.

Lemma dismissToast_world tid w :
  dismissToast tid w =
    match find_id tid (toasts w) with
    | None => w
    | Some item =>
        if exiting item then w
        else (setTimeout (RemoveExited tid) EXIT_DURATION (update (mark_id tid) w)).2
    end.
Proof. reflexivity. Qed.

Lemma removal_kept_dismissToast tid w : timers_ok w → removal_kept w (dismissToast tid w).
Proof.
  intros Hok. rewrite dismissToast_world.
  destruct (find_id _ _) as [item|]; [|apply removal_kept_refl].
  destruct (exiting item); [apply removal_kept_refl|].
  eapply removal_kept_trans; [by apply removal_kept_update|].
  eapply removal_kept_insert_fresh; [by apply timers_ok_update | done].
Qed.

Lemma removal_kept_createToast o rnd w : timers_ok w → removal_kept w (createToast o rnd w).2.
Proof.
  intros Hok. rewrite createToast_world. cbv zeta.
  destruct (find_id _ _);
    (eapply removal_kept_trans; [|apply removal_kept_update];
      [by apply removal_kept_ext | by eapply timers_ok_ext; [..|exact Hok]]).
Qed.

Lemma removal_kept_updateToast tid o rnd w :
  timers_ok w → removal_kept w (updateToast tid o rnd w).
Proof.
  intros Hok. unfold updateToast. destruct (find_id _ _); [|apply removal_kept_refl].
  simpl. eapply removal_kept_trans; [|apply removal_kept_update];
    [by apply removal_kept_ext | by eapply timers_ok_ext; [..|exact Hok]].
Qed.

Lemma removal_kept_run_callback cb w : timers_ok w → removal_kept w (run_callback cb w).
Proof.
  destruct cb; simpl; [apply removal_kept_dismissToast | apply removal_kept_update].
Qed.

(** A pending removal timer stays pending through every step but its
    own firing: nothing clears it. *)
Lemma removal_timer_no_clear w e w' h t tid :
  timers_ok w → step w e = Some w' →
  pending w !! h = Some t → callback t = RemoveExited tid →
  e ≠ EFire h → pending w' !! h = Some t.
Proof.
  intros Hok Hs Hp Hc Hne.
  assert (removal_kept w w' ∨
          ∃ h', e = EFire h' ∧ h' ≠ h ∧
                removal_kept (set_pending (delete h' (pending w)) w) w') as [Hk|Hk].
  { destruct e; simpl in Hs; repeat case_bool_decide; simplify_eq.
    - left. by apply removal_kept_createToast.
    - left. by apply removal_kept_updateToast.
    - left. by apply removal_kept_dismissToast.
    - left. by apply removal_kept_update.
    - left. by apply removal_kept_ext.
    - left. by apply removal_kept_ext.
    - left. eapply removal_kept_trans; [|apply removal_kept_clearAllTimers].
      + by apply removal_kept_ext.
      + by eapply timers_ok_ext; [..|exact Hok].
    - left. by apply removal_kept_ext.
    - left. unfold enter. simpl. destruct (hovered w); [by apply removal_kept_ext|].
      eapply removal_kept_trans; [|apply removal_kept_clearAllTimers].
      + by apply removal_kept_ext.
      + by eapply timers_ok_ext; [..|exact Hok].
    - left. unfold leave. simpl. destruct (hovered w); [|by apply removal_kept_ext].
      eapply removal_kept_trans; [|apply removal_kept_schedule].
      + by apply removal_kept_ext.
      + by eapply timers_ok_ext; [..|exact Hok].
    - left. by apply removal_kept_dismissToast.
    - right. exists h0. destruct (pending w !! h0) as [t0|]; [|done].
      case_bool_decide; simplify_eq. split_and!; [done|congruence|].
      by apply removal_kept_run_callback, timers_ok_fired.
    - left. by apply removal_kept_ext.
    - left. by apply removal_kept_ext. }
  - by eapply Hk.
  - destruct Hk as (h' & -> & Hh & Hk). eapply Hk; [|done]. simpl.
    by rewrite lookup_delete_ne.
Qed.


(** *** What [dismissToast] does *)

Lemma dismissToast_noop tid w :
  (find_id tid (toasts w) = None ∨
   ∃ item, find_id tid (toasts w) = Some item ∧ exiting item = true) →
  dismissToast tid w = w.
Proof.
  rewrite dismissToast_world. intros [-> | (item & -> & ->)]; done.
Qed.

Lemma now_update fn w : now (update fn w) = now w.
Proof.
  unfold update.
  by destruct (emit_store (set_toasts (fn (toasts w)) w)) as (_&_&_&_&_&_&_&_&_&->).
Qed.

Lemma dismissToast_live tid w item :
  find_id tid (toasts w) = Some item → exiting item = false →
  toasts (dismissToast tid w) = mark_id tid (toasts w) ∧
  ∃ h, pending (dismissToast tid w) !! h
       = Some (mkTimer (now w + EXIT_DURATION) (RemoveExited tid)).
Proof.
  intros Hf Hex. split.
  - by rewrite toasts_dismissToast, Hf, Hex.
  - rewrite dismissToast_world, Hf, Hex.
    exists (nextHandle (update (mark_id tid) w)). simpl.
    by rewrite lookup_insert_eq, now_update.
Qed.

Lemma elem_of_mark_id tid l r' :
  r' ∈ mark_id tid l ↔
  ∃ r, r ∈ l ∧ r' = if bool_decide (id r = tid) then mark_exiting r else r.
Proof.
  unfold mark_id. rewrite list_elem_of_fmap.
  split; intros (r & H1 & H2); exists r; by split.
Qed.

Lemma mark_id_exiting tid l r' : r' ∈ mark_id tid l → id r' = tid → exiting r' = true.
Proof.
  intros (r & Hr & ->)%elem_of_mark_id. case_bool_decide; [done|]. by intros ?.
Qed.

Lemma mark_id_other tid l r' : id r' ≠ tid → r' ∈ mark_id tid l ↔ r' ∈ l.
Proof.
  intros Hne. rewrite elem_of_mark_id. split.
  - intros (r & Hr & ->). case_bool_decide; [|done]. by destruct Hne.
  - intros Hr. exists r'. by rewrite bool_decide_eq_false_2.
Qed.

(** Records with another id keep their place in both updates of a
    dismissal. *)
Lemma mark_id_lookup tid l i :
  mark_id tid l !! i
  = (λ t, if bool_decide (id t = tid) then mark_exiting t else t) <$> l !! i.
Proof. unfold mark_id. apply list_lookup_fmap. Qed.

Lemma ids_dismissToast tid w : id <$> toasts (dismissToast tid w) = id <$> toasts w.
Proof.
  rewrite toasts_dismissToast. destruct (find_id _ _) as [item|]; [|done].
  destruct (exiting item); [done | apply ids_mark_id].
Qed.

(** *** Steps that leave the registry alone *)

Lemma toasts_schedule l w : toasts (schedule l w) = toasts w.
Proof. by destruct (schedule_base l w) as [-> _]. Qed.

Lemma toasts_enter tid w : toasts (enter tid w) = toasts w.
Proof. unfold enter. simpl. by destruct (hovered w). Qed.

Lemma toasts_leave tid w : toasts (leave tid w) = toasts w.
Proof. unfold leave. simpl. destruct (hovered w); [|done]. by rewrite toasts_schedule. Qed.

(** The registry after a step, event by event. *)
Lemma toasts_step w e w' :
  step w e = Some w' →
  toasts w' =
    match e with
    | ECreate o rnd => toasts (createToast o rnd w).2
    | EUpdate tid o rnd => toasts (updateToast tid o rnd w)
    | EDismiss tid | ESwipe tid => toasts (dismissToast tid w)
    | EClear pos => toasts (sileo.clear pos w)
    | EFire h =>
        match callback <$> pending w !! h with
        | Some (AutoDismiss tid) => toasts (dismissToast tid w)
        | Some (RemoveExited tid) => filter (λ t, id t ≠ tid) (toasts w)
        | None => toasts w
        end
    | _ => toasts w
    end.
Proof.
  destruct e; simpl; intros Hs; repeat case_bool_decide; simplify_eq; try done.
  - apply toasts_enter.
  - apply toasts_leave.
  - destruct (pending w !! h) as [t|]; [|done]. case_bool_decide; simplify_eq.
    simpl. rewrite toasts_run_callback. destruct (callback t); [|done].
    by rewrite !toasts_dismissToast.
Qed.

Lemma ids_createToast_sub o rnd w x :
  x ∈ id <$> toasts w → x ∈ id <$> toasts (createToast o rnd w).2.
Proof.
  rewrite toasts_createToast. cbv zeta. destruct (find_id _ _).
  - by rewrite ids_replace_id.
  - intros (t & -> & Ht)%list_elem_of_fmap. rewrite fmap_app, elem_of_app.
    destruct (decide (id t = resolved_id (store_options w) o)) as [He|Hne].
    + right. simpl. rewrite He. by apply list_elem_of_singleton.
    + left. apply list_elem_of_fmap_2. by apply list_elem_of_filter.
Qed.

Lemma ids_updateToast tid o rnd w :
  id <$> toasts (updateToast tid o rnd w) = id <$> toasts w.
Proof.
  rewrite toasts_updateToast. destruct (find_id _ _); [|done]. by apply ids_replace_id.
Qed.

(** Only [clear] and the removal timer take an id out of the registry. *)
Lemma id_leaves_registry w e w' x :
  step w e = Some w' → x ∈ id <$> toasts w → x ∉ id <$> toasts w' →
  (∃ pos, e = EClear pos) ∨
  (∃ h t, e = EFire h ∧ pending w !! h = Some t ∧ callback t = RemoveExited x).
Proof.
  intros Hs Hin Hout. rewrite (toasts_step _ _ _ Hs) in Hout.
  destruct e; try done.
  - destruct Hout. by apply ids_createToast_sub.
  - by rewrite ids_updateToast in Hout.
  - by rewrite ids_dismissToast in Hout.
  - left. by eexists.
  - by rewrite ids_dismissToast in Hout.
  - right. destruct (pending w !! h) as [t|] eqn:Hp; [|done]. simpl in Hout.
    destruct (callback t) as [tid|tid] eqn:Hc.
    + by rewrite ids_dismissToast in Hout.
    + exists h, t. split_and!; [done..|]. rewrite Hc. f_equal.
      destruct (decide (tid = x)) as [|Hne]; [done|]. destruct Hout.
      apply list_elem_of_fmap in Hin as (r & -> & Hr).
      apply list_elem_of_fmap_2, list_elem_of_filter. split; [congruence | done].
Qed.

(** A timer runs exactly when it is due. *)
Lemma fire_exactly_due w h w' t :
  timers_ok w → step w (EFire h) = Some w' → pending w !! h = Some t → now w = due t.
Proof.
  intros Hok Hs Hp. simpl in Hs. rewrite Hp in Hs. case_bool_decide; [|done].
  pose proof (not_overdue _ Hok _ _ Hp). lia.
Qed.

Lemma fire_removal w h w' t tid :
  step w (EFire h) = Some w' → pending w !! h = Some t → callback t = RemoveExited tid →
  toasts w' = filter (λ r, id r ≠ tid) (toasts w) ∧ tid ∉ id <$> toasts w'.
Proof.
  intros Hs Hp Hc. rewrite (toasts_step _ _ _ Hs), Hp. simpl. rewrite Hc.
  split; [done|]. intros (r & -> & [Hr _]%list_elem_of_filter)%list_elem_of_fmap. done.
Qed.

Lemma phase_update fn w : phase (update fn w) = phase w.
Proof.
  unfold update.
  by destruct (emit_store (set_toasts (fn (toasts w)) w)) as (_&_&_&_&_&->&_).
Qed.

Lemma phase_dismissToast tid w : phase (dismissToast tid w) = phase w.
Proof.
  rewrite dismissToast_world. destruct (find_id _ _) as [item|]; [|done].
  destruct (exiting item); [done|]. simpl. apply phase_update.
Qed.

(** Once unmounted, always unmounted. *)
Lemma unmounted_forever w e w' :
  step w e = Some w' → phase w = Unmounted → phase w' = Unmounted.
Proof.
  destruct e; unfold step; intros Hs Hph; repeat case_bool_decide; simplify_eq;
    try done; try congruence.
  - rewrite createToast_world. cbv zeta. by destruct (find_id _ _); rewrite phase_update.
  - unfold updateToast. destruct (find_id _ _); [|done]. simpl. by rewrite phase_update.
  - by rewrite phase_dismissToast.
  - unfold sileo.clear. by rewrite phase_update.
  - destruct (pending w !! h) as [t|]; [|done]. case_bool_decide; simplify_eq.
    destruct (callback t); simpl; [by rewrite phase_dismissToast | by rewrite phase_update].
Qed.


(** *** The timers of a toast *)

Lemma toast_timers_ok_initial rk v : toast_timers_ok (toast_initial rk v).
Proof. split; simpl; [lia | done | by intros [] | by intros []]. Qed.

Lemma toast_timers_ok_clear_if_set timer s :
  toast_timers_ok s → toast_timers_ok (clear_if_set timer s).
Proof.
  intros [H1 H2 H3 H4]. destruct timer as [[|n]|]; simpl; [done| |done].
  split; simpl; [done| | |].
  - intros h t [_ Hp]%lookup_delete_Some. destruct (H2 _ _ Hp) as [? Hv].
    split; [done|]. by destruct (tt_action t).
  - intros cb h Hv. apply (H3 cb). by destruct cb.
  - intros cb1 cb2 h Hv1 Hv2. apply (H4 cb1 cb2 h); [by destruct cb1 | by destruct cb2].
Qed.

(** Clearing the handle of a variable leaves no callback of its kind. *)
Lemma clear_if_set_none cb s h t :
  toast_timers_ok s →
  callbacks (clear_if_set (timer_variable cb s) s) !! h = Some t → tt_action t ≠ cb.
Proof.
  intros [H1 H2 H3 H4] Hp Heq.
  destruct (timer_variable cb s) as [[|n]|] eqn:Hv; simpl in Hp.
  - destruct (H2 _ _ Hp) as [Hpos Hv']. rewrite Heq, Hv in Hv'. simplify_eq. lia.
  - apply lookup_delete_Some in Hp as [Hne Hp].
    destruct (H2 _ _ Hp) as [Hpos Hv']. rewrite Heq, Hv in Hv'. by simplify_eq.
  - destruct (H2 _ _ Hp) as [Hpos Hv']. rewrite Heq, Hv in Hv'. done.
Qed.

Lemma callbacks_clear_if_set timer s h t :
  callbacks (clear_if_set timer s) !! h = Some t → callbacks s !! h = Some t.
Proof.
  destruct timer as [[|n]|]; simpl; [done| |done]. by intros [_ ?]%lookup_delete_Some.
Qed.

Lemma logic_clear_if_set timer s : logic (clear_if_set timer s) = logic s.
Proof. by destruct timer as [[|n]|]. Qed.

Lemma timer_variable_clear_if_set timer cb s :
  timer_variable cb (clear_if_set timer s) = timer_variable cb s.
Proof. by destruct timer as [[|n]|], cb. Qed.

Lemma nextTimer_clear_if_set timer s : nextTimer (clear_if_set timer s) = nextTimer s.
Proof. by destruct timer as [[|n]|]. Qed.

(** Setting a timer of a kind of which no callback is pending, and
    storing its handle in the variable of that kind. *)
Lemma toast_timers_ok_set cb delay s :
  toast_timers_ok s →
  (∀ h t, callbacks s !! h = Some t → tt_action t ≠ cb) →
  toast_timers_ok (store_handle cb (Some (toast_setTimeout cb delay s).1)
                     (toast_setTimeout cb delay s).2).
Proof.
  intros [H1 H2 H3 H4] Hnone. split.
  - destruct cb; simpl; lia.
  - intros h t Hp.
    assert (<[nextTimer s := mkToastTimer (timer_delay delay) cb]> (callbacks s) !! h
            = Some t) as Hq by (destruct cb; exact Hp).
    apply lookup_insert_Some in Hq as [[<- <-]|[Hne Hq]].
    + split; [simpl; lia|]. by destruct cb.
    + destruct (H2 _ _ Hq) as [Hpos Hv]. split; [done|].
      specialize (Hnone _ _ Hq). by destruct cb, (tt_action t).
  - intros cb' h Hv.
    assert (nextTimer (store_handle cb (Some (toast_setTimeout cb delay s).1)
                         (toast_setTimeout cb delay s).2)
            = S (nextTimer s)) as -> by by destruct cb.
    destruct (decide (cb' = cb)) as [->|Hne].
    + assert (h = nextTimer s) as -> by (destruct cb; simpl in Hv; by simplify_eq). lia.
    + assert (timer_variable cb' s = Some h) as Hv' by (destruct cb, cb'; done).
      apply H3 in Hv'. lia.
  - intros cb1 cb2 h Hv1 Hv2.
    destruct (decide (cb1 = cb)) as [->|Hne1], (decide (cb2 = cb)) as [->|Hne2]; [done|..].
    + assert (h = nextTimer s) as -> by (destruct cb; simpl in Hv1; by simplify_eq).
      assert (timer_variable cb2 s = Some (nextTimer s)) as Hv' by (destruct cb, cb2; done).
      apply H3 in Hv'. lia.
    + assert (h = nextTimer s) as -> by (destruct cb; simpl in Hv2; by simplify_eq).
      assert (timer_variable cb1 s = Some (nextTimer s)) as Hv' by (destruct cb, cb1; done).
      apply H3 in Hv'. lia.
    + apply (H4 cb1 cb2 h); [by destruct cb, cb1 | by destruct cb, cb2].
Qed.

(** Resetting a variable of a kind of which no callback is pending. *)
Lemma toast_timers_ok_reset cb s :
  toast_timers_ok s →
  (∀ h t, callbacks s !! h = Some t → tt_action t ≠ cb) →
  toast_timers_ok (store_handle cb None s).
Proof.
  intros [H1 H2 H3 H4] Hnone. split.
  - by destruct cb.
  - intros h t Hp.
    assert (callbacks s !! h = Some t) as Hp' by by destruct cb.
    destruct (H2 _ _ Hp') as [Hpos Hv]. split; [done|].
    specialize (Hnone _ _ Hp'). by destruct cb, (tt_action t).
  - intros cb' h Hv.
    assert (nextTimer (store_handle cb None s) = nextTimer s) as -> by by destruct cb.
    destruct (decide (cb' = cb)) as [->|Hne]; [by destruct cb|].
    apply (H3 cb'). by destruct cb, cb'.
  - intros cb1 cb2 h Hv1 Hv2.
    destruct (decide (cb1 = cb)) as [->|Hne1]; [by destruct cb|].
    destruct (decide (cb2 = cb)) as [->|Hne2]; [by destruct cb|].
    apply (H4 cb1 cb2 h); [by destruct cb, cb1 | by destruct cb, cb2].
Qed.

Lemma toast_timers_ok_logic r s : toast_timers_ok s → toast_timers_ok (with_logic r s).
Proof.
  intros [H1 H2 H3 H4]. split; simpl; [done| | |].
  - intros h t Hp. destruct (H2 _ _ Hp) as [? Hv]. split; [done|]. by destruct (tt_action t).
  - intros cb h Hv. apply (H3 cb). by destruct cb.
  - intros cb1 cb2 h Hv1 Hv2. apply (H4 cb1 cb2 h); [by destruct cb1 | by destruct cb2].
Qed.

Lemma lookup_clear_if_set timer s h t :
  callbacks (clear_if_set timer s) !! h = Some t ↔
  callbacks s !! h = Some t ∧ ¬ (timer = Some h ∧ (1 <= h)%nat).
Proof.
  destruct timer as [[|n]|]; simpl.
  - split; [intros Hp; split; [done|]; intros [? ?]; simplify_eq; lia | by intros [? _]].
  - rewrite lookup_delete_Some. split.
    + intros [Hne Hp]. split; [done|]. intros [? _]. by simplify_eq.
    + intros [Hp Hn]. split; [|done]. intros <-. apply Hn. split; [done | lia].
  - split; [intros Hp; split; [done|]; by intros [? _] | by intros [? _]].
Qed.

Lemma toast_timers_ok_delete h s :
  toast_timers_ok s → toast_timers_ok (with_callbacks (delete h (callbacks s)) s).
Proof.
  intros [H1 H2 H3 H4]. split; simpl; [done| | |].
  - intros h' t [_ Hp]%lookup_delete_Some. destruct (H2 _ _ Hp) as [? Hv].
    split; [done|]. by destruct (tt_action t).
  - intros cb h' Hv. apply (H3 cb). by destruct cb.
  - intros cb1 cb2 h' Hv1 Hv2. apply (H4 cb1 cb2 h'); [by destruct cb1 | by destruct cb2].
Qed.

Lemma clear_swapTimer_eq s :
  toast_timers_ok s →
  clear_swapTimer s = s ∧ (∀ h t, callbacks s !! h = Some t → tt_action t ≠ SwapContent) ∨
  clear_swapTimer s
  = store_handle SwapContent None (clear_if_set (timer_variable SwapContent s) s).
Proof.
  intros [H1 H2 H3 H4]. unfold clear_swapTimer. simpl.
  destruct (swapTimerId s) as [[|n]|] eqn:Hv; [left|by right|left]; (split; [done|]);
    intros h t Hp Heq; destruct (H2 _ _ Hp) as [Hpos Hv']; rewrite Heq in Hv';
    simpl in Hv'; rewrite Hv in Hv'; simplify_eq; lia.
Qed.

Lemma toast_timers_ok_clear_swapTimer s :
  toast_timers_ok s →
  toast_timers_ok (clear_swapTimer s) ∧
  ∀ h t, callbacks (clear_swapTimer s) !! h = Some t → tt_action t ≠ SwapContent.
Proof.
  intros Hok. destruct (clear_swapTimer_eq s Hok) as [[-> Hnone]| ->]; [done|].
  assert (∀ h t, callbacks (clear_if_set (timer_variable SwapContent s) s) !! h = Some t →
                 tt_action t ≠ SwapContent) as Hnone
    by (intros h t; by apply clear_if_set_none).
  split.
  - apply toast_timers_ok_reset; [by apply toast_timers_ok_clear_if_set | done].
  - exact Hnone.
Qed.

Lemma toast_timers_ok_watch_prev b s : toast_timers_ok s → toast_timers_ok (watch_prev b s).
Proof.
  intros Hok. unfold watch_prev. destruct b; [|done]. simpl negb. cbv iota.
  apply (toast_timers_ok_set HeaderExit HEADER_EXIT_MS
           (clear_if_set (timer_variable HeaderExit s) s)).
  - by apply toast_timers_ok_clear_if_set.
  - intros h t. by apply clear_if_set_none.
Qed.

Lemma toast_timers_ok_watch_auto props s :
  toast_timers_ok s → toast_timers_ok (watch_auto props s).
Proof.
  intros Hok. unfold watch_auto. destruct (negb _); [done|].
  set (s0 := clear_if_set (autoExpandTimer s) s).
  set (s1 := clear_if_set (autoCollapseTimer s) s0).
  assert (toast_timers_ok s0) as Hok0 by by apply toast_timers_ok_clear_if_set.
  assert (toast_timers_ok s1) as Hok1 by by apply toast_timers_ok_clear_if_set.
  assert (∀ h t, callbacks s1 !! h = Some t → tt_action t ≠ AutoExpand) as Hne.
  { intros h t Hp%callbacks_clear_if_set.
    by apply (clear_if_set_none AutoExpand s h t). }
  assert (∀ h t, callbacks s1 !! h = Some t → tt_action t ≠ AutoCollapse) as Hnc.
  { intros h t Hp. apply (clear_if_set_none AutoCollapse s0 h t Hok0).
    assert (timer_variable AutoCollapse s0 = autoCollapseTimer s) as ->
      by apply (timer_variable_clear_if_set _ AutoCollapse).
    exact Hp. }
  destruct (_ || _); [by apply toast_timers_ok_logic|].
  assert (∀ e c,
    toast_timers_ok
      (let s2 := if bool_decide (nullish e 0 > 0)
                 then let '(h, s') := toast_setTimeout AutoExpand (nullish e 0) s1 in
                      with_autoExpandTimer (Some h) s'
                 else set_isExpanded true s1 in
       if bool_decide (nullish c 0 > 0)
       then let '(h, s') := toast_setTimeout AutoCollapse (nullish c 0) s2 in
            with_autoCollapseTimer (Some h) s'
       else s2)) as Hset.
  { intros e c. cbv zeta.
    set (s2 := if bool_decide (nullish e 0 > 0) then _ else _).
    assert (toast_timers_ok s2 ∧
            ∀ h t, callbacks s2 !! h = Some t → tt_action t ≠ AutoCollapse) as [Hok2 Hnc2].
    { subst s2. case_bool_decide.
      - split; [by apply (toast_timers_ok_set AutoExpand)|].
        intros h t Hp. simpl in Hp.
        apply lookup_insert_Some in Hp as [[_ <-]|[_ Hp]]; [done | by eapply Hnc].
      - split; [by apply toast_timers_ok_logic | exact Hnc]. }
    case_bool_decide; [|done]. by apply (toast_timers_ok_set AutoCollapse). }
  destruct (p_autoExpandDelayMs props) as [e|], (p_autoCollapseDelayMs props) as [c|];
    [apply (Hset (Some e) (Some c)) | apply (Hset (Some e) None)
     | apply (Hset None (Some c)) | done].
Qed.

Lemma toast_timers_ok_watch_refresh rk next s :
  toast_timers_ok s → toast_timers_ok (watch_refresh rk next s).
Proof.
  intros Hok. unfold watch_refresh. destruct rk as [k|]; [|by apply toast_timers_ok_logic].
  case_bool_decide; [done|].
  destruct (toast_timers_ok_clear_swapTimer s Hok) as [Hok1 Hnone].
  destruct (is_open (logic s)); [|by apply toast_timers_ok_logic].
  apply (toast_timers_ok_logic (on_refresh (Some k) next (logic s))
           (store_handle SwapContent
              (Some (toast_setTimeout SwapContent SWAP_COLLAPSE_MS (clear_swapTimer s)).1)
              (toast_setTimeout SwapContent SWAP_COLLAPSE_MS (clear_swapTimer s)).2)).
  by apply toast_timers_ok_set.
Qed.

Lemma toast_timers_ok_transitionEnd relevant s :
  toast_timers_ok s → toast_timers_ok (toast_transitionEnd relevant s).
Proof.
  intros Hok. unfold toast_transitionEnd. destruct (negb relevant); [done|].
  destruct (is_open (logic s)); [done|]. destruct (swap_pending (logic s)); [|done].
  apply toast_timers_ok_logic. by apply toast_timers_ok_clear_swapTimer.
Qed.

Lemma toast_timers_ok_fire h t s :
  toast_timers_ok s → callbacks s !! h = Some t →
  toast_timers_ok (run_toast_callback (tt_action t) (with_callbacks (delete h (callbacks s)) s)).
Proof.
  intros Hok Hp. pose proof (toast_timers_ok_delete h s Hok) as Hok1.
  assert (∀ h' t', callbacks (with_callbacks (delete h (callbacks s)) s) !! h' = Some t' →
                   tt_action t' ≠ tt_action t) as Hnone.
  { simpl. intros h' t' [Hne Hp']%lookup_delete_Some Heq.
    destruct (callbacks_tracked _ Hok _ _ Hp) as [_ Hv].
    destruct (callbacks_tracked _ Hok _ _ Hp') as [_ Hv'].
    rewrite Heq in Hv'. congruence. }
  destruct (tt_action t) eqn:Ha; simpl.
  - by apply (toast_timers_ok_reset HeaderExit).
  - by apply toast_timers_ok_logic.
  - by apply toast_timers_ok_logic.
  - apply toast_timers_ok_logic. by apply (toast_timers_ok_reset SwapContent).
Qed.

Lemma toast_timers_ok_onUnmounted s :
  toast_timers_ok s → toast_timers_ok (toast_onUnmounted s).
Proof.
  intros Hok. unfold toast_onUnmounted.
  set (s1 := clear_if_set _ _).
  assert (toast_timers_ok s1) as [H1 H2 H3 H4]
    by (subst s1; by do 4 apply toast_timers_ok_clear_if_set).
  split; simpl; [done| | |].
  - intros h t Hp. destruct (H2 _ _ Hp) as [? Hv]. split; [done|]. by destruct (tt_action t).
  - intros cb h Hv. apply (H3 cb). by destruct cb.
  - intros cb1 cb2 h Hv1 Hv2. apply (H4 cb1 cb2 h); [by destruct cb1 | by destruct cb2].
Qed.

Lemma toast_timers_ok_step s e s' :
  toast_timers_ok s → toast_step s e = Some s' → toast_timers_ok s'.
Proof.
  intros Hok. destruct e; simpl;
    try (destruct (disposed s); [done|]; intros ?; simplify_eq).
  - by apply toast_timers_ok_watch_prev.
  - by apply toast_timers_ok_watch_auto.
  - by apply toast_timers_ok_watch_refresh.
  - by apply toast_timers_ok_transitionEnd.
  - by apply toast_timers_ok_logic.
  - by apply toast_timers_ok_logic.
  - destruct (callbacks s !! h) as [t|] eqn:Hp; [|done]. intros ?; simplify_eq.
    by apply toast_timers_ok_fire.
  - by apply toast_timers_ok_onUnmounted.
Qed.

Lemma toast_reachable_timers_ok rk0 v0 s : toast_reachable rk0 v0 s → toast_timers_ok s.
Proof.
  induction 1; [apply toast_timers_ok_initial | by eapply toast_timers_ok_step].
Qed.

(** [onUnmounted] leaves no callback of the toast pending. *)
Lemma toast_onUnmounted_empty s :
  toast_timers_ok s → callbacks (toast_onUnmounted s) = ∅.
Proof.
  intros Hok. apply map_empty. intros h.
  destruct (callbacks (toast_onUnmounted s) !! h) as [t|] eqn:Hp; [exfalso|done].
  unfold toast_onUnmounted in Hp. simpl in Hp.
  apply lookup_clear_if_set in Hp as [Hp Hn4].
  apply lookup_clear_if_set in Hp as [Hp Hn3].
  apply lookup_clear_if_set in Hp as [Hp Hn2].
  apply lookup_clear_if_set in Hp as [Hp Hn1].
  destruct (callbacks_tracked _ Hok _ _ Hp) as [Hpos Hv].
  destruct (tt_action t); simpl in Hv; tauto.
Qed.

Lemma disposed_clear_if_set timer s : disposed (clear_if_set timer s) = disposed s.
Proof. by destruct timer as [[|n]|]. Qed.

Lemma disposed_clear_swapTimer s : disposed (clear_swapTimer s) = disposed s.
Proof. unfold clear_swapTimer. by destruct (swapTimerId s) as [[|n]|]. Qed.

Lemma disposed_watch_prev b s : disposed (watch_prev b s) = disposed s.
Proof. unfold watch_prev. destruct b; simpl; [apply disposed_clear_if_set | done]. Qed.

Lemma disposed_watch_auto props s : disposed (watch_auto props s) = disposed s.
Proof.
  unfold watch_auto. destruct (negb _); [done|].
  rewrite <- (disposed_clear_if_set (autoExpandTimer s) s).
  rewrite <- (disposed_clear_if_set (autoCollapseTimer s)
                (clear_if_set (autoExpandTimer s) s)).
  generalize (clear_if_set (autoCollapseTimer s) (clear_if_set (autoExpandTimer s) s)).
  intros s1. destruct (_ || _); [done|].
  destruct (p_autoExpandDelayMs props), (p_autoCollapseDelayMs props);
    repeat case_bool_decide; done.
Qed.

Lemma disposed_watch_refresh rk next s : disposed (watch_refresh rk next s) = disposed s.
Proof.
  unfold watch_refresh. destruct rk; [|done]. case_bool_decide; [done|].
  destruct (is_open _); simpl; apply disposed_clear_swapTimer.
Qed.

Lemma disposed_transitionEnd relevant s :
  disposed (toast_transitionEnd relevant s) = disposed s.
Proof.
  unfold toast_transitionEnd. destruct (negb _); [done|].
  destruct (is_open _); [done|]. destruct (swap_pending _); [|done].
  simpl. apply disposed_clear_swapTimer.
Qed.

Lemma disposed_step s e s' :
  toast_step s e = Some s' → disposed s' = true →
  disposed s = true ∨ e = TUnmount.
Proof.
  destruct (disposed s) eqn:Hd; [by left|]. intros Hs Hd'. right.
  destruct e; simpl in Hs; rewrite ?Hd in Hs; simplify_eq; try done; exfalso.
  - rewrite disposed_watch_prev in Hd'. congruence.
  - rewrite disposed_watch_auto in Hd'. congruence.
  - rewrite disposed_watch_refresh in Hd'. congruence.
  - rewrite disposed_transitionEnd in Hd'. congruence.
  - simpl in Hd'. congruence.
  - simpl in Hd'. congruence.
  - destruct (callbacks s !! h) as [t|]; [|done]. simplify_eq.
    destruct (tt_action t); simpl in Hd'; congruence.
Qed.

Lemma toast_reachable_disposed rk0 v0 s :
  toast_reachable rk0 v0 s → disposed s = true → callbacks s = ∅.
Proof.
  induction 1 as [|s e s' Hr IH Hs]; [done|]. intros Hd.
  destruct (disposed_step _ _ _ Hs Hd) as [Hd0 | ->].
  - specialize (IH Hd0). destruct e; simpl in Hs; rewrite ?Hd0 in Hs; try done.
    by rewrite IH, lookup_empty in Hs.
  - simpl in Hs. destruct (disposed s); [done|]. simplify_eq.
    apply toast_onUnmounted_empty. by eapply toast_reachable_timers_ok.
Qed.

(** *** The swap timer and the flag of the refresh logic *)

Lemma swap_live_kind s :
  toast_timers_ok s → swap_live s →
  ∃ h t, callbacks s !! h = Some t ∧ tt_action t = SwapContent.
Proof.
  intros Hok (h & Hv & [t Hp]). exists h, t. split; [done|].
  destruct (callbacks_tracked _ Hok _ _ Hp) as [_ Hv'].
  by apply (variables_distinct _ Hok _ SwapContent h).
Qed.

Lemma swap_live_clear_if_set cb s :
  toast_timers_ok s → cb ≠ SwapContent →
  swap_live (clear_if_set (timer_variable cb s) s) ↔ swap_live s.
Proof.
  intros Hok Hne. unfold swap_live.
  assert (swapTimerId (clear_if_set (timer_variable cb s) s) = swapTimerId s) as ->
    by apply (timer_variable_clear_if_set _ SwapContent).
  split; intros (h & Hv & [t Hp]); exists h; (split; [done|]); exists t.
  - by apply lookup_clear_if_set in Hp as [Hp _].
  - apply lookup_clear_if_set. split; [done|]. intros [Hv' _]. apply Hne.
    by apply (variables_distinct _ Hok _ SwapContent h).
Qed.

Lemma swap_live_set cb d s :
  toast_timers_ok s → cb ≠ SwapContent →
  swap_live (store_handle cb (Some (toast_setTimeout cb d s).1) (toast_setTimeout cb d s).2)
  ↔ swap_live s.
Proof.
  intros Hok Hne. unfold swap_live.
  assert (∀ h, swapTimerId s = Some h →
            callbacks (store_handle cb (Some (toast_setTimeout cb d s).1)
                         (toast_setTimeout cb d s).2) !! h = callbacks s !! h) as Hq.
  { intros h Hv. pose proof (variables_fresh _ Hok SwapContent h Hv).
    destruct cb; simpl; rewrite lookup_insert_ne; done || lia. }
  assert (swapTimerId (store_handle cb (Some (toast_setTimeout cb d s).1)
                         (toast_setTimeout cb d s).2) = swapTimerId s) as ->
    by by destruct cb.
  split; intros (h & Hv & Hp); exists h; (split; [done|]); by rewrite Hq in *.
Qed.

Lemma swap_live_reset cb s :
  cb ≠ SwapContent → swap_live (store_handle cb None s) ↔ swap_live s.
Proof. intros Hne. by destruct cb. Qed.

Lemma swap_live_delete h t s :
  toast_timers_ok s → callbacks s !! h = Some t → tt_action t ≠ SwapContent →
  swap_live (with_callbacks (delete h (callbacks s)) s) ↔ swap_live s.
Proof.
  intros Hok Hp Hne. unfold swap_live. simpl.
  split; intros (h' & Hv & [t' Hp']); exists h'; (split; [done|]); exists t'.
  - by apply lookup_delete_Some in Hp' as [_ ?].
  - apply lookup_delete_Some. split; [|done]. intros <-. apply Hne.
    destruct (callbacks_tracked _ Hok _ _ Hp) as [_ Hv'].
    by apply (variables_distinct _ Hok _ SwapContent h).
Qed.

Lemma not_swap_live_clear_swapTimer s :
  toast_timers_ok s → ¬ swap_live (clear_swapTimer s).
Proof.
  intros Hok Hl. destruct (toast_timers_ok_clear_swapTimer s Hok) as [Hok' Hnone].
  destruct (swap_live_kind _ Hok' Hl) as (h & t & Hp & Ha). by eapply Hnone.
Qed.

Lemma logic_clear_swapTimer s : logic (clear_swapTimer s) = logic s.
Proof. unfold clear_swapTimer. by destruct (swapTimerId s) as [[|n]|]. Qed.

(** On the refs, the watcher of the toast is [on_refresh], and its
    handler of [transitionend] is [handleTransitionEnd]. *)
Lemma logic_watch_refresh rk next s :
  logic (watch_refresh rk next s) = on_refresh rk next (logic s).
Proof.
  unfold watch_refresh, on_refresh. destruct rk as [k|]; [|done].
  case_bool_decide; [done|]. by destruct (is_open (logic s)).
Qed.

Lemma logic_transitionEnd relevant s :
  logic (toast_transitionEnd relevant s) = handleTransitionEnd relevant (logic s).
Proof.
  unfold toast_transitionEnd. destruct relevant; [|done]. cbn [negb].
  destruct (is_open (logic s)) eqn:Ho; [by unfold handleTransitionEnd; rewrite Ho|].
  destruct (swap_pending (logic s)) as [[k payload]|] eqn:Hsp; [done|].
  unfold handleTransitionEnd. cbn [negb]. by rewrite Ho, Hsp.
Qed.

Lemma logic_watch_prev b s : logic (watch_prev b s) = logic s.
Proof. unfold watch_prev. destruct b; simpl; [apply logic_clear_if_set | done]. Qed.

(** The auto expand / collapse logic writes [isExpanded] at most once. *)
Lemma logic_watch_auto props s :
  logic (watch_auto props s) = logic s ∨
  ∃ b, logic (watch_auto props s)
       = mkRefresh (view (logic s)) (applied (logic s)) b (lastRefreshKey (logic s))
           (swap_pending (logic s)) (swapTimer (logic s)).
Proof.
  unfold watch_auto. destruct (negb _); [by left|].
  assert (logic (clear_if_set (autoCollapseTimer s) (clear_if_set (autoExpandTimer s) s))
          = logic s) as Hl by by rewrite !logic_clear_if_set.
  revert Hl.
  generalize (clear_if_set (autoCollapseTimer s) (clear_if_set (autoExpandTimer s) s)).
  intros s1 Hl. destruct (_ || _); [right; exists false; simpl; by rewrite Hl|].
  destruct (p_autoExpandDelayMs props), (p_autoCollapseDelayMs props);
    repeat case_bool_decide; simpl; rewrite ?Hl; auto; right; by exists true.
Qed.

Lemma swap_live_watch_auto props s :
  toast_timers_ok s → swap_live (watch_auto props s) ↔ swap_live s.
Proof.
  intros Hok. unfold watch_auto. destruct (negb _); [done|].
  set (s0 := clear_if_set (autoExpandTimer s) s).
  set (s1 := clear_if_set (autoCollapseTimer s) s0).
  assert (toast_timers_ok s0) as Hok0 by by apply toast_timers_ok_clear_if_set.
  assert (toast_timers_ok s1) as Hok1 by by apply toast_timers_ok_clear_if_set.
  assert (swap_live s1 ↔ swap_live s) as H1.
  { rewrite <- (swap_live_clear_if_set AutoExpand s Hok) by done.
    assert (autoCollapseTimer s = timer_variable AutoCollapse s0) as Heq
      by (symmetry; apply (timer_variable_clear_if_set _ AutoCollapse)).
    unfold s1. rewrite Heq. by apply swap_live_clear_if_set. }
  destruct (_ || _); [done|].
  assert (∀ e c,
    swap_live
      (let s2 := if bool_decide (nullish e 0 > 0)
                 then let '(h, s') := toast_setTimeout AutoExpand (nullish e 0) s1 in
                      with_autoExpandTimer (Some h) s'
                 else set_isExpanded true s1 in
       if bool_decide (nullish c 0 > 0)
       then let '(h, s') := toast_setTimeout AutoCollapse (nullish c 0) s2 in
            with_autoCollapseTimer (Some h) s'
       else s2) ↔ swap_live s) as Hset.
  { intros e c. cbv zeta. rewrite <- H1.
    set (s2 := if bool_decide (nullish e 0 > 0) then _ else _).
    assert (toast_timers_ok s2 ∧ (swap_live s2 ↔ swap_live s1)) as [Hok2 H2].
    { subst s2. case_bool_decide.
      - split; [|by apply (swap_live_set AutoExpand)].
        apply (toast_timers_ok_set AutoExpand); [done|].
        intros h t Hp%callbacks_clear_if_set. by apply (clear_if_set_none AutoExpand s h t).
      - split; [by apply toast_timers_ok_logic | done]. }
    rewrite <- H2. case_bool_decide; [|done]. by apply (swap_live_set AutoCollapse). }
  destruct (p_autoExpandDelayMs props) as [e|], (p_autoCollapseDelayMs props) as [c|];
    [apply (Hset (Some e) (Some c)) | apply (Hset (Some e) None)
     | apply (Hset None (Some c)) | done].
Qed.

Lemma swapTimer_watch_auto props s :
  swapTimer (logic (watch_auto props s)) = swapTimer (logic s).
Proof. by destruct (logic_watch_auto props s) as [-> | [b ->]]. Qed.

Lemma swap_agrees_step s e s' :
  toast_timers_ok s → swap_agrees s → toast_step s e = Some s' →
  disposed s' = false → swap_agrees s'.
Proof.
  intros Hok Hag Hs Hd'. unfold swap_agrees in *.
  destruct e; simpl in Hs;
    try (destruct (disposed s); [done|]; simplify_eq).
  - rewrite logic_watch_prev, Hag. unfold watch_prev. destruct prev_set; [|done].
    simpl negb. cbv iota.
    rewrite (swap_live_set HeaderExit HEADER_EXIT_MS
               (clear_if_set (timer_variable HeaderExit s) s))
      by (done || by apply toast_timers_ok_clear_if_set).
    by rewrite swap_live_clear_if_set.
  - by rewrite swapTimer_watch_auto, swap_live_watch_auto.
  - rewrite logic_watch_refresh. unfold watch_refresh, on_refresh.
    destruct rk as [k|]; [|done].
    case_bool_decide; [done|].
    pose proof (not_swap_live_clear_swapTimer s Hok) as Hno.
    destruct (is_open (logic s)); simpl.
    + split; [intros _|done]. exists (nextTimer (clear_swapTimer s)).
      split; [done|]. simpl. rewrite lookup_insert_eq. by eexists.
    + split; [done|]. intros Hl. by destruct Hno.
  - rewrite logic_transitionEnd. unfold toast_transitionEnd, handleTransitionEnd.
    destruct relevant; simpl; [|done].
    destruct (is_open (logic s)); [done|].
    destruct (swap_pending (logic s)) as [[k payload]|]; [|done]. simpl.
    split; [done|]. intros Hl. by destruct (not_swap_live_clear_swapTimer s Hok).
  - simpl. rewrite <- Hag. unfold handleEnter. by destruct (hasDesc _).
  - simpl. by rewrite <- Hag.
  - destruct (callbacks s !! h) as [t|] eqn:Hp; [|done]. simplify_eq.
    destruct (tt_action t) eqn:Ha; simpl.
    + rewrite Hag. rewrite (swap_live_reset HeaderExit) by done.
      apply (iff_sym (swap_live_delete h t s Hok Hp ltac:(by rewrite Ha))).
    + rewrite Hag. apply (iff_sym (swap_live_delete h t s Hok Hp ltac:(by rewrite Ha))).
    + rewrite Hag. apply (iff_sym (swap_live_delete h t s Hok Hp ltac:(by rewrite Ha))).
    + unfold on_swap_timeout. destruct (swap_pending (logic s)) as [[k payload]|]; simpl;
        (split; [done|]); by intros (h' & ? & _).
Qed.

Lemma disposed_stays s e s' :
  toast_step s e = Some s' → disposed s = true → disposed s' = true.
Proof.
  intros Hs Hd. destruct e; simpl in Hs; rewrite ?Hd in Hs; try done.
  destruct (callbacks s !! h) as [t|]; [|done]. simplify_eq.
  by destruct (tt_action t).
Qed.

Lemma toast_reachable_swap_agrees rk0 v0 s :
  toast_reachable rk0 v0 s → disposed s = false → swap_agrees s.
Proof.
  induction 1 as [|s e s' Hr IH Hs]; intros Hd.
  - split; [done|]. by intros (h & ? & _).
  - eapply swap_agrees_step; [by eapply toast_reachable_timers_ok| |done..].
    apply IH. destruct (disposed s) eqn:Hd0; [|done].
    by rewrite (disposed_stays _ _ _ Hs Hd0) in Hd.
Qed.

(** The refs of a toast follow the refresh logic. *)
Lemma toast_reachable_logic rk0 v0 s :
  toast_reachable rk0 v0 s → refresh_reachable rk0 v0 (logic s).
Proof.
  induction 1 as [|s e s' Hr IH Hs]; [apply refresh_start|].
  destruct e; simpl in Hs;
    try (destruct (disposed s) eqn:Hd; [done|]; simplify_eq).
  - by rewrite logic_watch_prev.
  - destruct (logic_watch_auto props s) as [-> | [b ->]]; [done|].
    by apply (refresh_next _ _ (logic s) (RAuto b)).
  - rewrite logic_watch_refresh. by apply (refresh_next _ _ (logic s) (RWatch rk next)).
  - rewrite logic_transitionEnd.
    by apply (refresh_next _ _ (logic s) (RTransitionEnd relevant)).
  - by apply (refresh_next _ _ (logic s) REnter).
  - by apply (refresh_next _ _ (logic s) RLeave).
  - destruct (callbacks s !! h) as [t|] eqn:Hp; [|done]. simplify_eq.
    destruct (tt_action t) eqn:Ha; simpl.
    + done.
    + by apply (refresh_next _ _ (logic s) (RAuto true)).
    + by apply (refresh_next _ _ (logic s) (RAuto false)).
    + apply (refresh_next _ _ (logic s) RSwapTimeout); [done|]. simpl.
      assert (disposed s = false) as Hd.
      { destruct (disposed s) eqn:Hd; [|done].
        by rewrite (toast_reachable_disposed _ _ _ Hr Hd), lookup_empty in Hp. }
      assert (swapTimer (logic s) = true) as ->; [|done].
      apply (toast_reachable_swap_agrees _ _ _ Hr Hd).
      destruct (callbacks_tracked _ (toast_reachable_timers_ok _ _ _ Hr) _ _ Hp) as [_ Hv].
      rewrite Ha in Hv. exists h. split; [done | by eexists].
  - simpl. by rewrite !logic_clear_if_set.
Qed.

Lemma busy_toast_reachable : toast_reachable (Some "1"%string) plain_view busy_toast.
Proof.
  apply (toast_next _ _ (watch_auto autopilot_props (toast_initial (Some "1"%string) plain_view))
           (TPrev true)); [|reflexivity].
  apply (toast_next _ _ (toast_initial (Some "1"%string) plain_view) (TAuto autopilot_props));
    [apply toast_start | reflexivity].
Qed.

Lemma busy_toast_pending :
  callbacks busy_toast !! 1%nat = Some (mkToastTimer 150 AutoExpand) ∧
  callbacks busy_toast !! 2%nat = Some (mkToastTimer 4000 AutoCollapse) ∧
  callbacks busy_toast !! 3%nat = Some (mkToastTimer 150 HeaderExit).
Proof. split_and!; vm_compute; reflexivity. Qed.

(** C8 (amended): every pending auto-dismiss timer set by [schedule] is
    recorded in the viewport's table; unmounting empties the table and
    leaves no such timer pending, and none is pending or runs in any
    later state.  Every pending timer of a toast component (header
    exit, auto expand, auto collapse, content swap) has its handle in
    the variable of its kind; the toast's [onUnmounted] clears them
    all, and nothing of the toast is pending or runs afterwards.  Only
    the removal timer set by [dismissToast] is never cleared: it stays
    pending through every step but its own firing. *)
Theorem unmount_clears_scheduled_timers (w : World) :
  reachable w →
  (phase w = Mounted →
     timers (onUnmounted w) = ∅ ∧ no_auto_pending (onUnmounted w)) ∧
  (phase w = Unmounted →
     no_auto_pending w ∧
     (∀ h w', step w (EFire h) = Some w' →
        ∃ t tid, pending w !! h = Some t ∧ callback t = RemoveExited tid) ∧
     (∀ e w', step w e = Some w' → phase w' = Unmounted)) ∧
  (∀ h t tid, pending w !! h = Some t → callback t = AutoDismiss tid →
     ∃ k, timers w !! k = Some h) ∧
  (∀ h t tid e w', pending w !! h = Some t → callback t = RemoveExited tid →
     step w e = Some w' → e ≠ EFire h → pending w' !! h = Some t) ∧
  (* the four timers of a toast *)
  (∀ rk0 v0 s, toast_reachable rk0 v0 s →
     (∀ h t, callbacks s !! h = Some t →
        (1 <= h)%nat ∧ timer_variable (tt_action t) s = Some h) ∧
     (disposed s = false → callbacks (toast_onUnmounted s) = ∅) ∧
     (disposed s = true → callbacks s = ∅ ∧ ∀ e, toast_step s e = None)).
Proof.
  intros Hr. destruct (reachable_Inv _ Hr) as [Hok Hg]. split_and!.
  - intros Hm.
    assert (Inv (onUnmounted w)) as [Hok' Hg'].
    { apply (Inv_step w EUnmount); [|done]. unfold step. by rewrite bool_decide_eq_true_2. }
    split; [done|]. by apply timers_empty_no_auto.
  - intros Hu.
    assert (no_auto_pending w) as Hno.
    { apply timers_empty_no_auto; [done|]. apply (unmounted_empty _ Hg). congruence. }
    split_and!; [done| |].
    + intros h w' Hs. simpl in Hs.
      destruct (pending w !! h) as [t|] eqn:Hp; [|done].
      destruct (Hno _ _ Hp) as [tid Hc]. by exists t, tid.
    + intros e w' Hs. by eapply unmounted_forever.
  - apply (auto_recorded _ Hok).
  - intros h t tid e w' Hp Hc Hs Hne. by eapply removal_timer_no_clear.
  - intros rk0 v0 s Hs. pose proof (toast_reachable_timers_ok _ _ _ Hs) as Hts.
    split_and!.
    + apply (callbacks_tracked _ Hts).
    + intros _. by apply toast_onUnmounted_empty.
    + intros Hd. pose proof (toast_reachable_disposed _ _ _ Hs Hd) as He.
      split; [done|]. intros e. destruct e; simpl; rewrite ?Hd; try done.
      by rewrite He, lookup_empty.
Qed.

Lemma unmount_clears_scheduled_timers_witness :
  timers (onUnmounted (after mounted_shown)) = ∅ ∧
  no_auto_pending (onUnmounted (after mounted_shown)) ∧
  callbacks (toast_onUnmounted busy_toast) = ∅.
Proof.
  assert (reachable (after mounted_shown)) as Hr
    by (apply (run_reachable mounted_shown); vm_compute; reflexivity).
  destruct (unmount_clears_scheduled_timers (after mounted_shown) Hr)
    as (Hm & _ & _ & _ & Ht).
  destruct (Hm ltac:(vm_compute; reflexivity)) as [H1 H2].
  split_and!; [exact H1 | exact H2 |].
  apply (proj1 (proj2 (Ht _ _ _ busy_toast_reachable))). reflexivity.
Defined.


Lemma run_swipe_then_unmount :
  run initial swipe_then_unmount = Some (after swipe_then_unmount).
Proof. vm_compute. reflexivity. Qed.

(** C8, as stated, fails: the removal timer that the viewport's
    [dismissToast] set runs after the viewport is unmounted. *)
Lemma removal_timer_runs_after_unmount :
  reachable (after swipe_then_unmount) ∧
  phase (after swipe_then_unmount) = Unmounted ∧
  pending (after swipe_then_unmount) !! 2%nat = Some (mkTimer 600 (RemoveExited "x")) ∧
  is_Some (step (after swipe_then_unmount) (EFire 2%nat)).
Proof.
  split_and!.
  - apply (run_reachable swipe_then_unmount). apply run_swipe_then_unmount.
  - vm_compute. reflexivity.
  - vm_compute. reflexivity.
  - vm_compute. eexists. reflexivity.
Qed.

(** C5 (amended): an id leaves the registry only in a step of [clear]
    or in the step of a removal timer of that id.  [dismiss], the
    dismissal from the viewport and the expiry of an auto-dismiss timer
    remove nothing: they mark the record exiting and schedule its
    removal 600 ms later.  [clear()] empties the registry at once. *)
Theorem removal_only_by_clear_or_exit_timer (w : World) (e : Event) (w' : World) :
  step w e = Some w' →
  (∀ r, r ∈ toasts w → exiting r = false → id r ∉ id <$> toasts w' →
     (∃ pos, e = EClear pos) ∨
     (∃ h t, e = EFire h ∧ pending w !! h = Some t ∧ callback t = RemoveExited (id r))) ∧
  (∀ tid,
     e = EDismiss tid ∨ e = ESwipe tid ∨
     (∃ h t, e = EFire h ∧ pending w !! h = Some t ∧ callback t = AutoDismiss tid) →
     id <$> toasts w' = id <$> toasts w ∧
     ∀ item, find_id tid (toasts w) = Some item → exiting item = false →
       (∀ r', r' ∈ toasts w' → id r' = tid → exiting r' = true) ∧
       ∃ h', pending w' !! h' = Some (mkTimer (now w + 600) (RemoveExited tid))) ∧
  (e = EClear None → toasts w' = []).
Proof.
  intros Hs. split_and!.
  - intros r Hr Hex Hout. eapply id_leaves_registry; [done| |done].
    by apply list_elem_of_fmap_2.
  - intros tid He.
    assert (toasts w' = toasts (dismissToast tid w) ∧
            ∃ w0, w' = dismissToast tid w0 ∧ toasts w0 = toasts w ∧ now w0 = now w ∧
                  ∀ h t, pending w0 !! h = Some t → pending w !! h = Some t)
      as (Ht & w0 & -> & Ht0 & Hn0 & Hp0).
    { destruct He as [-> | [-> | (h & t & -> & Hp & Hc)]].
      - unfold step in Hs. simplify_eq. split; [done|]. by exists w.
      - unfold step in Hs. case_bool_decide; simplify_eq. split; [done|]. by exists w.
      - unfold step in Hs. rewrite Hp in Hs. case_bool_decide; simplify_eq.
        rewrite Hc. simpl. split.
        + by rewrite !toasts_dismissToast.
        + eexists. split_and!; [done..|]. simpl. by intros h' t' [_ ?]%lookup_delete_Some. }
    rewrite Ht. split; [apply ids_dismissToast|].
    intros item Hf Hex.
    destruct (dismissToast_live tid w item Hf Hex) as [Hm _].
    split.
    + intros r'. rewrite Hm. apply mark_id_exiting.
    + rewrite <- Ht0 in Hf. destruct (dismissToast_live tid w0 item Hf Hex) as [_ [h' Hh']].
      exists h'. by rewrite Hh', Hn0, EXIT_DURATION_600.
  - intros ->. by rewrite (toasts_step _ _ _ Hs), toasts_clear.
Qed.

Lemma removal_only_by_clear_or_exit_timer_witness :
  id <$> toasts (dismissToast "x" (after shown)) = id <$> toasts (after shown).
Proof.
  refine (proj1 (proj1 (proj2 (removal_only_by_clear_or_exit_timer
            (after shown) (EDismiss "x") (dismissToast "x" (after shown)) _))
            "x" (or_introl eq_refl))).
  reflexivity.
Defined.


Lemma run_shown : run initial shown = Some (after shown).
Proof. vm_compute. reflexivity. Qed.

(** C5, as stated, fails: [clear()] removes a record that is not
    exiting in one step. *)
Lemma clear_removes_without_exiting :
  reachable (after shown) ∧
  (∃ r, r ∈ toasts (after shown) ∧ id r = "x"%string ∧ exiting r = false) ∧
  (∃ w', step (after shown) (EClear None) = Some w' ∧ toasts w' = []).
Proof.
  split_and!.
  - apply (run_reachable shown), run_shown.
  - eexists. split_and!; [apply list_elem_of_here | done..].
  - eexists. split; [reflexivity|]. vm_compute. reflexivity.
Qed.


Lemma replace_id_elem tid item l r' :
  r' ∈ replace_id tid item l → (r' = item ∧ tid ∈ id <$> l) ∨ (r' ∈ l ∧ id r' ≠ tid).
Proof.
  unfold replace_id. intros (r & -> & Hr)%list_elem_of_fmap.
  case_bool_decide as Hid.
  - left. split; [done|]. rewrite <- Hid. by apply list_elem_of_fmap_2.
  - by right.
Qed.

(** C3 (amended): in every step other than a [createToast] or an
    [updateToast] for its id, a record that is exiting stays exiting
    while a record with its id is in the registry.  A [createToast] for
    the id of a record that is exiting drops that record and appends a
    fresh one that is not exiting.  A dismissal schedules the removal a
    tenth of the default duration later; that timer stays pending until
    it runs, and it runs exactly when due; it then removes the record
    under the id that is exiting and keeps every record under another
    id.  (A record that is not exiting when the timer runs is outside
    this property.) *)
Theorem exiting_kept_except_replace (w : World) (e : Event) (w' : World) :
  reachable w → step w e = Some w' →
  (∀ r r', r ∈ toasts w → exiting r = true → r' ∈ toasts w' → id r' = id r →
     exiting r' = true ∨
     (∃ o rnd, e = ECreate o rnd ∧ resolved_id (store_options w) o = id r) ∨
     (∃ o rnd, e = EUpdate (id r) o rnd)) ∧
  (∀ o rnd, e = ECreate o rnd →
     find_id (resolved_id (store_options w) o) (live (toasts w)) = None →
     toasts w' = filter (λ t, id t ≠ resolved_id (store_options w) o) (toasts w)
                 ++ [created_item o rnd w] ∧
     exiting (created_item o rnd w) = false) ∧
  (∀ tid item, e = EDismiss tid ∨ e = ESwipe tid →
     find_id tid (toasts w) = Some item → exiting item = false →
     ∃ h, pending w' !! h = Some (mkTimer (now w + DEFAULT_DURATION / 10) (RemoveExited tid))) ∧
  (∀ h t tid, pending w !! h = Some t → callback t = RemoveExited tid →
     (e ≠ EFire h → pending w' !! h = Some t) ∧
     (e = EFire h →
        now w = due t ∧
        (∀ r, r ∈ toasts w → id r = tid → exiting r = true → r ∉ toasts w') ∧
        (∀ r, r ∈ toasts w → id r ≠ tid → r ∈ toasts w'))).
Proof.
  intros Hr Hs. pose proof (reachable_unique_ids _ Hr) as Hnd. unfold unique_ids in Hnd.
  destruct (reachable_Inv _ Hr) as [Hok Hg]. split_and!.
  - intros r r' Hin Hex Hin' Hid.
    assert (r' ∈ toasts w → exiting r' = true) as Hsame.
    { intros Hr'. by rewrite (unique_ids_eq _ r' r Hnd Hr' Hin Hid). }
    rewrite (toasts_step _ _ _ Hs) in Hin'. destruct e; auto.
    + rewrite toasts_createToast in Hin'. cbv zeta in Hin'.
      destruct (decide (resolved_id (store_options w) o = id r)) as [He|Hne];
        [right; left; by exists o, rnd|]. left.
      destruct (find_id _ _).
      * apply replace_id_elem in Hin' as [[-> _]|[Hr' _]]; [|by auto].
        by rewrite id_created_item in Hid.
      * apply elem_of_app in Hin' as [[_ Hr']%list_elem_of_filter|Hn%list_elem_of_singleton];
          [by auto|]. subst r'. by rewrite id_created_item in Hid.
    + rewrite toasts_updateToast in Hin'.
      destruct (decide (tid = id r)) as [->|Hne]; [right; right; by exists o, rnd|]. left.
      destruct (find_id _ _); [|by auto].
      apply replace_id_elem in Hin' as [[-> _]|[Hr' _]]; [|by auto].
      unfold updated_item in Hid. simpl in Hid. congruence.
    + left. rewrite toasts_dismissToast in Hin'.
      destruct (find_id _ _) as [item|]; [|by auto]. destruct (exiting item); [by auto|].
      apply elem_of_mark_id in Hin' as (r0 & Hr0 & ->).
      case_bool_decide; [done|]. by rewrite (unique_ids_eq _ r0 r Hnd Hr0 Hin Hid).
    + left. rewrite toasts_clear in Hin'. destruct pos.
      * apply list_elem_of_filter in Hin' as [_ ?]. auto.
      * by apply elem_of_nil in Hin'.
    + left. rewrite toasts_dismissToast in Hin'.
      destruct (find_id _ _) as [item|]; [|by auto]. destruct (exiting item); [by auto|].
      apply elem_of_mark_id in Hin' as (r0 & Hr0 & ->).
      case_bool_decide; [done|]. by rewrite (unique_ids_eq _ r0 r Hnd Hr0 Hin Hid).
    + left. destruct (callback <$> pending w !! h) as [[tid|tid]|]; [| |by auto].
      * rewrite toasts_dismissToast in Hin'.
        destruct (find_id _ _) as [item|]; [|by auto]. destruct (exiting item); [by auto|].
        apply elem_of_mark_id in Hin' as (r0 & Hr0 & ->).
        case_bool_decide; [done|]. by rewrite (unique_ids_eq _ r0 r Hnd Hr0 Hin Hid).
      * apply list_elem_of_filter in Hin' as [_ ?]. auto.
  - intros o rnd -> Hf. unfold step in Hs. simplify_eq.
    rewrite toasts_createToast. cbv zeta. by rewrite Hf.
  - intros tid item He Hf Hex.
    assert (w' = dismissToast tid w) as ->.
    { destruct He as [-> | ->]; unfold step in Hs; repeat case_bool_decide; by simplify_eq. }
    destruct (dismissToast_live tid w item Hf Hex) as [_ [h Hh]].
    exists h. by rewrite Hh.
  - intros h t tid Hp Hc. split.
    + intros Hne. by eapply removal_timer_no_clear.
    + intros ->. split; [by eapply fire_exactly_due|].
      destruct (fire_removal _ _ _ _ _ Hs Hp Hc) as [-> _]. split.
      * intros r _ Hid _ [Hne _]%list_elem_of_filter. by apply Hne.
      * intros r Hin Hne. by apply list_elem_of_filter.
Qed.

Lemma exiting_kept_except_replace_witness :
  ∃ h, pending (dismissToast "x" (after shown)) !! h
       = Some (mkTimer (now (after shown) + DEFAULT_DURATION / 10) (RemoveExited "x")).
Proof.
  refine (proj1 (proj2 (proj2 (exiting_kept_except_replace
            (after shown) (EDismiss "x") (dismissToast "x" (after shown)) _ _)))
            "x" (created_item (with_id "x") 1%nat initial) (or_introl eq_refl) _ _).
  - apply (run_reachable shown). vm_compute. reflexivity.
  - reflexivity.
  - vm_compute. reflexivity.
  - reflexivity.
Defined.


Lemma run_shown_dismissed : run initial shown_dismissed = Some (after shown_dismissed).
Proof. vm_compute. reflexivity. Qed.

(** C3, as stated, fails: after a dismissal, [createToast] with the same
    id puts a record that is not exiting under that id. *)
Lemma exiting_record_replaced_by_create :
  reachable (after shown_dismissed) ∧
  (∃ r, toasts (after shown_dismissed) = [r] ∧ id r = "x"%string ∧ exiting r = true) ∧
  (∃ w' r', step (after shown_dismissed) (ECreate (with_id "x") 2%nat) = Some w' ∧
            toasts w' = [r'] ∧ id r' = "x"%string ∧ exiting r' = false).
Proof.
  split_and!.
  - apply (run_reachable shown_dismissed), run_shown_dismissed.
  - eexists. split_and!; [vm_compute; reflexivity | reflexivity..].
  - eexists _, _. split_and!; [reflexivity | vm_compute; reflexivity | reflexivity..].
Qed.

(** The revival through [updateToast], which a promise that settles
    during the exit animation performs. *)
Lemma updateToast_revives_exiting :
  ∃ r', toasts (updateToast "x" (with_id "x") 2%nat (after shown_dismissed)) = [r'] ∧
        exiting r' = false.
Proof. eexists. split; [vm_compute; reflexivity | reflexivity]. Qed.

Lemma run_recreated_during_exit :
  run initial recreated_during_exit = Some (after recreated_during_exit).
Proof. vm_compute. reflexivity. Qed.

(** C6, evaluated where the code departs from it: a toast is shown at
    time 0, dismissed at 100 and shown again under the same id at 200.
    At 700 the removal scheduled by the dismissal removes the record that
    was created after the dismissal and was never exiting. *)
Theorem stale_removal_removes_recreated :
  reachable (after recreated_during_exit) ∧
  now (after recreated_during_exit) = 700 ∧
  (∃ r, toasts (after recreated_during_exit) = [r] ∧ id r = "x"%string ∧
        instanceId r = (2%nat, 200, 2%nat) ∧ exiting r = false) ∧
  pending (after recreated_during_exit) !! 1%nat = Some (mkTimer 700 (RemoveExited "x")) ∧
  (∃ w', step (after recreated_during_exit) (EFire 1%nat) = Some w' ∧ toasts w' = []).
Proof.
  split_and!.
  - apply (run_reachable recreated_during_exit), run_recreated_during_exit.
  - vm_compute. reflexivity.
  - eexists. split_and!; [vm_compute; reflexivity | reflexivity..].
  - vm_compute. reflexivity.
  - eexists. split; [vm_compute; reflexivity|]. vm_compute. reflexivity.
Qed.



Lemma state_updated_item tid s o rnd existing w :
  state (updated_item tid (with_state_id s tid o) rnd existing w) = Some s.
Proof. reflexivity. Qed.

(** [updateToast] with [{ ...o, state: s, id }]: a no-op when no record
    has the id; otherwise every record with the id is in state [s]. *)
Lemma updateToast_state tid s o rnd w :
  (tid ∉ id <$> toasts w → updateToast tid (with_state_id s tid o) rnd w = w) ∧
  (tid ∈ id <$> toasts w →
     (∃ r, r ∈ toasts (updateToast tid (with_state_id s tid o) rnd w) ∧ id r = tid) ∧
     ∀ r, r ∈ toasts (updateToast tid (with_state_id s tid o) rnd w) → id r = tid →
          state r = Some s ∧ exiting r = false).
Proof.
  split.
  - intros Hn%find_id_None. unfold updateToast. by rewrite Hn.
  - intros Hin. pose proof Hin as [existing He]%find_id_is_Some.
    rewrite toasts_updateToast, He. split.
    + exists (updated_item tid (with_state_id s tid o) rnd existing w). split; [|done].
      apply find_id_Some in He as [Hex Hid].
      unfold replace_id. apply list_elem_of_fmap. exists existing.
      by rewrite bool_decide_eq_true_2.
    + intros r [[-> _]|[_ Hne]]%replace_id_elem Hid; [done | by destruct Hne].
Qed.

(** C2 (amended): [promise] returns the operation's own promise.  On
    fulfilment, when the action resolver (if supplied, else the success
    resolver) returns, only that branch is entered and the toast is
    updated to the action (else success) state, never to error; on
    rejection, when the error resolver returns, only the error branch is
    entered and the toast is updated to the error state.  The update
    replaces the record with the captured id if one is in the registry
    and is a no-op otherwise. *)
Theorem promise_one_branch {T E : Type} (opts : SileoPromiseOptions T E) :
  (∀ operation rnd w,
     (promise operation opts rnd w).1.1
       = match operation with Started p => p | Factory f => f () end ∧
     (promise operation opts rnd w).1.2 = resolved_id (store_options w) (loading_options opts) ∧
     (promise operation opts rnd w).2 = (createToast (loading_options opts) rnd w).2) ∧
  (∀ tid data rnd w o,
     resolve (fulfilled_resolver opts) data = Normal o →
     let w' := updateToast tid (with_state_id (fulfilled_branch opts).2 tid o) rnd w in
     settle opts tid (Fulfilled data) rnd w = ([(fulfilled_branch opts).1], w') ∧
     (fulfilled_branch opts).1 ≠ BError ∧
     (tid ∉ id <$> toasts w → w' = w) ∧
     (tid ∈ id <$> toasts w →
        (∃ r, r ∈ toasts w' ∧ id r = tid) ∧
        ∀ r, r ∈ toasts w' → id r = tid →
          state r = Some (fulfilled_branch opts).2 ∧ state r ≠ Some Error)) ∧
  (∀ tid err rnd w o,
     resolve (p_error opts) err = Normal o →
     let w' := updateToast tid (with_state_id Error tid o) rnd w in
     settle opts tid (Rejected err) rnd w = ([BError], w') ∧
     (tid ∉ id <$> toasts w → w' = w) ∧
     (tid ∈ id <$> toasts w →
        (∃ r, r ∈ toasts w' ∧ id r = tid) ∧
        ∀ r, r ∈ toasts w' → id r = tid →
          state r = Some Error ∧ state r ≠ Some Success ∧ state r ≠ Some Action)).
Proof.
  split_and!.
  - intros operation rnd w. unfold promise.
    destruct (createToast (loading_options opts) rnd w) as [[tid d] w1] eqn:Hc.
    simpl. split_and!; [done| |done].
    by rewrite <- (createToast_id _ rnd), Hc.
  - intros tid data rnd w o Hres. cbv zeta.
    unfold fulfilled_branch, fulfilled_resolver in *.
    destruct (updateToast_state tid (match p_action opts with Some _ => (BAction, Action) | None => (BSuccess, Success) end).2 o rnd w) as [Hno Hyes].
    split_and!.
    + unfold settle, onFulfilled. destruct (p_action opts); by rewrite Hres.
    + by destruct (p_action opts).
    + done.
    + intros Hin. destruct (Hyes Hin) as [Hex Hall]. split; [done|].
      intros r Hr Hid. destruct (Hall r Hr Hid) as [Hs _]. split; [done|].
      rewrite Hs. by destruct (p_action opts).
  - intros tid err rnd w o Hres. cbv zeta.
    destruct (updateToast_state tid Error o rnd w) as [Hno Hyes].
    split_and!.
    + unfold settle, onRejected. by rewrite Hres.
    + done.
    + intros Hin. destruct (Hyes Hin) as [Hex Hall]. split; [done|].
      intros r Hr Hid. destruct (Hall r Hr Hid) as [Hs _]. by rewrite Hs.
Qed.

(** C2, as stated, fails: when the registry was cleared before the
    promise is fulfilled, the success branch runs and no toast reaches
    the success state. *)
Lemma promise_fulfilled_after_clear :
  (settle static_promise "sileo-default" (Fulfilled ()) 2%nat loading_cleared).1 = [BSuccess] ∧
  toasts (settle static_promise "sileo-default" (Fulfilled ()) 2%nat loading_cleared).2 = [] ∧
  ¬ ∃ r, r ∈ toasts (settle static_promise "sileo-default" (Fulfilled ()) 2%nat loading_cleared).2
         ∧ state r = Some Success.
Proof.
  assert (toasts (settle static_promise "sileo-default" (Fulfilled ()) 2%nat loading_cleared).2 = []) as He
    by (vm_compute; reflexivity).
  split_and!; [vm_compute; reflexivity | exact He |].
  rewrite He. intros (r & Hr & _). by apply elem_of_nil in Hr.
Qed.

(** When the success resolver throws, the rejection of the derived
    promise reaches [catch]: both branches are entered and the toast ends
    in the error state although the operation was fulfilled. *)
Lemma settle_throwing_success :
  (settle throwing_promise "sileo-default" (Fulfilled ()) 2%nat loading_shown).1
    = [BSuccess; BError] ∧
  state <$> toasts (settle throwing_promise "sileo-default" (Fulfilled ()) 2%nat loading_shown).2
    = [Some Error].
Proof. split; vm_compute; reflexivity. Qed.

(** * Further properties *)

(** ** Dismissing twice *)

Lemma find_id_mark_id tid l : find_id tid (mark_id tid l) = mark_exiting <$> find_id tid l.
Proof.
  unfold find_id, mark_id. induction l as [|x l IH]; [done|].
  rewrite fmap_cons. cbn [List.find]. rewrite IH.
  destruct (decide (id x = tid)) as [Hx|Hx].
  - rewrite !(bool_decide_eq_true_2 (id x = tid)) by done. simpl.
    by rewrite ?bool_decide_eq_true_2.
  - rewrite !(bool_decide_eq_false_2 (id x = tid)) by done. simpl.
    by rewrite ?bool_decide_eq_false_2.
Qed.

(** X1: dismissing an id twice is the same as dismissing it once: the
    second call finds the record exiting (or no record) and changes
    nothing, so no second removal timer is set. *)
Theorem dismiss_twice (tid : string) (w : World) :
  sileo.dismiss tid (sileo.dismiss tid w) = sileo.dismiss tid w.
Proof.
  unfold sileo.dismiss.
  rewrite (dismissToast_world tid (dismissToast tid w)), toasts_dismissToast.
  destruct (find_id tid (toasts w)) as [item|] eqn:Hf.
  - destruct (exiting item) eqn:Hex.
    + by rewrite Hf, Hex.
    + by rewrite find_id_mark_id, Hf.
  - by rewrite Hf.
Qed.

(** ** [updateToast] *)

Lemma replace_id_lookup tid item l i :
  replace_id tid item l !! i
  = (λ t, if bool_decide (id t = tid) then item else t) <$> l !! i.
Proof. unfold replace_id. apply list_lookup_fmap. Qed.

Lemma idCounter_update fn w : idCounter (update fn w) = idCounter w.
Proof.
  unfold update.
  by destruct (emit_store (set_toasts (fn (toasts w)) w)) as (_&_&_&_&->&_).
Qed.

(** X2: [updateToast] on an id that is not in the registry changes
    nothing, not even the id counter.  Otherwise it draws one instance
    id, and the new record takes the index of each record with the id;
    every other index, and the order of the ids, are unchanged; the new
    record keeps the position of the existing one unless the merged
    options give one. *)
Theorem updateToast_in_place (tid : string) (o : InternalSileoOptions) (rnd : nat)
    (w : World) :
  (find_id tid (toasts w) = None → updateToast tid o rnd w = w) ∧
  (∀ existing, find_id tid (toasts w) = Some existing →
     let item := updated_item tid o rnd existing w in
     idCounter (updateToast tid o rnd w) = S (idCounter w) ∧
     instanceId item = (S (idCounter w), now w, rnd) ∧
     id item = tid ∧
     position item
       = nullish (read (opt_position (mergeOptions (store_options w) o))) (position existing) ∧
     (∀ i, toasts (updateToast tid o rnd w) !! i
           = (λ t, if bool_decide (id t = tid) then item else t) <$> toasts w !! i) ∧
     id <$> toasts (updateToast tid o rnd w) = id <$> toasts w).
Proof.
  split.
  - intros Hf. unfold updateToast. by rewrite Hf.
  - intros existing Hf. cbv zeta. split_and!; try done.
    + unfold updateToast. rewrite Hf. simpl. by rewrite idCounter_update.
    + intros i. rewrite toasts_updateToast, Hf. apply replace_id_lookup.
    + apply ids_updateToast.
Qed.

(** ** [mergeOptions] *)

Lemma spread_idem {A} (a b : field A) : spread a (spread a b) = spread a b.
Proof. by destruct a, b. Qed.

(** X3: merging the defaults into options that were already merged with
    them changes nothing. *)
Theorem mergeOptions_idempotent (defaults : option InternalSileoOptions)
    (o : InternalSileoOptions) :
  mergeOptions defaults (mergeOptions defaults o) = mergeOptions defaults o.
Proof.
  unfold mergeOptions. simpl. rewrite !spread_idem. do 2 f_equal.
  unfold merge_styles. simpl. by rewrite !spread_idem.
Qed.

(** ** [latest] *)

Lemma latest_snoc l x :
  latest (l ++ [x]) = if exiting x then latest l else Some (id x).
Proof. unfold latest. rewrite reverse_snoc. simpl. by destruct (exiting x). Qed.

Lemma latest_cases (l : list SileoItem) :
  match latest l with
  | Some i => ∃ l1 r l2, l = l1 ++ r :: l2 ∧ id r = i ∧ exiting r = false ∧
                         Forall (λ t, exiting t = true) l2
  | None => Forall (λ t, exiting t = true) l
  end.
Proof.
  induction l as [|x l IH] using rev_ind; [by constructor|].
  rewrite latest_snoc. destruct (exiting x) eqn:Hx.
  - destruct (latest l) as [i|].
    + destruct IH as (l1 & r & l2 & -> & Hi & Hr & Hall).
      exists l1, r, (l2 ++ [x]). split_and!; [by rewrite <- app_assoc | done..|].
      apply Forall_app. split; [done|]. by constructor.
    + apply Forall_app. split; [done|]. by constructor.
  - exists l, x, []. by split_and!.
Qed.

(** X5: [latest] returns the id of the last record that is not exiting
    (every record after it is exiting), and nothing exactly when every
    record is exiting. *)
Theorem latest_spec (l : list SileoItem) :
  match latest l with
  | Some i => ∃ l1 r l2, l = l1 ++ r :: l2 ∧ id r = i ∧ exiting r = false ∧
                         Forall (λ t, exiting t = true) l2
  | None => Forall (λ t, exiting t = true) l
  end.
Proof. apply latest_cases. Qed.

(** ** Instance ids are fresh *)

Lemma idCounter_dismissToast tid w : idCounter (dismissToast tid w) = idCounter w.
Proof.
  rewrite dismissToast_world. destruct (find_id _ _) as [item|]; [|done].
  destruct (exiting item); [done|]. simpl. apply idCounter_update.
Qed.

Lemma idCounter_createToast o rnd w : idCounter (createToast o rnd w).2 = S (idCounter w).
Proof.
  rewrite createToast_world. cbv zeta. by destruct (find_id _ _); rewrite idCounter_update.
Qed.

Lemma idCounter_updateToast tid o rnd w :
  idCounter (updateToast tid o rnd w)
  = match find_id tid (toasts w) with Some _ => S (idCounter w) | None => idCounter w end.
Proof.
  unfold updateToast. destruct (find_id _ _); [|done]. simpl. apply idCounter_update.
Qed.

Lemma idCounter_step w e w' : step w e = Some w' → (idCounter w ≤ idCounter w')%nat.
Proof.
  destruct e; unfold step; intros Hs; repeat case_bool_decide; simplify_eq; try done.
  - rewrite idCounter_createToast. lia.
  - rewrite idCounter_updateToast. destruct (find_id _ _); lia.
  - by rewrite idCounter_dismissToast.
  - unfold sileo.clear. by rewrite idCounter_update.
  - unfold enter. simpl. by destruct (hovered w).
  - unfold leave. simpl. destruct (hovered w); [|done].
    match goal with |- (_ ≤ idCounter (schedule ?l ?x))%nat =>
      by destruct (schedule_base l x) as (_&_&_&_&->&_) end.
  - by rewrite idCounter_dismissToast.
  - destruct (pending w !! h) as [t|]; [|done]. case_bool_decide; simplify_eq.
    destruct (callback t); simpl;
      [by rewrite idCounter_dismissToast | by rewrite idCounter_update].
Qed.

Lemma counted_mark_id tid l n :
  (∀ r, r ∈ l → (counter (instanceId r) ≤ n)%nat) →
  ∀ r, r ∈ mark_id tid l → (counter (instanceId r) ≤ n)%nat.
Proof.
  intros Hl r (r0 & Hr0 & ->)%elem_of_mark_id.
  case_bool_decide; exact (Hl r0 Hr0).
Qed.

Lemma counted_dismissToast tid w n :
  (∀ r, r ∈ toasts w → (counter (instanceId r) ≤ n)%nat) →
  ∀ r, r ∈ toasts (dismissToast tid w) → (counter (instanceId r) ≤ n)%nat.
Proof.
  intros Hl. rewrite toasts_dismissToast. destruct (find_id _ _) as [item|]; [|done].
  destruct (exiting item); [done | by apply counted_mark_id].
Qed.

Lemma toasts_counted_step w e w' :
  step w e = Some w' →
  (∀ r, r ∈ toasts w → (counter (instanceId r) ≤ idCounter w)%nat) →
  ∀ r, r ∈ toasts w' → (counter (instanceId r) ≤ idCounter w')%nat.
Proof.
  intros Hs Hl r Hr. pose proof (idCounter_step _ _ _ Hs) as Hle.
  assert (∀ r, r ∈ toasts w → (counter (instanceId r) ≤ idCounter w')%nat) as Hl'.
  { intros r0 Hr0. specialize (Hl r0 Hr0). lia. }
  rewrite (toasts_step _ _ _ Hs) in Hr. destruct e; try by apply Hl'.
  - unfold step in Hs. simplify_eq. rewrite toasts_createToast in Hr. cbv zeta in Hr.
    rewrite idCounter_createToast.
    destruct (find_id _ _).
    + apply replace_id_elem in Hr as [[-> _]|[Hr _]]; [done|]. specialize (Hl r Hr). lia.
    + apply elem_of_app in Hr as [[_ Hr]%list_elem_of_filter|Hr%list_elem_of_singleton].
      * specialize (Hl r Hr). lia.
      * by subst r.
  - unfold step in Hs. simplify_eq. rewrite toasts_updateToast in Hr.
    rewrite idCounter_updateToast.
    destruct (find_id _ _); [|by apply Hl].
    apply replace_id_elem in Hr as [[-> _]|[Hr _]]; [done|]. specialize (Hl r Hr). lia.
  - by apply (counted_dismissToast tid w).
  - rewrite toasts_clear in Hr. destruct pos.
    + apply list_elem_of_filter in Hr as [_ Hr]. by apply Hl'.
    + by apply elem_of_nil in Hr.
  - by apply (counted_dismissToast toastId w).
  - destruct (callback <$> pending w !! h) as [[tid|tid]|]; [| |by apply Hl'].
    + by apply (counted_dismissToast tid w).
    + apply list_elem_of_filter in Hr as [_ Hr]. by apply Hl'.
Qed.

Lemma reachable_counters w :
  reachable w →
  (∀ r, r ∈ toasts w → (counter (instanceId r) ≤ idCounter w)%nat) ∧
  (∀ r, r ∈ vtoasts w → (counter (instanceId r) ≤ idCounter w)%nat).
Proof.
  induction 1 as [|w e w' Hr [IHt IHv] Hs].
  - split; intros r Hr; by apply elem_of_nil in Hr.
  - assert (∀ r, r ∈ toasts w' → (counter (instanceId r) ≤ idCounter w')%nat) as Ht
      by by eapply toasts_counted_step.
    split; [done|].
    destruct (vtoasts_step _ _ _ Hs) as [-> | ->]; [|done].
    intros r Hr'. specialize (IHv r Hr'). pose proof (idCounter_step _ _ _ Hs). lia.
Qed.

Lemma built_instanceId_fresh (w : World) (o : InternalSileoOptions) (rnd : nat) :
  reachable w →
  (instanceId (created_item o rnd w) ∉ instanceId <$> toasts w) ∧
  (instanceId (created_item o rnd w) ∉ instanceId <$> vtoasts w) ∧
  (∀ tid existing,
     (instanceId (updated_item tid o rnd existing w) ∉ instanceId <$> toasts w) ∧
     (instanceId (updated_item tid o rnd existing w) ∉ instanceId <$> vtoasts w)) ∧
  idCounter (createToast o rnd w).2 = S (idCounter w).
Proof.
  intros Hr. destruct (reachable_counters _ Hr) as [Ht Hv].
  assert (∀ l : list SileoItem,
    (∀ r, r ∈ l → (counter (instanceId r) ≤ idCounter w)%nat) →
    (S (idCounter w), now w, rnd) ∉ instanceId <$> l) as Hfresh.
  { intros l Hl (r & Heq & Hin)%list_elem_of_fmap. specialize (Hl r Hin).
    rewrite <- Heq in Hl. unfold counter in Hl. simpl in Hl. lia. }
  split_and!; [by apply Hfresh..| |apply idCounter_createToast].
  intros tid existing. split; by apply Hfresh.
Qed.

(** X6: in a reachable state the instance id that [createToast] or
    [updateToast] gives to the record it builds differs from the
    instance id of every record of the registry and of the viewport's
    list; each [createToast] advances the counter by one. *)
Theorem instanceId_fresh (w : World) (o : InternalSileoOptions) (rnd : nat) :
  reachable w →
  (instanceId (created_item o rnd w) ∉ instanceId <$> toasts w) ∧
  (instanceId (created_item o rnd w) ∉ instanceId <$> vtoasts w) ∧
  (∀ tid existing,
     (instanceId (updated_item tid o rnd existing w) ∉ instanceId <$> toasts w) ∧
     (instanceId (updated_item tid o rnd existing w) ∉ instanceId <$> vtoasts w)) ∧
  idCounter (createToast o rnd w).2 = S (idCounter w).
Proof. apply built_instanceId_fresh. Qed.

(** ** The timer table and the viewport's list *)

Lemma table_ok_ext w w' :
  pending w' = pending w → timers w' = timers w → vtoasts w' = vtoasts w →
  table_ok w → table_ok w'.
Proof. intros Hp Ht Hv [H1 H2 H3]. split; rewrite ?Hp, ?Ht, ?Hv; eauto. Qed.

Lemma table_ok_schedule_item w x :
  timers_ok w → x ∈ vtoasts w → table_ok w → table_ok (schedule_item w x).
Proof.
  intros Hok Hx [H1 H2 H3]. unfold schedule_item.
  destruct (exiting x); [done|].
  case_bool_decide as Hk; [done|].
  case_bool_decide as Hd; [done|].
  split; simpl.
  - intros k h [[<- <-]|[? Hp]]%lookup_insert_Some; [by apply list_elem_of_fmap_2|]. eauto.
  - intros h t tid [[<- <-]|[Hne Hp]]%lookup_insert_Some Hc.
    + exists (timeoutKey x). rewrite lookup_insert_eq. simpl in Hc. by simplify_eq.
    + destruct (H2 _ _ _ Hp Hc) as (k & Hk' & Hid). exists k. split; [|done].
      rewrite lookup_insert_ne; [done|]. intros <-. apply Hk. by eexists.
  - intros k1 k2 h [[<- <-]|[Hn1 Hp1]]%lookup_insert_Some
                   [[<- Heq]|[Hn2 Hp2]]%lookup_insert_Some; try done.
    + pose proof (timers_fresh _ Hok _ _ Hp2). lia.
    + pose proof (timers_fresh _ Hok _ _ Hp1). lia.
    + by eapply H3.
Qed.

Lemma table_ok_foldl l w :
  timers_ok w → (∀ x, x ∈ l → x ∈ vtoasts w) → table_ok w →
  table_ok (foldl schedule_item w l).
Proof.
  revert w. induction l as [|x l IH]; intros w Hok Hl Hw; simpl; [done|].
  apply IH.
  - by apply timers_ok_schedule_item.
  - intros y Hy. destruct (schedule_item_base w x) as (_&_&_&_&_&_&_&_&_&_&->&_).
    apply Hl. by right.
  - apply table_ok_schedule_item; [done | apply Hl; left | done].
Qed.

Lemma table_ok_schedule l w :
  timers_ok w → (∀ x, x ∈ l → x ∈ vtoasts w) → table_ok w → table_ok (schedule l w).
Proof.
  intros Hok Hl Hw. unfold schedule.
  destruct (hovered w); [done | by apply table_ok_foldl].
Qed.

Lemma table_ok_clearAllTimers w : table_ok w → table_ok (clearAllTimers w).
Proof.
  intros [H1 H2 H3]. unfold clearAllTimers. split; simpl.
  - intros k h. by rewrite lookup_empty.
  - intros h t tid [Hp Hn]%lookup_clearTimeouts Hc.
    destruct (H2 _ _ _ Hp Hc) as (k & Hk & _). exfalso. apply Hn, elem_of_handles. eauto.
  - intros k1 k2 h. by rewrite lookup_empty.
Qed.

Lemma table_ok_listener next w : timers_ok w → table_ok w → table_ok (listener next w).
Proof.
  intros Hok [H1 H2 H3]. unfold listener. apply table_ok_schedule; [|done|].
  { eapply timers_ok_ext;
      [..|apply (timers_ok_prune (λ kh, kh.1 ∈ timeoutKey <$> next) w Hok)]; done. }
  split; simpl.
  - by intros k h [_ Hk]%map_lookup_filter_Some.
  - intros h t tid [Hp Hn]%lookup_clearTimeouts Hc.
    destruct (H2 _ _ _ Hp Hc) as (k & Hk & Hid). exists k. split; [|done].
    apply map_lookup_filter_Some. split; [done|]. simpl.
    destruct (decide (k ∈ timeoutKey <$> next)) as [|Hnk]; [done|].
    exfalso. apply Hn, elem_of_handles. exists k.
    by apply map_lookup_filter_Some.
  - intros k1 k2 h [Hk1 _]%map_lookup_filter_Some [Hk2 _]%map_lookup_filter_Some.
    by eapply H3.
Qed.

Lemma table_ok_update fn w : timers_ok w → table_ok w → table_ok (update fn w).
Proof.
  intros Hok Hw. unfold update, emit. simpl. destruct (listeners w).
  - apply table_ok_listener.
    + by eapply timers_ok_ext; [..|exact Hok].
    + by eapply table_ok_ext; [..|exact Hw].
  - by eapply table_ok_ext; [..|exact Hw].
Qed.

Lemma table_ok_setTimeout_removal tid d w :
  table_ok w → table_ok (setTimeout (RemoveExited tid) d w).2.
Proof.
  intros [H1 H2 H3]. split; simpl; [done| |done].
  intros h t tid' [[<- <-]|[Hne Hp]]%lookup_insert_Some Hc; [done | by eapply H2].
Qed.

Lemma table_ok_dismissToast tid w :
  timers_ok w → table_ok w → table_ok (dismissToast tid w).
Proof.
  intros Hok Hw. rewrite dismissToast_world. destruct (find_id _ _) as [item|]; [|done].
  destruct (exiting item); [done|].
  by apply table_ok_setTimeout_removal, table_ok_update.
Qed.

Lemma table_ok_run_callback cb w :
  timers_ok w → table_ok w → table_ok (run_callback cb w).
Proof. destruct cb; [apply table_ok_dismissToast | apply table_ok_update]. Qed.

Lemma table_ok_step w e w' : Inv w → step w e = Some w' → table_ok w → table_ok w'.
Proof.
  intros [Hok Hg] Hs Hw.
  destruct e; unfold step in Hs; repeat case_bool_decide; simplify_eq.
  - rewrite createToast_world. cbv zeta.
    destruct (find_id _ _); (apply table_ok_update;
      [by eapply timers_ok_ext; [..|exact Hok] | by eapply table_ok_ext; [..|exact Hw]]).
  - unfold updateToast. destruct (find_id _ _); [|done]. simpl.
    apply table_ok_update;
      [by eapply timers_ok_ext; [..|exact Hok] | by eapply table_ok_ext; [..|exact Hw]].
  - by apply table_ok_dismissToast.
  - by apply table_ok_update.
  - destruct Hw as [H1 H2 H3]. split; simpl.
    + intros k h. by rewrite lookup_empty.
    + intros h t tid Hp Hc. destruct (H2 _ _ _ Hp Hc) as (k & Hk & _).
      rewrite (unmounted_empty _ Hg), lookup_empty in Hk; [done | congruence].
    + intros k1 k2 h. by rewrite lookup_empty.
  - by eapply table_ok_ext; [..|exact Hw].
  - apply table_ok_clearAllTimers. by eapply table_ok_ext; [..|exact Hw].
  - by eapply table_ok_ext; [..|exact Hw].
  - unfold enter. simpl. destruct (hovered w).
    + by eapply table_ok_ext; [..|exact Hw].
    + apply table_ok_clearAllTimers. by eapply table_ok_ext; [..|exact Hw].
  - unfold leave. simpl. destruct (hovered w).
    + apply table_ok_schedule; [|done|].
      * by eapply timers_ok_ext; [..|exact Hok].
      * by eapply table_ok_ext; [..|exact Hw].
    + by eapply table_ok_ext; [..|exact Hw].
  - by apply table_ok_dismissToast.
  - destruct (pending w !! h) as [t|]; [|done]. case_bool_decide; simplify_eq.
    apply table_ok_run_callback; [by apply timers_ok_fired|].
    destruct Hw as [H1 H2 H3]. split; simpl; [done| |done].
    intros h' t' tid [_ Hp]%lookup_delete_Some. by eapply H2.
  - by eapply table_ok_ext; [..|exact Hw].
  - by eapply table_ok_ext; [..|exact Hw].
Qed.

Lemma reachable_table_ok w : reachable w → table_ok w.
Proof.
  induction 1 as [|w e w' Hr IH Hs].
  - by split.
  - eapply table_ok_step; [by apply reachable_Inv | done | done].
Qed.

(** X7: among the entries of the viewport's own timer table, at most
    one holds a pending auto-dismiss timer for a given id: two such
    entries have the same key and the same handle, and the key is the
    key of the record with that id in the viewport's list.  (Each
    [SileoToaster] has a table of its own; the property is about the
    table of one instance.) *)
Theorem one_dismiss_timer_per_toast (w : World) :
  reachable w →
  ∀ k1 k2 h1 h2 t1 t2 tid,
    timers w !! k1 = Some h1 → pending w !! h1 = Some t1 →
    callback t1 = AutoDismiss tid →
    timers w !! k2 = Some h2 → pending w !! h2 = Some t2 →
    callback t2 = AutoDismiss tid →
    k1 = k2 ∧ h1 = h2 ∧
    ∃ r, r ∈ vtoasts w ∧ id r = tid ∧ timeoutKey r = k1.
Proof.
  intros Hr k1 k2 h1 h2 t1 t2 tid Ht1 Hp1 Hc1 Ht2 Hp2 Hc2.
  destruct (reachable_table_ok _ Hr) as [Hlisted Hkeyed Hinj].
  pose proof (reachable_unique_vtoasts _ Hr) as Hnd.
  destruct (Hkeyed _ _ _ Hp1 Hc1) as (k1' & Hk1 & Hid1).
  destruct (Hkeyed _ _ _ Hp2 Hc2) as (k2' & Hk2 & Hid2).
  assert (k1' = k1) as -> by by eapply Hinj.
  assert (k2' = k2) as -> by by eapply Hinj.
  destruct (proj1 (list_elem_of_fmap _ _ _) (Hlisted _ _ Hk1)) as (r1 & -> & Hr1).
  destruct (proj1 (list_elem_of_fmap _ _ _) (Hlisted _ _ Hk2)) as (r2 & -> & Hr2).
  simpl in Hid1, Hid2.
  assert (r1 = r2) as <- by (eapply unique_ids_eq; [exact Hnd|done..|congruence]).
  split_and!; [done | congruence |]. by exists r1.
Qed.

(** ** Emissions and the timers of the viewport *)

Lemma foldl_schedule_one l w r :
  timers_ok w → NoDup (timeoutKey <$> l) →
  timers w !! timeoutKey r = None →
  r ∈ l → exiting r = false → 0 < nominal r →
  scheduled (foldl schedule_item w l) r (now w).
Proof.
  revert w. induction l as [|x l IH]; intros w Hok Hnd Hnone Hin Hex Hd;
    [by apply elem_of_nil in Hin|].
  rewrite fmap_cons in Hnd. apply NoDup_cons in Hnd as [Hx Hnd]. simpl.
  apply elem_of_cons in Hin as [->|Hin].
  - apply scheduled_foldl; [by apply timers_ok_schedule_item|].
    by apply schedule_item_new.
  - destruct (schedule_item_base w x) as (_&_&_&_&_&_&_&_&_&Hnow&_).
    rewrite <- Hnow. apply IH; try done.
    + by apply timers_ok_schedule_item.
    + apply timers_schedule_item_None; [done|].
      intros Heq. apply Hx. rewrite <- Heq. by apply list_elem_of_fmap_2.
Qed.

(** A timer of a record that stays in the list survives the pruning of
    the listener. *)
Lemma scheduled_listener next w r t0 :
  timers_ok w → table_ok w → r ∈ next → scheduled w r t0 →
  scheduled (listener next w) r t0.
Proof.
  intros Hok Htab Hin (h & Hk & Hp). unfold listener.
  assert (timers_ok (set_activeId (latest next)
            (set_timers (filter (λ kh, kh.1 ∈ timeoutKey <$> next) (timers w))
              (set_pending (clearTimeouts
                 (handles (filter (λ kh, kh.1 ∉ timeoutKey <$> next) (timers w)))
                 (pending w)) (set_vtoasts next w))))) as Hok2.
  { eapply timers_ok_ext;
      [..|apply (timers_ok_prune (λ kh, kh.1 ∈ timeoutKey <$> next) w Hok)]; done. }
  unfold schedule. simpl.
  assert (scheduled (set_activeId (latest next)
            (set_timers (filter (λ kh, kh.1 ∈ timeoutKey <$> next) (timers w))
              (set_pending (clearTimeouts
                 (handles (filter (λ kh, kh.1 ∉ timeoutKey <$> next) (timers w)))
                 (pending w)) (set_vtoasts next w)))) r t0) as Hs.
  { exists h. simpl. split.
    - apply map_lookup_filter_Some. split; [done|]. simpl. by apply list_elem_of_fmap_2.
    - apply lookup_clearTimeouts. split; [done|].
      intros (k & [Hk' Hn]%map_lookup_filter_Some)%elem_of_handles. simpl in Hn.
      destruct (decide (k = timeoutKey r)) as [->|Hne].
      + apply Hn. by apply list_elem_of_fmap_2.
      + apply Hne. by eapply (handles_inj _ Htab). }
  destruct (hovered w); [done | by apply scheduled_foldl].
Qed.

Lemma scheduled_update fn w r t0 :
  timers_ok w → table_ok w → (listeners w = true → r ∈ fn (toasts w)) →
  scheduled w r t0 → scheduled (update fn w) r t0.
Proof.
  intros Hok Htab Hin Hs. unfold update, emit. simpl.
  destruct (listeners w); [|done].
  apply scheduled_listener; [by eapply timers_ok_ext; [..|exact Hok]
                            | by eapply table_ok_ext; [..|exact Htab] | by apply Hin | done].
Qed.

Lemma hovered_update fn w : hovered (update fn w) = hovered w.
Proof.
  unfold update.
  by destruct (emit_store (set_toasts (fn (toasts w)) w)) as (_&_&_&_&_&_&_&_&->&_).
Qed.

Lemma listeners_update fn w : listeners (update fn w) = listeners w.
Proof.
  unfold update.
  by destruct (emit_store (set_toasts (fn (toasts w)) w)) as (_&->&_).
Qed.

(** X8: a store update caused by [createToast], [updateToast],
    [dismiss] or [clear] does not restart the timer of a record that it
    leaves in the registry unchanged: the timer stays pending with its
    original due time. *)
Theorem emission_keeps_running_timers (w : World) (e : Event) (w' : World)
    (r : SileoItem) (t0 : Z) :
  reachable w → step w e = Some w' →
  (∃ o rnd, e = ECreate o rnd) ∨ (∃ tid o rnd, e = EUpdate tid o rnd) ∨
  (∃ tid, e = EDismiss tid) ∨ (∃ pos, e = EClear pos) →
  scheduled w r t0 → r ∈ toasts w' →
  scheduled w' r t0.
Proof.
  intros Hr Hs He Hsch Hin.
  destruct (reachable_Inv _ Hr) as [Hok Hg]. pose proof (reachable_table_ok _ Hr) as Htab.
  destruct He as [(o & rnd & ->)|[(tid & o & rnd & ->)|[(tid & ->)|(pos & ->)]]];
    unfold step in Hs; simplify_eq.
  - rewrite createToast_world in *. cbv zeta in *.
    destruct (find_id _ _); (apply scheduled_update;
      [by eapply timers_ok_ext; [..|exact Hok] | by eapply table_ok_ext; [..|exact Htab]
      | intros _; by rewrite toasts_update in Hin | done]).
  - unfold updateToast in *. destruct (find_id _ _); [|done]. simpl in *.
    apply scheduled_update;
      [by eapply timers_ok_ext; [..|exact Hok] | by eapply table_ok_ext; [..|exact Htab]
      | intros _; by rewrite toasts_update in Hin | done].
  - unfold sileo.dismiss in *. rewrite dismissToast_world in *.
    destruct (find_id _ _) as [item|]; [|done]. destruct (exiting item); [done|].
    assert (scheduled (update (mark_id tid) w) r t0) as (h & Hk & Hp).
    { apply scheduled_update; [done..| |done]. intros _.
      simpl in Hin. by rewrite toasts_update in Hin. }
    exists h. simpl. split; [done|]. rewrite lookup_insert_ne; [done|].
    assert (timers_ok (update (mark_id tid) w)) as Hok' by by apply timers_ok_update.
    pose proof (pending_fresh _ Hok' _ _ Hp). lia.
  - unfold sileo.clear in *. apply scheduled_update; [done..| |done].
    intros _. by rewrite toasts_update in Hin.
Qed.

(** X9: [clear()] with a listening viewport empties the registry and the
    viewport's list, resets the active id, empties the timer table and
    leaves no auto-dismiss timer pending. *)
Theorem clear_cancels_timers (w : World) :
  reachable w → listeners w = true →
  toasts (sileo.clear None w) = [] ∧
  vtoasts (sileo.clear None w) = [] ∧
  activeId (sileo.clear None w) = None ∧
  timers (sileo.clear None w) = ∅ ∧
  no_auto_pending (sileo.clear None w).
Proof.
  intros Hr Hl.
  assert (reachable (sileo.clear None w)) as Hr'
    by by apply (reachable_step w (EClear None)).
  destruct (reachable_Inv _ Hr') as [Hok' _].
  pose proof (reachable_table_ok _ Hr') as [Hlisted _ _].
  assert (vtoasts (sileo.clear None w) = []) as Hv.
  { unfold sileo.clear. by rewrite vtoasts_update, Hl. }
  assert (timers (sileo.clear None w) = ∅) as Ht.
  { apply map_empty. intros k. destruct (timers _ !! k) as [h|] eqn:Hk; [|done].
    apply Hlisted in Hk. rewrite Hv in Hk. by apply elem_of_nil in Hk. }
  split_and!; [by rewrite toasts_clear | done | | done | by apply timers_empty_no_auto].
  unfold sileo.clear, update, emit. simpl. rewrite Hl. by rewrite activeId_listener.
Qed.

Lemma now_generateId rnd w : now (generateId rnd w).2 = now w.
Proof. done. Qed.

(** After an emission to a viewport that is not hovered, a record of
    the new list whose key is not in the table gets a fresh timer. *)
Lemma listener_schedules_new next w r :
  timers_ok w → hovered w = false → NoDup (id <$> next) →
  timers w !! timeoutKey r = None →
  r ∈ next → exiting r = false → 0 < nominal r →
  scheduled (listener next w) r (now w).
Proof.
  intros Hok Hh Hnd Hnone Hin Hex Hd. unfold listener, schedule. simpl. rewrite Hh.
  match goal with |- scheduled (foldl schedule_item ?x next) r _ =>
    apply (foldl_schedule_one next x r) end; try done.
  - eapply timers_ok_ext;
      [..|apply (timers_ok_prune (λ kh, kh.1 ∈ timeoutKey <$> next) w Hok)]; done.
  - by apply NoDup_timeoutKey.
  - simpl. destruct (filter _ (timers w) !! timeoutKey r) as [h|] eqn:Hf; [|done].
    apply map_lookup_filter_Some in Hf as [Hf _]. congruence.
Qed.

Lemma fresh_key_not_in_table w r :
  table_ok w → (instanceId r ∉ instanceId <$> vtoasts w) →
  timers w !! timeoutKey r = None.
Proof.
  intros Htab Hfresh. destruct (timers w !! timeoutKey r) as [h|] eqn:Hk; [|done].
  destruct Hfresh. apply (keys_listed _ Htab) in Hk.
  apply list_elem_of_fmap in Hk as (r' & Heq & Hr').
  apply list_elem_of_fmap. exists r'. split; [|done]. by injection Heq.
Qed.

Lemma update_schedules_new fn w r :
  timers_ok w → table_ok w → listeners w = true → hovered w = false →
  NoDup (id <$> fn (toasts w)) → r ∈ fn (toasts w) →
  (instanceId r ∉ instanceId <$> vtoasts w) → exiting r = false →
  vtoasts (update fn w) = toasts (update fn w) ∧
  (0 < nominal r → scheduled (update fn w) r (now w)).
Proof.
  intros Hok Htab Hl Hh Hnd Hin Hfresh Hex. split.
  - by rewrite vtoasts_update, toasts_update, Hl.
  - intros Hd. unfold update, emit. simpl. rewrite Hl.
    apply (listener_schedules_new _ (set_toasts (fn (toasts w)) w)); try done.
    + by eapply timers_ok_ext; [..|exact Hok].
    + apply fresh_key_not_in_table; [by eapply table_ok_ext; [..|exact Htab] | done].
Qed.

(** A record built by [createToast] or [updateToast] is in the
    registry after the call; when the viewport listens and is not
    hovered, its list is the registry and the record, if its nominal
    duration is positive, has a timer set at the time of the call. *)
Lemma built_record_scheduled (w : World) (e : Event) (w' : World) (item : SileoItem) :
  reachable w → listeners w = true → hovered w = false →
  (∃ o rnd, e = ECreate o rnd ∧ item = created_item o rnd w) ∨
  (∃ tid o rnd existing, e = EUpdate tid o rnd ∧
     find_id tid (toasts w) = Some existing ∧ item = updated_item tid o rnd existing w) →
  step w e = Some w' →
  vtoasts w' = toasts w' ∧ item ∈ toasts w' ∧
  (0 < nominal item → scheduled w' item (now w)).
Proof.
  intros Hr Hl Hh He Hs.
  destruct (reachable_Inv _ Hr) as [Hok Hg]. pose proof (reachable_table_ok _ Hr) as Htab.
  assert (reachable w') as Hr' by by eapply reachable_step.
  pose proof (reachable_unique_ids _ Hr') as Hnd'. unfold unique_ids in Hnd'.
  assert (∀ rnd, timers_ok (generateId rnd w).2 ∧ table_ok (generateId rnd w).2) as Hgen.
  { intros rnd. split; [by eapply timers_ok_ext; [..|exact Hok]
                       | by eapply table_ok_ext; [..|exact Htab]]. }
  destruct He as [(o & rnd & -> & ->)|(tid & o & rnd & existing & -> & Hf & ->)];
      unfold step in Hs; simplify_eq; destruct (Hgen rnd) as [Hok1 Htab1].
    - destruct (built_instanceId_fresh w o rnd Hr) as (_ & Hfresh & _).
      pose proof (created_item_in o rnd w) as Hin.
      rewrite createToast_world in *. cbv zeta in *.
      destruct (find_id _ _); rewrite toasts_update in Hnd', Hin.
      + destruct (update_schedules_new
                    (replace_id (resolved_id (store_options w) o) (created_item o rnd w))
                    (generateId rnd w).2 (created_item o rnd w)
                    Hok1 Htab1 Hl Hh Hnd' Hin Hfresh eq_refl) as [Hv Hsch].
        split_and!; [done | by rewrite toasts_update | done].
      + destruct (update_schedules_new
                    (λ p, filter (λ t, id t ≠ resolved_id (store_options w) o) p
                          ++ [created_item o rnd w])
                    (generateId rnd w).2 (created_item o rnd w)
                    Hok1 Htab1 Hl Hh Hnd' Hin Hfresh eq_refl) as [Hv Hsch].
        split_and!; [done | by rewrite toasts_update | done].
    - destruct (built_instanceId_fresh w o rnd Hr) as (_ & _ & Hfresh & _).
      destruct (Hfresh tid existing) as [_ Hfv].
      unfold updateToast in *. rewrite Hf in *. simpl in Hnd' |- *.
      fold (updated_item tid o rnd existing w) in *.
      rewrite toasts_update in Hnd'.
      assert (updated_item tid o rnd existing w
              ∈ replace_id tid (updated_item tid o rnd existing w) (toasts w)) as Hin.
      { apply find_id_Some in Hf as [Hex Hid]. unfold replace_id.
        apply list_elem_of_fmap. exists existing. by rewrite bool_decide_eq_true_2. }
      destruct (update_schedules_new
                  (replace_id tid (updated_item tid o rnd existing w))
                  (generateId rnd w).2
                  (updated_item tid o rnd existing w)
                  Hok1 Htab1 Hl Hh Hnd' Hin Hfv eq_refl) as [Hv Hsch].
      split_and!; [done | by rewrite toasts_update | done].
Qed.

(** X10: with a listening viewport that is not hovered, the record that
    [createToast] or [updateToast] builds is in the registry and, if its
    nominal duration is positive, has a timer set at the time of the
    call with that duration as its delay, due a full nominal duration
    later when the duration is below 2^31 ms; the table then holds no
    other key for its id, so the timer of the record it replaced is
    gone. *)
Theorem refreshed_record_rescheduled (w : World) (e : Event) (w' : World)
    (item : SileoItem) :
  reachable w → listeners w = true → hovered w = false →
  (∃ o rnd, e = ECreate o rnd ∧ item = created_item o rnd w) ∨
  (∃ tid o rnd existing, e = EUpdate tid o rnd ∧
     find_id tid (toasts w) = Some existing ∧ item = updated_item tid o rnd existing w) →
  step w e = Some w' →
  item ∈ toasts w' ∧
  (0 < nominal item →
     scheduled w' item (now w) ∧
     (nominal item < 2 ^ 31 → scheduled_full w' item (now w))) ∧
  (∀ k h, timers w' !! k = Some h → k.1 = id item → k = timeoutKey item).
Proof.
  intros Hr Hl Hh He Hs.
  destruct (built_record_scheduled w e w' item Hr Hl Hh He Hs) as (Hv & Hin & Hsch).
  assert (reachable w') as Hr' by by eapply reachable_step.
  pose proof (reachable_unique_ids _ Hr') as Hnd'. unfold unique_ids in Hnd'.
  split_and!; [done| |].
  - intros Hd. split; [by apply Hsch|].
    intros Hlt. apply scheduled_in_range; [by apply Hsch | lia].
  - intros k h Hk Hid. pose proof (reachable_table_ok _ Hr') as [Hlisted _ _].
    apply Hlisted in Hk. rewrite Hv in Hk.
    apply list_elem_of_fmap in Hk as (r' & -> & Hr'').
    f_equal. by eapply unique_ids_eq.
Qed.

Lemma promise_world {T E} (operation : Operation T E) opts rnd w :
  (promise operation opts rnd w).2 = (createToast (loading_options opts) rnd w).2.
Proof. unfold promise. by destruct (createToast _ rnd w) as [[? ?] ?]. Qed.

(** X11: the loading toast of [promise] is built with a null duration,
    which [schedule] reads as the default duration: with a listening
    viewport that is not hovered it gets an auto-dismiss timer that is
    due [DEFAULT_DURATION] later, like any other toast. *)
Theorem loading_toast_times_out {T E : Type} (operation : Operation T E)
    (opts : SileoPromiseOptions T E) (rnd : nat) (w : World) :
  reachable w → listeners w = true → hovered w = false →
  let item := created_item (loading_options opts) rnd w in
  state item = Some Loading ∧
  item_duration item = None ∧
  nominal item = DEFAULT_DURATION ∧
  item ∈ toasts (promise operation opts rnd w).2 ∧
  scheduled_full (promise operation opts rnd w).2 item (now w).
Proof.
  intros Hr Hl Hh item. rewrite promise_world.
  destruct (built_record_scheduled w (ECreate (loading_options opts) rnd)
              (createToast (loading_options opts) rnd w).2 item Hr Hl Hh) as (_ & Hin & Hs).
  { left. by exists (loading_options opts), rnd. }
  { done. }
  split_and!; [done..|]. apply scheduled_in_range; [by apply Hs | done].
Qed.

Lemma timers_schedule_item_mono w y k :
  is_Some (timers w !! k) → is_Some (timers (schedule_item w y) !! k).
Proof.
  intros Hk. unfold schedule_item. destruct (exiting y); [done|].
  repeat (case_bool_decide; [done|]). simpl.
  destruct (decide (timeoutKey y = k)) as [<-|Hne].
  - rewrite lookup_insert_eq. by eexists.
  - by rewrite lookup_insert_ne.
Qed.

Lemma timers_foldl_mono l w k :
  is_Some (timers w !! k) → is_Some (timers (foldl schedule_item w l) !! k).
Proof.
  revert w. induction l as [|y l IH]; intros w Hk; [done|].
  simpl. by apply IH, timers_schedule_item_mono.
Qed.

Lemma foldl_schedule_covers l w x :
  x ∈ l → exiting x = false → 0 < nominal x →
  is_Some (timers (foldl schedule_item w l) !! timeoutKey x).
Proof.
  revert w. induction l as [|y l IH]; intros w Hin Hex Hd; [by apply elem_of_nil in Hin|].
  simpl. apply elem_of_cons in Hin as [<-|Hin]; [|by apply IH].
  apply timers_foldl_mono. unfold schedule_item. rewrite Hex.
  case_bool_decide as Hk; [done|]. fold (nominal x).
  rewrite bool_decide_eq_false_2 by lia. simpl. rewrite lookup_insert_eq. by eexists.
Qed.

Lemma foldl_schedule_covered l w :
  (∀ x, x ∈ l → exiting x = false → 0 < nominal x →
        is_Some (timers w !! timeoutKey x)) →
  foldl schedule_item w l = w.
Proof.
  induction l as [|y l IH]; intros Hall; [done|]. simpl.
  assert (schedule_item w y = w) as ->.
  { unfold schedule_item. destruct (exiting y) eqn:Hex; [done|].
    case_bool_decide as Hk; [done|]. fold (nominal y).
    case_bool_decide as Hd; [done|]. destruct Hk. apply Hall; [left | done | lia]. }
  apply IH. intros x Hx. apply Hall. by right.
Qed.

(** X12: [schedule] is idempotent: a second pass over the same list
    finds every eligible record in the table and sets no timer. *)
Theorem schedule_idempotent (l : list SileoItem) (w : World) :
  schedule l (schedule l w) = schedule l w.
Proof.
  unfold schedule. destruct (hovered w) eqn:Hh; [by rewrite Hh|].
  destruct (foldl_schedule_base l w) as (_&_&_&_&_&_&_&_&->&_). rewrite Hh.
  apply foldl_schedule_covered. intros x Hx Hex Hd. by apply foldl_schedule_covers.
Qed.

(** ** Position of a record *)

(** X13: in a reachable state the record that [createToast] leaves under
    its id has the position of the merged options if they give one, else
    the position of the record with that id that was not exiting, else
    the store's default position. *)
Theorem position_inherited (w : World) (o : InternalSileoOptions) (rnd : nat)
    (r : SileoItem) :
  reachable w →
  r ∈ toasts (createToast o rnd w).2 → id r = resolved_id (store_options w) o →
  position r =
    match read (opt_position (mergeOptions (store_options w) o)) with
    | Some p => p
    | None =>
        match find_id (resolved_id (store_options w) o) (live (toasts w)) with
        | Some prev => position prev
        | None => store_position w
        end
    end.
Proof.
  intros Hr Hin Hid.
  assert (reachable (createToast o rnd w).2) as Hr' by by apply reachable_createToast.
  pose proof (reachable_unique_ids _ Hr') as Hnd. unfold unique_ids in Hnd.
  rewrite (unique_ids_eq _ r (created_item o rnd w) Hnd Hin (created_item_in o rnd w))
    by done.
  unfold created_item, buildSileoItem. simpl.
  destruct (read (spread _ _)); [done|]. by destruct (find_id _ _).
Qed.

(** ** types.ts and store.ts: position names *)

(** ** SileoToaster.vue: viewport style and grouping *)

(** ** Properties of the viewport's pure functions *)

(** X14: [pillAlign] is right (left) exactly for the positions that end
    in right (left) and centre for the others; [expandDir] is bottom
    exactly for the positions that start with top. *)
Theorem align_and_direction (pos : SileoPosition) :
  (pillAlign pos = AlignRight ↔ endsWith (position_name pos) "right" = true) ∧
  (pillAlign pos = AlignLeft ↔ endsWith (position_name pos) "left" = true) ∧
  (pillAlign pos = AlignCenter ↔
     endsWith (position_name pos) "left" = false ∧
     endsWith (position_name pos) "right" = false) ∧
  (expandDir pos = ExpandBottom ↔ startsWith (position_name pos) "top" = true) ∧
  (expandDir pos = ExpandTop ↔ startsWith (position_name pos) "bottom" = true).
Proof. destruct pos; vm_compute; intuition congruence. Qed.

(** X15: [getViewportStyle] returns nothing without an offset; a style
    it returns insets only the edges the position is anchored to (never
    both top and bottom, never both left and right, neither side for a
    centred position); a numeric offset [n] gives [n px] on those edges,
    and the offset 0 gives an empty style. *)
Theorem getViewportStyle_edges (offset : option (SileoOffsetValue + SileoOffsetConfig))
    (pos : SileoPosition) :
  (offset = None → getViewportStyle offset pos = None) ∧
  (∀ s, getViewportStyle offset pos = Some s →
     (css_top s = None ∨ css_bottom s = None) ∧
     (css_left s = None ∨ css_right s = None) ∧
     (is_Some (css_top s) → expandDir pos = ExpandBottom) ∧
     (is_Some (css_bottom s) → expandDir pos = ExpandTop) ∧
     (is_Some (css_left s) → pillAlign pos = AlignLeft) ∧
     (is_Some (css_right s) → pillAlign pos = AlignRight) ∧
     (pillAlign pos = AlignCenter → css_left s = None ∧ css_right s = None)) ∧
  (∀ n, getViewportStyle (Some (inl (OffsetNumber n))) pos =
     Some (if bool_decide (n = 0) then mkViewportStyle None None None None
           else mkViewportStyle
                  (if startsWith (position_name pos) "top" then Some (Px n) else None)
                  (if endsWith (position_name pos) "right" then Some (Px n) else None)
                  (if startsWith (position_name pos) "bottom" then Some (Px n) else None)
                  (if endsWith (position_name pos) "left" then Some (Px n) else None))).
Proof.
  split_and!.
  - by intros ->.
  - intros s Hs. destruct offset as [off|]; [|done]. simpl in Hs. simplify_eq.
    destruct pos; vm_compute; split_and!; auto;
      try (intros [? ?]; done); try done; by intros [? ?].
  - intros n. unfold getViewportStyle, inset. simpl.
    case_bool_decide as Hn; [subst n; by destruct pos|].
    destruct n; [done|..]; by destruct pos.
Qed.

(** ** [byPosition] *)

Lemma byPosition_snoc l t : byPosition (l ++ [t]) = byPosition_step (byPosition l) t.
Proof. unfold byPosition. by rewrite foldl_snoc. Qed.

Lemma byPosition_bucket l pos : byPosition l pos = bucket_of l pos.
Proof.
  induction l as [|t l IH] using rev_ind; [done|].
  rewrite byPosition_snoc. unfold bucket_of in *. rewrite filter_app.
  unfold byPosition_step.
  destruct (decide (position t = pos)) as [Hp|Hp].
  - rewrite (filter_cons_True _ t []) by done. rewrite filter_nil. subst pos.
    rewrite IH. destruct (filter _ l) as [|b bs] eqn:Hf; simpl.
    + by rewrite decide_True.
    + by rewrite decide_True.
  - rewrite (filter_cons_False _ t []) by done. rewrite filter_nil, app_nil_r.
    destruct (byPosition l (position t)); rewrite decide_False by done; exact IH.
Qed.

(** X16: the bucket of a position in [byPosition] is the list of the
    records with that position, in registry order, and is absent when
    there is none; every record is in the bucket of its position and in
    no other; a section is rendered exactly for the positions that have
    a record. *)
Theorem byPosition_partition (l : list SileoItem) (pos : SileoPosition) :
  byPosition l pos = bucket_of l pos ∧
  (section_rendered l pos = true ↔ ∃ t, t ∈ l ∧ position t = pos) ∧
  (∀ t, t ∈ l → ∃ b, byPosition l (position t) = Some b ∧ t ∈ b) ∧
  (∀ b t, byPosition l pos = Some b → t ∈ b → t ∈ l ∧ position t = pos).
Proof.
  assert (∀ p b, bucket_of l p = Some b → b = filter (λ t, position t = p) l ∧ b ≠ []) as Hb.
  { intros p b. unfold bucket_of. destruct (filter _ l) eqn:Hf; [done|]. by intros [= <-]. }
  split_and!.
  - apply byPosition_bucket.
  - unfold section_rendered. rewrite byPosition_bucket. unfold bucket_of. split.
    + destruct (filter _ l) as [|t b] eqn:Hf; [done|]. intros _. exists t.
      assert (t ∈ filter (λ t, position t = pos) l) as Ht by (rewrite Hf; left).
      apply list_elem_of_filter in Ht as [? ?]. done.
    + intros (t & Ht & Hp).
      assert (t ∈ filter (λ t, position t = pos) l) as Hin by by apply list_elem_of_filter.
      destruct (filter _ l); [by apply elem_of_nil in Hin | done].
  - intros t Ht. rewrite byPosition_bucket. unfold bucket_of.
    assert (t ∈ filter (λ t0, position t0 = position t) l) as Hin
      by by apply list_elem_of_filter.
    destruct (filter _ l) as [|x b] eqn:Hf; [by apply elem_of_nil in Hin|]. by eexists.
  - intros b t. rewrite byPosition_bucket. intros [-> _]%Hb [? ?]%list_elem_of_filter. done.
Qed.

(** ** Which toast may expand *)

(** X17: after a store update, a listening viewport lists the registry
    and its active id is [latest]; a toast may expand exactly when it is
    that latest toast, or when every toast is exiting; among the records
    that are not exiting only the latest may expand. *)
Theorem emission_sets_active (fn : list SileoItem → list SileoItem) (w : World) :
  listeners w = true →
  vtoasts (update fn w) = toasts (update fn w) ∧
  activeId (update fn w) = latest (toasts (update fn w)) ∧
  (∀ r, canExpand (update fn w) r = true ↔
        latest (toasts (update fn w)) = None ∨ latest (toasts (update fn w)) = Some (id r)) ∧
  (∀ r, r ∈ toasts (update fn w) → exiting r = false →
        canExpand (update fn w) r = true → latest (toasts (update fn w)) = Some (id r)).
Proof.
  intros Hl.
  assert (activeId (update fn w) = latest (toasts (update fn w))) as Ha.
  { rewrite toasts_update. unfold update, emit. simpl. rewrite Hl. apply activeId_listener. }
  assert (∀ r, canExpand (update fn w) r = true ↔
        latest (toasts (update fn w)) = None ∨ latest (toasts (update fn w)) = Some (id r))
    as Hc.
  { intros r. unfold canExpand. rewrite Ha. destruct (latest _) as [a|].
    - rewrite bool_decide_eq_true. split; [intros ->; by right | by intros [?|[= ->]]].
    - split; [by left | done]. }
  split_and!; [by rewrite vtoasts_update, toasts_update, Hl | done | done |].
  intros r Hr Hex [Hnone|Hsome]%Hc; [|done].
  pose proof (latest_cases (toasts (update fn w))) as Hspec. rewrite Hnone in Hspec.
  rewrite Forall_forall in Hspec. rewrite (Hspec r Hr) in Hex. done.
Qed.

(** ** [clear(position)] and the buckets *)

Lemma filter_filter_other (l : list SileoItem) (p q : SileoPosition) :
  q ≠ p →
  filter (λ t, position t = q) (filter (λ t, position t ≠ p) l)
  = filter (λ t, position t = q) l.
Proof.
  intros Hne. induction l as [|t l IH]; [done|].
  destruct (decide (position t = p)) as [Hp|Hp].
  - rewrite (filter_cons_False (λ t, position t ≠ p)) by (intros H; by apply H).
    rewrite (filter_cons_False (λ t, position t = q)) by congruence. done.
  - rewrite (filter_cons_True (λ t, position t ≠ p)) by done.
    destruct (decide (position t = q)) as [Hq|Hq].
    + rewrite !(filter_cons_True (λ t, position t = q)) by done. by rewrite IH.
    + rewrite !(filter_cons_False (λ t, position t = q)) by done. done.
Qed.

(** X18: [clear(position)] keeps the records of the other positions in
    their order: the bucket of the cleared position becomes absent,
    every other bucket is the same as before, and clearing the position
    again changes nothing. *)
Theorem clear_position_buckets (p : SileoPosition) (w : World) :
  toasts (sileo.clear (Some p) w) `sublist_of` toasts w ∧
  (∀ r, r ∈ toasts (sileo.clear (Some p) w) ↔ r ∈ toasts w ∧ position r ≠ p) ∧
  byPosition (toasts (sileo.clear (Some p) w)) p = None ∧
  (∀ q, q ≠ p →
     byPosition (toasts (sileo.clear (Some p) w)) q = byPosition (toasts w) q) ∧
  toasts (sileo.clear (Some p) (sileo.clear (Some p) w)) = toasts (sileo.clear (Some p) w).
Proof.
  rewrite !toasts_clear. split_and!.
  - apply sublist_filter.
  - intros r. rewrite list_elem_of_filter. intuition.
  - rewrite byPosition_bucket. unfold bucket_of.
    rewrite (filter_none (λ t, position t = p)); [done|].
    by intros x [? _]%list_elem_of_filter.
  - intros q Hq. rewrite !byPosition_bucket. unfold bucket_of.
    by rewrite filter_filter_other.
  - rewrite list_filter_filter. apply list_filter_iff. intros x. intuition.
Qed.

(** ** SileoToast.vue: swipe to dismiss *)

(** X19: while a swipe is armed the offset written on pointer move
    follows the pointer, clamped to 20 px in either direction; releasing
    emits [dismiss] exactly when the pointer moved more than 30 px, and
    disarms, so a second release does nothing; a pointer down while the
    toast is exiting, or on the action button, arms nothing. *)
Theorem swipe_gesture (exiting onButton : bool) (y0 y1 : Z) (before : option Z) :
  let armed := onPointerDown exiting onButton y0 before in
  (* the visual offset follows the pointer up to 20 px, in its direction *)
  (∀ off, onPointerMove y1 armed = Some off →
     Z.abs off <= SWIPE_MAX ∧
     ∃ start, armed = Some start ∧
       (Z.abs (y1 - start) <= SWIPE_MAX → off = y1 - start) ∧
       (y1 - start > SWIPE_MAX → off = SWIPE_MAX) ∧
       (y1 - start < - SWIPE_MAX → off = - SWIPE_MAX)) ∧
  (* releasing dismisses exactly beyond 30 px, and disarms *)
  (exiting = false → onButton = false →
     onPointerUp y1 armed = (None, bool_decide (Z.abs (y1 - y0) > SWIPE_DISMISS))) ∧
  (* a second release does nothing *)
  onPointerUp y1 (onPointerUp y1 armed).1 = (None, false) ∧
  (* while exiting, or on the action button, nothing is armed *)
  (exiting = true ∨ onButton = true → before = None →
     armed = None ∧ onPointerMove y1 armed = None ∧ onPointerUp y1 armed = (None, false)).
Proof.
  cbv zeta. split_and!.
  - intros off Hoff. unfold onPointerMove in Hoff.
    destruct (onPointerDown _ _ _ _) as [start|]; [|done]. simplify_eq.
    unfold SWIPE_MAX. split; [case_bool_decide; lia|].
    exists start. split; [done|]. split_and!; intros; case_bool_decide; lia.
  - by intros -> ->.
  - unfold onPointerUp. by destruct (onPointerDown _ _ _ _).
  - intros [-> | ->] ->; [done|]. by destruct exiting.
Qed.

(** ** SileoToast.vue: the content swap *)

Lemma held_back_step s e s' : refresh_step s e = Some s' → held_back_ok s → held_back_ok s'.
Proof.
  unfold held_back_ok. intros Hs Hok k payload.
  destruct e; simpl in Hs.
  - simplify_eq. unfold on_refresh. destruct rk as [k'|]; simpl; [|done].
    case_bool_decide; [by apply Hok|]. destruct (is_open s); simpl; [|done].
    by intros [= -> ->].
  - destruct (swapTimer s); [|done]. simplify_eq. unfold on_swap_timeout.
    by destruct (swap_pending s) as [[? ?]|].
  - simplify_eq. unfold handleTransitionEnd. destruct relevant; simpl; [|by apply Hok].
    destruct (is_open s); [by apply Hok|].
    destruct (swap_pending s) as [[? ?]|] eqn:Hp; [done|]. by rewrite Hp.
  - simplify_eq. unfold handleEnter. destruct (hasDesc _); [|by apply Hok]. simpl. apply Hok.
  - simplify_eq. simpl. apply Hok.
  - simplify_eq. simpl. apply Hok.
Qed.

Lemma refresh_reachable_held_back rk0 v0 s : refresh_reachable rk0 v0 s → held_back_ok s.
Proof. induction 1; [done | by eapply held_back_step]. Qed.

(** X20: when a new refresh key arrives while the toast is collapsed,
    the new content is shown at once.  While it is open, the old content
    stays and the toast collapses with the new content held back and a
    timeout set; the end of the height or transform transition, or the
    timeout, then shows the new content, once; other transitions and a
    repeated key change nothing. *)
Theorem content_swap_deferred (rk0 : option string) (v0 : View) (s : Refresh)
    (k : string) (next : View) :
  refresh_reachable rk0 v0 s → lastRefreshKey s ≠ Some k →
  let s1 := on_refresh (Some k) next s in
  (* collapsed: the new content is shown at once *)
  (is_open s = false →
     view s1 = next ∧ applied s1 = Some k ∧ swap_pending s1 = None) ∧
  (* open: the old content stays while the toast collapses *)
  (is_open s = true →
     view s1 = view s ∧ applied s1 = applied s ∧ is_open s1 = false ∧
     swap_pending s1 = Some (k, next) ∧ swapTimer s1 = true ∧
     (* then the end of the transition or the timeout shows it, once *)
     view (handleTransitionEnd true s1) = next ∧
     applied (handleTransitionEnd true s1) = Some k ∧
     view (on_swap_timeout s1) = next ∧
     applied (on_swap_timeout s1) = Some k ∧
     swapTimer (handleTransitionEnd true s1) = false ∧
     handleTransitionEnd true (on_swap_timeout s1) = on_swap_timeout s1 ∧
     handleTransitionEnd false s1 = s1) ∧
  (* the same key again changes nothing *)
  on_refresh (Some k) next s1 = s1.
Proof.
  intros Hr Hk. cbv zeta.
  assert (on_refresh (Some k) next s =
          if is_open s
          then mkRefresh (view s) (applied s) false (Some k) (Some (k, next)) true
          else mkRefresh next (Some k) (isExpanded s) (Some k) None false) as ->.
  { unfold on_refresh. by rewrite (bool_decide_eq_false_2 _ Hk). }
  split_and!.
  - by intros ->.
  - intros ->. unfold handleTransitionEnd, on_swap_timeout, is_open. simpl.
    rewrite !andb_false_r. simpl. by split_and!.
  - destruct (is_open s); unfold on_refresh; simpl; by rewrite bool_decide_eq_true_2.
Qed.

(** X21: in every reachable state of the refresh logic, content that is
    held back has its swap timeout set and carries the last refresh key,
    and the timeout shows exactly that content. *)
Theorem held_back_content_is_shown (rk0 : option string) (v0 : View) (s : Refresh) :
  refresh_reachable rk0 v0 s →
  ∀ k payload, swap_pending s = Some (k, payload) →
    swapTimer s = true ∧ lastRefreshKey s = Some k ∧
    ∃ s', refresh_step s RSwapTimeout = Some s' ∧
          view s' = payload ∧ applied s' = Some k ∧ swap_pending s' = None.
Proof.
  intros Hr k payload Hp.
  destruct (refresh_reachable_held_back _ _ _ Hr k payload Hp) as [Ht Hl].
  split_and!; [done..|]. simpl. rewrite Ht. eexists. split; [done|].
  unfold on_swap_timeout. by rewrite Hp.
Qed.

(** ** Properties of the toast layout *)

Module ToastLayoutFacts.
Import QArith Qminmax Lqa ToastLayout.
Local Open Scope Q_scope.

Lemma rawExpanded_ge hasDesc h : 90 <= Toast.rawExpanded hasDesc h.
Proof.
  unfold Toast.rawExpanded. destruct hasDesc.
  - eapply Qle_trans; [|apply Q.le_max_l]. by vm_compute.
  - by vm_compute.
Qed.

Lemma frozen_after_ge hasDesc0 changes : 90 <= frozen_after hasDesc0 changes.
Proof.
  unfold frozen_after.
  assert (∀ init, 90 <= init →
    90 <= foldl (λ frozen '(open, hasDesc, contentHeight),
           freeze open (Toast.rawExpanded hasDesc contentHeight) frozen) init changes) as H.
  { induction changes as [|[[o hd] h] changes IH]; intros init Hi; [done|].
    simpl. apply IH. unfold freeze. destruct o; [apply rawExpanded_ge | done]. }
  apply H, rawExpanded_ge.
Qed.

(** X22: whatever content heights were measured and whenever the toast
    was open, the expanded height in use (the live one when open, the
    frozen one when closed) is at least 90; so the SVG height is that
    height for a toast with a body and 40 without, the body height is
    the expanded height minus 40, and the closed scale [HEIGHT /
    expanded] lies in (0, 4/9]. *)
Theorem expanded_height_bounds (hasDesc0 : bool) (changes : list (bool * bool * Z))
    (open hasDesc : bool) (contentHeight : Z) :
  let e := expanded open (Toast.rawExpanded hasDesc contentHeight)
                    (frozen_after hasDesc0 changes) in
  90 <= e ∧
  svgHeight true e == e ∧
  svgHeight false e == 40 ∧
  expandedContent e == e - 40 ∧
  0 < closed_scale e ∧ closed_scale e <= 4 # 9.
Proof.
  cbv zeta.
  assert (90 <= expanded open (Toast.rawExpanded hasDesc contentHeight)
                  (frozen_after hasDesc0 changes)) as He.
  { unfold expanded. destruct open; [apply rawExpanded_ge | apply frozen_after_ge]. }
  set (e := expanded _ _ _) in *. clearbody e.
  split_and!.
  - done.
  - unfold svgHeight. apply Q.max_l. unfold Toast.minExpanded, Toast.HEIGHT,
      Toast.MIN_EXPAND_RATIO. lra.
  - reflexivity.
  - unfold expandedContent. apply Q.max_r. unfold Toast.HEIGHT. lra.
  - unfold closed_scale, Toast.HEIGHT. apply Qlt_shift_div_l; lra.
  - unfold closed_scale, Toast.HEIGHT. apply Qle_shift_div_r; lra.
Qed.

(** X23: the resolved pill width is at least the collapsed height; a
    right-aligned pill ends at the toast's width, a centred pill has
    equal margins, a left-aligned pill starts at 0, and the offsets are
    not negative while the pill is no wider than the toast.
    [measurePill] leaves the width alone when an element is missing,
    and only ever stores a width above the padding. *)
Theorem pill_geometry (refs : option (Q * Q)) (pillWidth : Q) :
  Toast.HEIGHT <= resolvedPillWidth pillWidth ∧
  pillX AlignRight (resolvedPillWidth pillWidth) + resolvedPillWidth pillWidth == WIDTH ∧
  pillX AlignCenter (resolvedPillWidth pillWidth)
    == WIDTH - resolvedPillWidth pillWidth - pillX AlignCenter (resolvedPillWidth pillWidth) ∧
  pillX AlignLeft (resolvedPillWidth pillWidth) == 0 ∧
  (resolvedPillWidth pillWidth <= WIDTH →
     0 <= pillX AlignRight (resolvedPillWidth pillWidth) ∧
     0 <= pillX AlignCenter (resolvedPillWidth pillWidth)) ∧
  (measurePill None pillWidth = pillWidth) ∧
  (PILL_PADDING < measurePill refs pillWidth ∨ measurePill refs pillWidth = pillWidth).
Proof.
  split_and!.
  - unfold resolvedPillWidth. apply Q.le_max_r.
  - unfold pillX. lra.
  - unfold pillX. field.
  - reflexivity.
  - intros Hw. unfold pillX. split; [lra|].
    apply Qle_shift_div_l; lra.
  - reflexivity.
  - unfold measurePill. destruct refs as [[sw pad]|]; [|by right].
    destruct (Qlt_le_dec _ _) as [Hlt|Hle]; [|by right].
    destruct (Qeq_bool _ _); [by right | by left].
Qed.
End ToastLayoutFacts.

Lemma reachable_mounted_shown : reachable (after mounted_shown).
Proof. apply (run_reachable mounted_shown). vm_compute. reflexivity. Qed.

Lemma reachable_mounted_only : reachable (after mounted_only).
Proof. apply (run_reachable mounted_only). vm_compute. reflexivity. Qed.

Lemma reachable_shown : reachable (after shown).
Proof. apply (run_reachable shown). vm_compute. reflexivity. Qed.

Lemma instanceId_fresh_witness :
  idCounter (createToast (with_id "x") 2%nat (after shown)).2 = S (idCounter (after shown)).
Proof.
  exact (proj2 (proj2 (proj2 (instanceId_fresh (after shown) (with_id "x") 2%nat
                                reachable_shown)))).
Defined.

Lemma one_dismiss_timer_per_toast_witness :
  ∃ r, r ∈ vtoasts (after mounted_shown) ∧ id r = "x"%string ∧
       timeoutKey r = timeoutKey shown_item.
Proof.
  refine (proj2 (proj2 (one_dismiss_timer_per_toast (after mounted_shown)
            reachable_mounted_shown (timeoutKey shown_item) (timeoutKey shown_item)
            1%nat 1%nat (mkTimer 6000 (AutoDismiss "x")) (mkTimer 6000 (AutoDismiss "x"))
            "x" _ _ eq_refl _ _ eq_refl))); vm_compute; reflexivity.
Defined.

Lemma emission_keeps_running_timers_witness :
  scheduled (sileo.clear (Some bottom_left) (after mounted_shown)) shown_item 0.
Proof.
  refine (emission_keeps_running_timers (after mounted_shown) (EClear (Some bottom_left))
            (sileo.clear (Some bottom_left) (after mounted_shown)) shown_item 0
            reachable_mounted_shown eq_refl _ _ _).
  - right. right. right. by exists (Some bottom_left).
  - exists 1%nat. split; vm_compute; reflexivity.
  - vm_compute. left.
Defined.

Lemma clear_cancels_timers_witness :
  timers (sileo.clear None (after mounted_shown)) = ∅.
Proof.
  refine (proj1 (proj2 (proj2 (proj2 (clear_cancels_timers (after mounted_shown)
            reachable_mounted_shown _))))).
  vm_compute. reflexivity.
Defined.

Lemma refreshed_record_rescheduled_witness :
  scheduled_full (createToast (with_id "x") 2%nat (after mounted_shown)).2
    (created_item (with_id "x") 2%nat (after mounted_shown)) (now (after mounted_shown)).
Proof.
  refine (proj2 (proj1 (proj2 (refreshed_record_rescheduled (after mounted_shown)
            (ECreate (with_id "x") 2%nat) _ _ reachable_mounted_shown _ _ _ eq_refl)) _) _).
  - vm_compute. reflexivity.
  - vm_compute. reflexivity.
  - left. by exists (with_id "x"), 2%nat.
  - vm_compute. reflexivity.
  - vm_compute. reflexivity.
Defined.

Lemma loading_toast_times_out_witness :
  scheduled_full (promise (Started (Fulfilled ())) static_promise 1%nat (after mounted_only)).2
    (created_item (loading_options static_promise) 1%nat (after mounted_only))
    (now (after mounted_only)).
Proof.
  refine (proj2 (proj2 (proj2 (proj2 (loading_toast_times_out (Started (Fulfilled ()))
            static_promise 1%nat (after mounted_only) reachable_mounted_only _ _))))).
  - vm_compute. reflexivity.
  - vm_compute. reflexivity.
Defined.

Lemma position_inherited_witness :
  position (created_item (with_id "x") 2%nat (after shown_at_bottom)) = bottom_left.
Proof.
  refine (position_inherited (after shown_at_bottom) (with_id "x") 2%nat
            (created_item (with_id "x") 2%nat (after shown_at_bottom)) _ _ eq_refl).
  - apply (run_reachable shown_at_bottom). vm_compute. reflexivity.
  - apply created_item_in.
Defined.

Lemma emission_sets_active_witness :
  activeId (update (λ l, l) (after mounted_shown))
  = latest (toasts (update (λ l, l) (after mounted_shown))).
Proof.
  refine (proj1 (proj2 (emission_sets_active (λ l, l) (after mounted_shown) _))).
  vm_compute. reflexivity.
Defined.

Lemma content_swap_deferred_witness :
  view (handleTransitionEnd true (on_refresh (Some "2") plain_view open_toast)) = plain_view.
Proof.
  refine (proj1 (proj2 (proj2 (proj2 (proj2 (proj2 (proj1 (proj2
            (content_swap_deferred (Some "1") plain_view open_toast "2" plain_view _ _))
            eq_refl))))))).
  - apply (refresh_next _ _ (refresh_initial (Some "1") plain_view) REnter);
      [apply refresh_start | reflexivity].
  - discriminate.
Defined.

Lemma held_back_content_is_shown_witness :
  swapTimer holding_toast = true.
Proof.
  refine (proj1 (held_back_content_is_shown (Some "1") plain_view holding_toast _
            "2" plain_view eq_refl)).
  apply (refresh_next _ _ open_toast (RWatch (Some "2") plain_view)); [|reflexivity].
  apply (refresh_next _ _ (refresh_initial (Some "1") plain_view) REnter);
    [apply refresh_start | reflexivity].
Defined.
